(** * Construct: the event evaluation registry and the federated fetch unit

    A shallow embedding of [matrix/vm_eval.cc] (the registry of live
    evaluations, the batch constructor, the parallel key fetch) and of the
    event fetch unit (submission, origin selection, issuance, completion and
    response validation), with the properties the specification states
    about them. *)

From Stdlib Require Import List String Ascii ZArith NArith Lia Bool.
From Stdlib Require Import Sorted Permutation OrderedTypeEx.
Import ListNotations.

Local Open Scope string_scope.
Local Open Scope list_scope.

(** ** Exceptions and outcomes *)

(** The exceptions the embedded code throws. *)
Inductive exception : Type :=
| std_out_of_range (what : string)      (* std::out_of_range *)
| json_not_found (key : string)          (* json::not_found *)
| m_NOT_FOUND                            (* m::NOT_FOUND *)
| ircd_error (what : string)             (* ircd::error *)
| http_error                             (* http::error *)
| std_exception.                         (* any other std::exception *)

(** What a call does: it returns, it throws, or an [assert] fails.
    [Diverge] is the answer of a loop of the model whose bound on the number
    of iterations was reached; within the bound the loop does what the loop
    of the source does. *)
Inductive outcome (A : Type) : Type :=
| Ret (a : A)
| Throw (e : exception)
| Abort
| Diverge.

Arguments Ret {A} a.
Arguments Throw {A} e.
Arguments Abort {A}.
Arguments Diverge {A}.

(** ** JSON objects *)

Module json.

(** Modelled from the spec: [json::object] and [json::iov], which are not
    part of the sources at hand.  An object is read as its members, names
    and values, in document order; [find] is the first member of a name. *)
Definition object (V : Type) : Type := list (string * V).

Fixpoint find {V : Type} (key : string) (o : object V) : option V :=
  match o with
  | [] => None
  | (k, v) :: rest => if String.eqb k key then Some v else find key rest
  end.

Definition has {V : Type} (key : string) (o : object V) : bool :=
  match find key o with Some _ => true | None => false end.

(** [object::at]: the member, or [json::not_found] when there is none. *)
Definition at_ {V : Type} (key : string) (o : object V) : outcome V :=
  match find key o with
  | Some v => Ret v
  | None => Throw (json_not_found key)
  end.

End json.

(** ** std::set *)

Module stdset.

(** A [std::set] with comparison [less] is read as its elements in
    iteration order, that is in ascending order. *)
Section Set_.
Context {A : Type} (less : A -> A -> bool).

(** [emplace]: the element goes to its place in the order, and nothing
    is inserted when an equivalent element is there. *)
Fixpoint emplace (x : A) (l : list A) : list A :=
  match l with
  | [] => [x]
  | y :: rest =>
      if less x y then x :: y :: rest
      else if less y x then y :: emplace x rest
      else y :: rest
  end.

(** [count]: 1 when an equivalent element is there, else 0. *)
Fixpoint count (x : A) (l : list A) : bool :=
  match l with
  | [] => false
  | y :: rest =>
      if less x y then false
      else if less y x then count x rest
      else true
  end.
End Set_.

(** [lower_bound] with a transparent comparison against a key: the
    elements before the first one that is not less than the key, and the
    elements from that one on (the iterator). *)
Fixpoint lower_bound {A : Type} (less_key : A -> bool) (l : list A)
    : list A * list A :=
  match l with
  | [] => ([], [])
  | y :: rest =>
      if less_key y
      then let '(before, it) := lower_bound less_key rest in (y :: before, it)
      else ([], y :: rest)
  end.

Definition pair_less (a b : string * string) : bool :=
  if String.ltb (fst a) (fst b) then true
  else if String.ltb (fst b) (fst a) then false
  else String.ltb (snd a) (snd b).

End stdset.

(** ** Events *)

Module m.

(** Modelled from the spec: [m::event], whose declaration is not part of
    the sources at hand, with the members the embedded functions read.  An
    absent string member is the empty string; an absent [signatures] member
    is [None]. *)
Record event : Type := mk_event {
  event_id : string;
  depth : Z;
  origin_server_ts : Z;
  origin : string;
  sender : string;
  signatures : option (json.object (json.object string))
}.

(** Modelled from the spec: [m::user::id::host], which is not part of the
    sources at hand.  A user id has the form [@local:host]; the host is
    what follows the first colon. *)
Fixpoint host (user_id : string) : string :=
  match user_id with
  | EmptyString => EmptyString
  | String c rest => if Ascii.eqb c ":"%char then rest else host rest
  end.

(** The truth value of a [string_view]: it is not empty. *)
Definition defined (s : string) : bool :=
  match s with EmptyString => false | _ => true end.

(** The server an event is attributed to: its [origin], or the sender's
    host when [origin] is absent. *)
Definition origin_of (ev : event) : string :=
  if defined (origin ev) then origin ev else host (sender ev).

End m.

(** ** The evaluation registry *)

Module vm.

Definition addr : Type := nat.       (* the address of an eval *)
Definition ctx_t : Type := nat.      (* the identity of a ctx::ctx *)

(** Modelled from the spec: the fields of [vm::opts] the embedded functions
    read; the structure's declaration is not part of the sources at hand. *)
Record opts : Type := mk_opts {
  limit : nat;
  ordered : bool;
  node_id : string
}.

(** Modelled from the spec: the members of [vm::eval]; the structure's
    declaration is not part of the sources at hand. *)
Record eval : Type := mk_eval {
  eval_opts : opts;
  ctx : ctx_t;
  id : N;
  sequence : N;
  pdus : list m.event;
  issue : option (json.object string);
  event_ : option m.event;
  event_id : string;
  parent : option addr;
  child : option addr
}.

(** [eval::list]: the pointers to the live evaluations in list order, each
    with the object it points to. *)
Definition instance_list : Type := list (addr * eval).

Record state : Type := mk_state {
  list : instance_list;
  id_ctr : N
}.

(** *** std::min_element and std::max_element *)

Section Elements.
Context {A : Type} (comp : A -> A -> bool).

Fixpoint min_scan (smallest : A) (rest : Datatypes.list A) : A :=
  match rest with
  | [] => smallest
  | x :: rest' => min_scan (if comp x smallest then x else smallest) rest'
  end.

Fixpoint max_scan (largest : A) (rest : Datatypes.list A) : A :=
  match rest with
  | [] => largest
  | x :: rest' => max_scan (if comp largest x then x else largest) rest'
  end.

(** [None] is the end iterator. *)
Definition min_element (l : Datatypes.list A) : option A :=
  match l with [] => None | x :: rest => Some (min_scan x rest) end.

Definition max_element (l : Datatypes.list A) : option A :=
  match l with [] => None | x :: rest => Some (max_scan x rest) end.
End Elements.

(** [sequence::get] of the evaluation pointed to: its [sequence] member. *)
Definition seq_of (p : addr * eval) : N := sequence (snd p).

(** The comparison of [seqmin]: an unsequenced evaluation is never less,
    and everything sequenced is less than an unsequenced one. *)
Definition seqmin_comp (a b : addr * eval) : bool :=
  if N.eqb (seq_of a) 0 then false
  else if N.eqb (seq_of b) 0 then true
  else N.ltb (seq_of a) (seq_of b).

Definition seqmin (l : instance_list) : option addr :=
  match min_element seqmin_comp l with
  | None => None
  | Some it => if N.eqb (seq_of it) 0 then None else Some (fst it)
  end.

Definition seqmax_comp (a b : addr * eval) : bool :=
  N.ltb (seq_of a) (seq_of b).

Definition seqmax (l : instance_list) : option addr :=
  match max_element seqmax_comp l with
  | None => None
  | Some it => if N.eqb (seq_of it) 0 then None else Some (fst it)
  end.

(** *** Iteration and lookup by event id *)

(** [for_each(closure)]: the closure works on the state [R] it captured
    and answers whether to go on. *)
Fixpoint for_each {R : Type} (closure : R -> addr * eval -> R * bool)
    (l : instance_list) (r : R) : R * bool :=
  match l with
  | [] => (r, true)
  | e :: rest =>
      let '(r', go_on) := closure r e in
      if go_on then for_each closure rest r' else (r', false)
  end.

(** The test in the closures of [find] and [count]. *)
Definition refers (event_id_ : string) (e : eval) : bool :=
  match event_ e with
  | Some ev => String.eqb (m.event_id ev) event_id_
  | None =>
      match issue e with
      | Some iov =>
          if json.has "event_id" iov
          then match json.find "event_id" iov with
               | Some v => String.eqb v event_id_
               | None => false
               end
          else false
      | None => String.eqb (event_id e) event_id_
      end
  end.

Definition find (event_id_ : string) (l : instance_list) : option addr :=
  fst (for_each
         (fun (ret : option addr) (e : addr * eval) =>
            let ret' := if refers event_id_ (snd e) then Some (fst e) else ret in
            (ret', match ret' with None => true | Some _ => false end))
         l None).

(** [eval::get]: the registry is read and never written. *)
Definition get (event_id_ : string) (s : state) : outcome addr * state :=
  match find event_id_ (list s) with
  | None => (Throw (std_out_of_range "eval::get(): event_id not being evaluated."), s)
  | Some ret => (Ret ret, s)
  end.

(** *** Parent and child *)

Fixpoint lookup (a : addr) (l : instance_list) : option eval :=
  match l with
  | [] => None
  | (b, e) :: rest => if Nat.eqb a b then Some e else lookup a rest
  end.

(** A write through the pointer [a]. *)
Fixpoint update (a : addr) (f : eval -> eval) (l : instance_list)
    : instance_list :=
  match l with
  | [] => []
  | (b, e) :: rest =>
      if Nat.eqb a b then (b, f e) :: rest else (b, e) :: update a f rest
  end.

Fixpoint remove (a : addr) (l : instance_list) : instance_list :=
  match l with
  | [] => []
  | (b, e) :: rest =>
      if Nat.eqb a b then rest else (b, e) :: remove a rest
  end.

Definition set_parent (p : option addr) (e : eval) : eval :=
  mk_eval (eval_opts e) (ctx e) (id e) (sequence e) (pdus e) (issue e)
          (event_ e) (event_id e) p (child e).

Definition set_child (c : option addr) (e : eval) : eval :=
  mk_eval (eval_opts e) (ctx e) (id e) (sequence e) (pdus e) (issue e)
          (event_ e) (event_id e) (parent e) c.

(** [for_each(ctx, closure)]: only the evaluations of the task [c]. *)
Fixpoint for_each_ctx {R : Type} (c : ctx_t)
    (closure : R -> addr * eval -> R * bool)
    (l : instance_list) (r : R) : R * bool :=
  match l with
  | [] => (r, true)
  | e :: rest =>
      if Nat.eqb (ctx (snd e)) c
      then let '(r', go_on) := closure r e in
           if go_on then for_each_ctx c closure rest r' else (r', false)
      else for_each_ctx c closure rest r
  end.

(** The closure of [find_parent]; [ret] is the captured pointer, read
    with the object it points to. *)
Definition find_parent_closure (a : addr) (ret : option (addr * eval))
    (e : addr * eval) : option (addr * eval) * bool :=
  let cond :=
    negb (Nat.eqb (fst e) a)
    && match ret with
       | None => true
       | Some r => N.ltb (id (snd r)) (id (snd e))
       end in
  ((if cond then Some e else ret), true).

Definition find_parent (a : addr) (c : ctx_t) (l : instance_list)
    : option addr :=
  option_map fst (fst (for_each_ctx c (find_parent_closure a) l None)).

Definition uint64_modulus : N := 2 ^ 64.

(** Modelled from the spec: the constructor and the destructor of
    [util::instance_list], which are not part of the sources at hand.  Every
    live evaluation is on the list: an evaluation registers itself when it
    is constructed and unregisters itself when it is destroyed. *)
Definition instance_list_ctor (this : addr) (self : eval) (l : instance_list)
    : instance_list :=
  l ++ [(this, self)].

Definition instance_list_dtor (this : addr) (l : instance_list) : instance_list :=
  remove this l.

(** [eval::eval(const vm::opts &)] run by the task [cur] for the object at
    [this].  The instance list registers the object first; the members
    take their default initializers, [id] the incremented counter; then
    [parent] is looked up and the body installs [this] as its child.
    [None]: an assertion failed, or [this] is the address of a live
    object, which no allocation returns. *)
Definition eval_ctor (this : addr) (cur : ctx_t) (o : opts) (s : state)
    : option state :=
  match lookup this (list s) with
  | Some _ => None
  | None =>
      let id' := N.modulo (id_ctr s + 1) uint64_modulus in
      let self := mk_eval o cur id' 0 [] None None "" None None in
      let l1 := instance_list_ctor this self (list s) in
      let parent_ := find_parent this cur l1 in
      let l2 := update this (set_parent parent_) l1 in
      match parent_ with
      | None => Some (mk_state l2 id')
      | Some p =>
          match lookup p l2 with
          | None => None
          | Some pe =>
              match child pe with
              | Some _ => None                           (* assert(!parent->child) *)
              | None => Some (mk_state (update p (set_child (Some this)) l2) id')
              end
          end
      end
  end.

(** [eval::~eval], after which the instance list drops the object.
    [None]: an assertion failed, or a pointer that is read does not point
    to a live object. *)
Definition eval_dtor (this : addr) (s : state) : option state :=
  match lookup this (list s) with
  | None => None
  | Some e =>
      match child e with
      | Some _ => None                                   (* assert(!child) *)
      | None =>
          match parent e with
          | None => Some (mk_state (instance_list_dtor this (list s)) (id_ctr s))
          | Some p =>
              match lookup p (list s) with
              | None => None
              | Some pe =>
                  match child pe with
                  | Some c =>
                      if Nat.eqb c this                  (* assert(parent->child == this) *)
                      then Some (mk_state
                                   (instance_list_dtor this
                                      (update p (set_child None) (list s)))
                                   (id_ctr s))
                      else None
                  | None => None
                  end
              end
          end
      end
  end.

(** The constructions and destructions a program performs. *)
Inductive op : Type :=
| Construct (this : addr) (cur : ctx_t) (o : opts)
| Destruct (this : addr).

Definition step (s : state) (o : op) : option state :=
  match o with
  | Construct this cur o' => eval_ctor this cur o' s
  | Destruct this => eval_dtor this s
  end.

Fixpoint run (ops : Datatypes.list op) (s : state) : option state :=
  match ops with
  | [] => Some s
  | o :: rest =>
      match step s o with
      | None => None
      | Some s' => run rest s'
      end
  end.

Definition init : state := mk_state [] 0.

(** *** The batch constructor *)

(** Modelled from the spec: [operator<] on [m::event], which is not part
    of the sources at hand.  Events are ordered by [depth], ties by
    [origin_server_ts], then by [event_id] lexicographically. *)
Definition event_less (a b : m.event) : bool :=
  if Z.ltb (m.depth a) (m.depth b) then true
  else if Z.ltb (m.depth b) (m.depth a) then false
  else if Z.ltb (m.origin_server_ts a) (m.origin_server_ts b) then true
  else if Z.ltb (m.origin_server_ts b) (m.origin_server_ts a) then false
  else String.ltb (m.event_id a) (m.event_id b).

(** [std::sort] rearranges a range into ascending order; the order it
    leaves equivalent elements in is unspecified.  It is read here as the
    insertion of each element into the sorted rest. *)
Section Sort.
Context {A : Type} (less : A -> A -> bool).

Fixpoint sort_insert (x : A) (l : Datatypes.list A) : Datatypes.list A :=
  match l with
  | [] => [x]
  | y :: rest => if less x y then x :: y :: rest else y :: sort_insert x rest
  end.

Fixpoint sort (l : Datatypes.list A) : Datatypes.list A :=
  match l with
  | [] => []
  | x :: rest => sort_insert x (sort rest)
  end.
End Sort.

(** [eval::eval(const json::array &, const vm::opts &)], after the
    delegation to [eval_ctor]: the vector handed to [execute]. *)
Definition batch_events (pdus_ : Datatypes.list m.event) (o : opts)
    : Datatypes.list m.event :=
  let events :=
    if Nat.ltb (limit o) (List.length pdus_) then firstn (limit o) pdus_ else pdus_ in
  if negb (ordered o) then sort event_less events else events.

(** *** The parallel key fetch *)

Definition server_key : Type := (string * string)%type.

Section MfetchKeys.
(** [m::keys::cache::has]. *)
Variable cache_has : string -> string -> bool.

(** The inner loop over the [key_id]s of one server's signatures. *)
Definition miss_keys (origin : string) (signatures_ : json.object string)
    (miss : Datatypes.list server_key) : Datatypes.list server_key :=
  fold_left
    (fun miss (member : string * string) =>
       let key_id := fst member in
       if negb (cache_has origin key_id)
       then stdset.emplace stdset.pair_less (origin, key_id) miss
       else miss)
    signatures_ miss.

(** The loop over the servers that signed one event. *)
Definition miss_signatures (origin : string)
    (signatures_ : json.object (json.object string))
    (miss : Datatypes.list server_key) : Datatypes.list server_key :=
  fold_left
    (fun miss (member : string * json.object string) =>
       miss_keys origin (snd member) miss)
    signatures_ miss.

Fixpoint miss_pdus (o : opts) (pdus_ : Datatypes.list m.event)
    (miss : Datatypes.list server_key)
    : outcome (Datatypes.list server_key) :=
  match pdus_ with
  | [] => Ret miss
  | event :: rest =>
      let origin := m.origin_of event in
      if m.defined (node_id o) && negb (String.eqb (node_id o) origin)
      then miss_pdus o rest miss
      else
        match m.signatures event with
        | None => Throw (json_not_found "signatures")
        | Some signatures_ =>
            miss_pdus o rest (miss_signatures origin signatures_ miss)
        end
  end.

(** [eval::mfetch_keys].  [Ret (Some queries)]: [m::keys::fetch] was
    called with [queries]; [Ret None]: it was not called. *)
Definition mfetch_keys (e : eval)
    : outcome (option (Datatypes.list server_key)) :=
  match miss_pdus (eval_opts e) (pdus e) [] with
  | Throw x => Throw x
  | Abort => Abort
  | Diverge => Diverge
  | Ret miss =>
      match miss with
      | [] => Ret None
      | _ => Ret (Some miss)
      end
  end.
End MfetchKeys.

End vm.

(** ** The fetch unit *)

Module fetch.

(** Modelled from the spec: [ctx::promise<result>], which is not part of
    the sources at hand, as the states of a single-shot result channel: no
    future is attached to it, a future waits on it, or the future has its
    value or its exception. *)
Inductive promise_state : Type :=
| promise_invalid
| promise_pending
| promise_value
| promise_exception (e : exception).

(** Modelled from the spec: [ctx::future<result>]: empty, or sharing the
    state of the promise of the request with the given [event_id]. *)
Inductive future : Type :=
| future_invalid
| future_of (event_id : string).

(** Modelled from the spec: the members of [fetch::request], whose
    declaration is not part of the sources at hand. *)
Record request : Type := mk_request {
  room_id : string;
  event_id : string;
  bufsz : N;                     (* size_t *)
  origin : string;
  attempted : list string;       (* std::set<std::string, std::less<>> *)
  started : Z;                   (* time_t *)
  last : Z;
  finished : Z;
  eptr : option exception;       (* std::exception_ptr *)
  promise : promise_state;
  transport : option string      (* the m::v1::event base: the remote of the
                                    server request in flight *)
}.

Definition set_origin (o : string) (r : request) : request :=
  mk_request (room_id r) (event_id r) (bufsz r) o (attempted r) (started r)
             (last r) (finished r) (eptr r) (promise r) (transport r).
Definition set_attempted (a : list string) (r : request) : request :=
  mk_request (room_id r) (event_id r) (bufsz r) (origin r) a (started r)
             (last r) (finished r) (eptr r) (promise r) (transport r).
Definition set_started (t : Z) (r : request) : request :=
  mk_request (room_id r) (event_id r) (bufsz r) (origin r) (attempted r) t
             (last r) (finished r) (eptr r) (promise r) (transport r).
Definition set_last (t : Z) (r : request) : request :=
  mk_request (room_id r) (event_id r) (bufsz r) (origin r) (attempted r)
             (started r) t (finished r) (eptr r) (promise r) (transport r).
Definition set_finished (t : Z) (r : request) : request :=
  mk_request (room_id r) (event_id r) (bufsz r) (origin r) (attempted r)
             (started r) (last r) t (eptr r) (promise r) (transport r).
Definition set_eptr (e : option exception) (r : request) : request :=
  mk_request (room_id r) (event_id r) (bufsz r) (origin r) (attempted r)
             (started r) (last r) (finished r) e (promise r) (transport r).
Definition set_promise (p : promise_state) (r : request) : request :=
  mk_request (room_id r) (event_id r) (bufsz r) (origin r) (attempted r)
             (started r) (last r) (finished r) (eptr r) p (transport r).
Definition set_transport (t : option string) (r : request) : request :=
  mk_request (room_id r) (event_id r) (bufsz r) (origin r) (attempted r)
             (started r) (last r) (finished r) (eptr r) (promise r) t.

(** [request::request(room_id, event_id, bufsz)]. *)
Definition new_request (room_id_ event_id_ : string) (bufsz_ : N) : request :=
  mk_request room_id_ event_id_ bufsz_ "" [] 0 0 0 None promise_invalid None.

(** What the unit reads from the rest of the server.  What can change
    between two reads is indexed by the number of reads made so far. *)
Record env : Type := mk_env {
  my_host : string -> bool;                       (* my_host(origin) *)
  origins : string -> list string;                (* m::room::origins of a room *)
  time : nat -> Z;                                (* ircd::time() *)
  rand : nat -> nat;                              (* the random integer drawn *)
  errmsg : nat -> string -> bool;                 (* server::errmsg(origin) is set *)
  issue : nat -> string -> option exception;      (* constructing m::v1::event throws *)
  conf_check_event_id : bool;
  conf_check_conforms : bool;
  conf_check_signature : Z;                       (* conf::item<int> *)
  check_id : m.event -> bool;                     (* m::check_id *)
  claim_event_id : m.event -> string;             (* the event id m::event computes *)
  conforms_clean : m.event -> bool;               (* event::conforms::clean() *)
  conforms_string : m.event -> string;            (* event::conforms::string(buf) *)
  cache_has : string -> string -> bool;           (* m::keys::cache::has *)
  verify : m.event -> string -> bool              (* m::verify(event, server) *)
}.

(** The part of the world the unit acts on: the number of reads made, and
    the federation requests issued so far, oldest first, each as the
    remote in its options and the request as it was then. *)
Record world : Type := mk_world {
  tick : nat;
  issued : list (string * request)
}.

(** *** Functions on one request *)

Definition st : Type := (request * world)%type.
Definition M (A : Type) : Type := st -> outcome A * st.

Definition ret {A : Type} (a : A) : M A := fun s => (Ret a, s).

Definition bind {A B : Type} (c : M A) (k : A -> M B) : M B :=
  fun s =>
    match c s with
    | (Ret a, s') => k a s'
    | (Throw e, s') => (Throw e, s')
    | (Abort, s') => (Abort, s')
    | (Diverge, s') => (Diverge, s')
    end.

Definition throw {A : Type} (e : exception) : M A := fun s => (Throw e, s).

Definition assert (b : bool) : M unit :=
  fun s => if b then (Ret tt, s) else (Abort, s).

(** [try ... catch(...)] *)
Definition try_catch {A : Type} (c : M A) (handler : exception -> M A) : M A :=
  fun s =>
    match c s with
    | (Throw e, s') => handler e s'
    | other => other
    end.

Definition this_request : M request := fun s => (Ret (fst s), s).

Definition modify (f : request -> request) : M unit :=
  fun s => (Ret tt, (f (fst s), snd s)).

(** One more read of the environment. *)
Definition read : M nat :=
  fun s => (Ret (tick (snd s)),
            (fst s, mk_world (S (tick (snd s))) (issued (snd s)))).

Notation "x <- c ;; k" := (bind c (fun x => k))
  (at level 61, c at next level, right associativity).
Notation "c ;; k" := (bind c (fun _ => k))
  (at level 61, right associativity).

Section Unit.
Variable E : env.

Definition ircd_time : M Z := t <- read ;; ret (time E t).

(** [server::cancel(request)]. *)
Definition server_cancel : M unit := modify (set_transport None).

Definition select_origin (origin_ : string) : M string :=
  modify (fun r => set_attempted (stdset.emplace String.ltb origin_ (attempted r)) r) ;;
  modify (set_origin origin_) ;;
  ret origin_.

(** The test of [select_random_origin] for a viable origin, at the
    read [t] of the server pool. *)
Definition proffer (r : request) (t : nat) (origin_ : string) : bool :=
  if my_host E origin_ then false
  else if stdset.count String.ltb origin_ (attempted r) then false
  else if errmsg E t origin_ then false
  else true.

(** Modelled from the spec: [m::room::origins::random], which is not
    part of the sources at hand.  It samples one of the room's origins
    that the test accepts, and answers nothing when there is none; [n]
    is the random integer drawn. *)
Definition random (origins_ : list string) (n : nat)
    (proffer_ : string -> bool) : option string :=
  let candidates := filter proffer_ origins_ in
  nth_error candidates (Nat.modulo n (List.length candidates)).

Definition select_random_origin : M string :=
  r <- this_request ;;
  t <- read ;;
  modify (set_origin "") ;;
  match random (origins E (room_id r)) (rand E t) (proffer r t) with
  | Some origin_ =>
      select_origin origin_ ;;
      r' <- this_request ;;
      if m.defined (origin r') then ret (origin r') else throw m_NOT_FOUND
  | None => throw m_NOT_FOUND
  end.

(** The assignment of a new [m::v1::event] to the request's base, with
    the handler that cancels and rethrows. *)
Definition issue_request (remote : string) : M unit :=
  t <- read ;;
  match issue E t remote with
  | Some e => server_cancel ;; throw e
  | None =>
      modify (set_transport (Some remote)) ;;
      fun s => (Ret tt, (fst s, mk_world (tick (snd s))
                                         (issued (snd s) ++ [(remote, fst s)])))
  end.

(** [start(request &, m::v1::event::opts &)]; [remote] is [opts.remote]. *)
Definition start_opts (remote : string) : M bool :=
  try_catch
    (r <- this_request ;;
     assert (Z.eqb (finished r) 0) ;;
     (if Z.eqb (started r) 0
      then now <- ircd_time ;; modify (set_started now)
      else ret tt) ;;
     now <- ircd_time ;;
     modify (set_last now) ;;
     issue_request remote ;;
     ret true)
    (fun _ => ret false).

(** [finish(request &)] *)
Definition finish : M unit :=
  now <- ircd_time ;;
  modify (set_finished now) ;;
  r <- this_request ;;
  match promise r with
  | promise_pending =>
      match eptr r with
      | Some e =>
          modify (fun r => set_promise (promise_exception e) (set_eptr None r))
      | None => modify (set_promise promise_value)
      end
  | _ => ret tt
  end.

(** The loop [while(request.origin)] of [start(request &)]: [Ret true]
    when the body returned true, [Ret false] when the condition failed. *)
Fixpoint start_loop (bound : nat) (remote : string) : M bool :=
  fun s =>
    if m.defined (origin (fst s))
    then match bound with
         | O => (Diverge, s)
         | S bound' =>
             (issued_ <- start_opts remote ;;
              if issued_ : bool then ret true
              else (select_random_origin ;;
                    r <- this_request ;;
                    start_loop bound' (origin r))) s
         end
    else (Ret false, s).

(** [start(request &)].  Each iteration of the loop ends with the
    selection of an origin of the room not attempted before, so the loop is
    given one more iteration than the room has origins. *)
Definition start : M bool :=
  try_catch
    (r <- this_request ;;
     assert (Z.eqb (finished r) 0) ;;
     (if Z.eqb (started r) 0
      then now <- ircd_time ;; modify (set_started now)
      else ret tt) ;;
     r <- this_request ;;
     remote <- (if negb (m.defined (origin r))
                then select_random_origin ;; r <- this_request ;; ret (origin r)
                else ret "") ;;
     r <- this_request ;;
     returned <- start_loop (S (List.length (origins E (room_id r)))) remote ;;
     if returned : bool then ret true
     else (r <- this_request ;;
           assert (Z.eqb (finished r) 0) ;;
           finish ;;
           ret false))
    (fun e =>
       r <- this_request ;;
       assert (Z.eqb (finished r) 0) ;;
       modify (set_eptr (Some e)) ;;
       finish ;;
       ret false).

(** [retry(request &)] *)
Definition retry : M unit :=
  try_catch
    (r <- this_request ;;
     assert (Z.eqb (finished r) 0) ;;
     assert (negb (Z.eqb (started r) 0) && negb (Z.eqb (last r) 0)) ;;
     server_cancel ;;
     modify (set_eptr None) ;;
     modify (set_origin "") ;;
     start ;;
     ret tt)
    (fun e => modify (set_eptr (Some e)) ;; finish).

(** *** Response validation *)

Definition with_event_id (event_id_ : string) (ev : m.event) : m.event :=
  m.mk_event event_id_ (m.depth ev) (m.origin_server_ts ev) (m.origin ev)
             (m.sender ev) (m.signatures ev).

(** The block of [check_response] under [if(check_signature)]. *)
Definition check_response_signature (event : m.event) : outcome unit :=
  match (if negb (m.defined (m.origin event))
         then if m.defined (m.sender event)
              then Ret (m.host (m.sender event))
              else Throw (json_not_found "sender")
         else Ret (m.origin event)) with
  | Ret server =>
      match m.signatures event with
      | None => Throw (json_not_found "signatures")
      | Some all_signatures =>
          match json.at_ "server" all_signatures with
          | Ret signatures_ =>
              let key_id :=
                match signatures_ with
                | (first, _) :: _ => first
                | [] => ""
                end in
              if negb (m.defined key_id)
              then Throw (ircd_error ("Cannot find any keys for '" ++ server
                                      ++ "' in event.signatures")%string)
              else if cache_has E server key_id
                   then if negb (verify E event server)
                        then Throw (ircd_error "Signature verification failed.")
                        else Ret tt
                   else Ret tt
          | Throw e => Throw e
          | Abort => Abort
          | Diverge => Diverge
          end
      end
  | Throw e => Throw e
  | Abort => Abort
  | Diverge => Diverge
  end.

(** The block of [check_response] under [if(check_conforms)], with its
    assertion. *)
Definition check_response_conforms (event : m.event) : outcome unit :=
  let failures := conforms_string E event in
  if negb (m.defined failures || conforms_clean E event)
  then Abort                         (* assert(failures || conforms.clean()) *)
  else if negb (conforms_clean E event)
       then Throw (ircd_error ("Non-conforming event in response :" ++ failures)%string)
       else Ret tt.

(** [check_response(request, response)]; [response] holds the members of
    the response object.  The texts of the exceptions are the formats
    filled in. *)
Definition check_response (r : request) (response : m.event) : outcome unit :=
  let event := with_event_id (event_id r) response in
  if conf_check_event_id E && negb (check_id E event)
  then Throw (ircd_error ("event::id claim:" ++ claim_event_id E response
                          ++ " != sought:" ++ event_id r)%string)
  else
    match (if conf_check_conforms E
           then check_response_conforms event
           else Ret tt) with
    | Ret _ =>
        if negb (Z.eqb (conf_check_signature E) 0)
        then check_response_signature event
        else Ret tt
    | Throw e => Throw e
    | Abort => Abort
    | Diverge => Diverge
    end.

Definition lift {A : Type} (o : outcome A) : M A := fun s => (o, s).

(** [handle(request &)], from the response on: [response] is what
    [request.get()] and the parse of the content gave. *)
Definition handle (response : outcome m.event) : M bool :=
  try_catch
    (r <- this_request ;;
     ev <- lift response ;;
     lift (check_response r ev))
    (fun e => modify (set_eptr (Some e))) ;;
  r <- this_request ;;
  match eptr r with
  | None => finish
  | Some _ => retry
  end ;;
  r <- this_request ;;
  ret (negb (Z.eqb (finished r) 0)).

(** *** The set of requests *)

Definition request_less (a b : request) : bool :=
  String.ltb (event_id a) (event_id b).

Definition request_less_key (a : request) (b : string) : bool :=
  String.ltb (event_id a) b.

(** The element an iterator obtained for [event_id_] points to. *)
Fixpoint element (event_id_ : string) (requests : list request) : option request :=
  match requests with
  | [] => None
  | r :: rest =>
      if String.eqb (event_id r) event_id_ then Some r else element event_id_ rest
  end.

(** A write through that iterator. *)
Fixpoint assign (event_id_ : string) (r' : request) (requests : list request)
    : list request :=
  match requests with
  | [] => []
  | r :: rest =>
      if String.eqb (event_id r) event_id_ then r' :: rest
      else r :: assign event_id_ r' rest
  end.

(** [submit(event_id, room_id, bufsz)] on the set [requests].  The lock
    and the notification of the dock leave the set as it is.
    [emplace_hint] puts the new request at its place in the order, whatever
    the hint, and answers an iterator to it, which is read through
    [element]; an iterator that points to nothing is not dereferenced (the
    case [None], which does not arise). *)
Definition submit (event_id_ room_id_ : string) (bufsz_ : N)
    (requests : list request) (w : world)
    : outcome future * (list request * world) :=
  if negb (m.defined room_id_ && m.defined event_id_)
  then (Abort, (requests, w))
  else
    let it := snd (stdset.lower_bound (fun r => request_less_key r event_id_) requests) in
    match (match it with
           | found :: _ => if String.eqb (event_id found) event_id_ then Some found else None
           | [] => None
           end) with
    | Some found =>
        if String.eqb (room_id found) room_id_
        then (Ret future_invalid, (requests, w))
        else (Abort, (requests, w))
    | None =>
        let requests1 :=
          stdset.emplace request_less (new_request room_id_ event_id_ bufsz_) requests in
        match element event_id_ requests1 with
        | None => (Abort, (requests1, w))
        | Some request0 =>
            let request1 := set_promise promise_pending request0 in
            let ret_ := future_of (event_id request1) in
            match start (request1, w) with
            | (Ret _, (request2, w')) =>
                (Ret ret_, (assign event_id_ request2 requests1, w'))
            | (Throw e, (request2, w')) =>
                (Throw e, (assign event_id_ request2 requests1, w'))
            | (Abort, (request2, w')) =>
                (Abort, (assign event_id_ request2 requests1, w'))
            | (Diverge, (request2, w')) =>
                (Diverge, (assign event_id_ request2 requests1, w'))
            end
        end
    end.
End Unit.

End fetch.

(** ** The evaluation registry: scans, counts and the sort *)

Module vm_registry.

Import vm.

(** *** Scans by sequence number *)

(** The body of the loop of [seqnext]; [ret] is the pointer kept so far,
    read with the object it points to. *)
Definition seqnext_step (seq : N) (ret : option (addr * eval))
    (e : addr * eval) : option (addr * eval) :=
  if N.leb (seq_of e) seq then ret
  else match ret with
       | None => Some e
       | Some r => if N.ltb (seq_of e) (seq_of r) then Some e else ret
       end.

(** [eval::seqnext]; [Abort] is the failure of its assertion. *)
Definition seqnext (seq : N) (l : instance_list) : outcome (option addr) :=
  match fold_left (seqnext_step seq) l None with
  | None => Ret None
  | Some r => if N.ltb seq (seq_of r) then Ret (Some (fst r)) else Abort
  end.

(** [std::count_if]. *)
Fixpoint count_if {A : Type} (pred : A -> bool) (l : Datatypes.list A) : nat :=
  match l with
  | [] => 0
  | x :: rest => if pred x then S (count_if pred rest) else count_if pred rest
  end.

Definition sequnique (seq : N) (l : instance_list) : bool :=
  Nat.eqb 1 (count_if (fun e => N.eqb (seq_of e) seq) l).

(** *** Counts *)

(** [eval::count] of an event id.  The counter is a [size_t], which
    the evaluations of one address space cannot overflow. *)
Definition count (event_id_ : string) (l : instance_list) : nat :=
  fst (for_each
         (fun (ret : nat) (e : addr * eval) =>
            ((if refers event_id_ (snd e) then S ret else ret), true))
         l 0).

(** [eval::count] of a task: its live evaluations. *)
Definition count_ctx (c : ctx_t) (l : instance_list) : nat :=
  count_if (fun e : addr * eval => Nat.eqb (ctx (snd e)) c) l.

(** *** The events in evaluation *)

(** The loop over [e.pdus] in the closure of [for_each_pdu]. *)
Fixpoint for_pdus {R : Type} (closure : R -> m.event -> R * bool)
    (pdus_ : Datatypes.list m.event) (r : R) : R * bool :=
  match pdus_ with
  | [] => (r, true)
  | pdu :: rest =>
      let '(r', go_on) := closure r pdu in
      if go_on then for_pdus closure rest r' else (r', false)
  end.

(** [eval::for_each_pdu]: the events of the batch of an evaluation that
    has one, else its event body when it has one. *)
Definition for_each_pdu {R : Type} (closure : R -> m.event -> R * bool)
    (l : instance_list) (r : R) : R * bool :=
  for_each
    (fun (r : R) (e : addr * eval) =>
       match pdus (snd e) with
       | _ :: _ => for_pdus closure (pdus (snd e)) r
       | [] =>
           match event_ (snd e) with
           | Some ev => closure r ev
           | None => (r, true)
           end
       end)
    l r.

(** [eval::find_pdu(const event::id &)]; the pointer answered is read as
    the event it points to. *)
Definition find_pdu (event_id_ : string) (l : instance_list) : option m.event :=
  fst (for_each_pdu
         (fun (ret : option m.event) (event : m.event) =>
            if negb (String.eqb (m.event_id event) event_id_)
            then (ret, true)
            else (Some event, false))
         l None).

(** The loop of [eval::find_pdu(const eval &, const event::id &)]. *)
Fixpoint find_pdu_in (event_id_ : string) (pdus_ : Datatypes.list m.event)
    : option m.event :=
  match pdus_ with
  | [] => None
  | event :: rest =>
      if negb (String.eqb (m.event_id event) event_id_)
      then find_pdu_in event_id_ rest
      else Some event
  end.

Definition find_pdu_eval (e : eval) (event_id_ : string) : option m.event :=
  find_pdu_in event_id_ (pdus e).

(** *** The root of a task's evaluations *)

(** The loop [do ... while(1)] of [find_root], which asks [find_parent]
    about [a] at every turn. *)
Fixpoint find_root_loop (bound : nat) (a : addr) (c : ctx_t) (l : instance_list)
    (ret : option addr) : outcome (option addr) :=
  match bound with
  | O => Diverge
  | S bound' =>
      match find_parent a c l with
      | None => Ret ret
      | Some parent_ => find_root_loop bound' a c l (Some parent_)
      end
  end.

Definition find_root (bound : nat) (a : addr) (c : ctx_t) (l : instance_list)
    : outcome (option addr) :=
  find_root_loop bound a c l None.

(** *** The sort by sequence number *)

(** [std::list::sort] puts a list into ascending order and keeps the
    order of equivalent elements, which determines its result.  It is read
    here as the insertion of each element in front of the sorted rest,
    behind the elements that are less than it. *)
Section ListSort.
Context {A : Type} (comp : A -> A -> bool).

Fixpoint stable_insert (x : A) (l : Datatypes.list A) : Datatypes.list A :=
  match l with
  | [] => [x]
  | y :: rest => if comp y x then y :: stable_insert x rest else x :: y :: rest
  end.

Fixpoint list_sort (l : Datatypes.list A) : Datatypes.list A :=
  match l with
  | [] => []
  | x :: rest => stable_insert x (list_sort rest)
  end.
End ListSort.

(** [eval::seqsort], whose comparison is that of [seqmin]. *)
Definition seqsort (s : state) : state :=
  mk_state (list_sort seqmin_comp (list s)) (id_ctr s).

End vm_registry.

(** ** The fetch unit: the set of requests and its worker *)

Module fetch_requests.

Import fetch.

(** [operator<] of an event id and a request. *)
Definition key_less_request (a : string) (b : request) : bool :=
  String.ltb a (event_id b).

(** [std::set::count] of a key compared through the two mixed
    [operator<]: 1 when a request of that event id is there, else 0. *)
Fixpoint count_key (event_id_ : string) (requests : list request) : bool :=
  match requests with
  | [] => false
  | r :: rest =>
      if key_less_request event_id_ r then false
      else if request_less_key r event_id_ then count_key event_id_ rest
      else true
  end.

(** [fetch::exists] *)
Definition exists_ (event_id_ : string) (requests : list request) : bool :=
  count_key event_id_ requests.

(** [fetch::count] *)
Definition count (requests : list request) : nat := List.length requests.

(** [requests.erase(it)], [it] being the iterator to the request of
    [event_id_]. *)
Fixpoint erase (event_id_ : string) (requests : list request) : list request :=
  match requests with
  | [] => []
  | r :: rest =>
      if String.eqb (event_id r) event_id_ then rest
      else r :: erase event_id_ rest
  end.

(** The value a signed 64-bit integer holds of [z]: [time_t] and the
    count of [seconds] are such integers, and their sum is the sum of the
    machine, which wraps around. *)
Definition int64 (z : Z) : Z := ((z + 2 ^ 63) mod 2 ^ 64 - 2 ^ 63)%Z.

Section Worker.
Variable E : env.
(** [seconds(timeout).count()], the value of the conf item
    [ircd.m.fetch.timeout]. *)
Variable timeout : Z.

Definition timedout (r : request) (now : Z) : outcome bool :=
  if negb (Z.eqb (started r) 0) && Z.leb 0 (finished r) && negb (Z.eqb (last r) 0)
  then Ret (Z.ltb (int64 (last r + timeout)) now)
  else Abort.

(** [request_handle(it)], [it] being the iterator to the request of
    [event_id_] and [response] what [handle] receives for it.  An iterator
    that points to no request is not one the caller has. *)
Definition request_handle_it (event_id_ : string) (response : outcome m.event)
    (requests : list request) (w : world)
    : outcome unit * (list request * world) :=
  match element event_id_ requests with
  | None => (Abort, (requests, w))
  | Some request0 =>
      if negb (Z.eqb (finished request0) 0)
      then (Ret tt, (erase event_id_ requests, w))
      else
        match handle E response (request0, w) with
        | (Ret handled, (request1, w')) =>
            let requests1 := assign event_id_ request1 requests in
            if negb handled
            then (Ret tt, (requests1, w'))
            else (Ret tt, (erase event_id_ requests1, w'))
        | (Throw e, (request1, w')) =>
            (Throw e, (assign event_id_ request1 requests, w'))
        | (Abort, (request1, w')) =>
            (Abort, (assign event_id_ request1 requests, w'))
        | (Diverge, (request1, w')) =>
            (Diverge, (assign event_id_ request1 requests, w'))
        end
  end.

(** The body of the first loop of [request_cleanup]. *)
Definition cleanup_request (now : Z) : M unit :=
  r <- this_request ;;
  if Z.eqb (started r) 0
  then start E ;; ret tt
  else if Z.eqb (finished r) 0
       then (is_timedout <- lift (timedout r now) ;;
             if is_timedout : bool then retry E else ret tt)
       else ret tt.

(** The first loop of [request_cleanup]: every request in turn, each
    written through its iterator. *)
Fixpoint cleanup_loop (now : Z) (requests : list request) (w : world)
    : outcome unit * (list request * world) :=
  match requests with
  | [] => (Ret tt, ([], w))
  | r :: rest =>
      match cleanup_request now (r, w) with
      | (Ret _, (r', w')) =>
          let '(o, (rest', w'')) := cleanup_loop now rest w' in
          (o, (r' :: rest', w''))
      | (Throw e, (r', w')) => (Throw e, (r' :: rest, w'))
      | (Abort, (r', w')) => (Abort, (r' :: rest, w'))
      | (Diverge, (r', w')) => (Diverge, (r' :: rest, w'))
      end
  end.

(** The second loop of [request_cleanup]: the requests that stay, and the
    number of those erased. *)
Fixpoint erase_finished (requests : list request) : list request * nat :=
  match requests with
  | [] => ([], 0)
  | r :: rest =>
      let '(kept, ret_) := erase_finished rest in
      if negb (Z.eqb (finished r) 0) then (kept, S ret_) else (r :: kept, ret_)
  end.

(** [request_cleanup] *)
Definition request_cleanup (requests : list request) (w : world)
    : outcome nat * (list request * world) :=
  let now := time E (tick w) in
  let w1 := mk_world (S (tick w)) (issued w) in
  match cleanup_loop now requests w1 with
  | (Ret _, (requests1, w2)) =>
      let '(kept, ret_) := erase_finished requests1 in
      (Ret ret_, (kept, w2))
  | (Throw e, s') => (Throw e, s')
  | (Abort, s') => (Abort, s')
  | (Diverge, s') => (Diverge, s')
  end.
End Worker.

End fetch_requests.

(** * The order of strings *)

Module string_order.

Lemma compare_refl (a : string) : String.compare a a = Eq.
Proof.
  pose proof (String.compare_antisym a a) as H.
  destruct (String.compare a a); simpl in H; congruence.
Qed.

Lemma ltb_irrefl (a : string) : String.ltb a a = false.
Proof. unfold String.ltb. now rewrite compare_refl. Qed.

Lemma ltb_asym (a b : string) :
  String.ltb a b = true -> String.ltb b a = false.
Proof.
  unfold String.ltb. rewrite (String.compare_antisym a b).
  destruct (String.compare b a); simpl; congruence.
Qed.

Lemma ltb_total (a b : string) :
  String.ltb a b = false -> String.ltb b a = false -> a = b.
Proof.
  unfold String.ltb. rewrite (String.compare_antisym a b).
  destruct (String.compare b a) eqn:Hc; simpl; try congruence.
  intros _ _. symmetry. now apply String.compare_eq_iff.
Qed.

Lemma ltb_trans (a b c : string) :
  String.ltb a b = true -> String.ltb b c = true -> String.ltb a c = true.
Proof.
  unfold String.ltb. intros Hab Hbc.
  assert (Lab : String_as_OT.lt a b).
  { apply String_as_OT.cmp_lt. unfold String_as_OT.cmp.
    destruct (String.compare a b); congruence. }
  assert (Lbc : String_as_OT.lt b c).
  { apply String_as_OT.cmp_lt. unfold String_as_OT.cmp.
    destruct (String.compare b c); congruence. }
  pose proof (String_as_OT.lt_trans _ _ _ Lab Lbc) as Lac.
  apply String_as_OT.cmp_lt in Lac. unfold String_as_OT.cmp in Lac.
  now rewrite Lac.
Qed.

Lemma ltb_neg_trans (a b c : string) :
  String.ltb a b = false -> String.ltb b c = false -> String.ltb a c = false.
Proof.
  intros Hab Hbc. destruct (String.ltb a c) eqn:Hac; [|reflexivity].
  destruct (String.ltb b a) eqn:Hba.
  - rewrite (ltb_trans _ _ _ Hba Hac) in Hbc. discriminate.
  - rewrite (ltb_total _ _ Hab Hba) in Hac. congruence.
Qed.

Lemma leb_ltb (a b : string) : String.leb a b = negb (String.ltb b a).
Proof.
  unfold String.leb, String.ltb. rewrite (String.compare_antisym a b).
  now destruct (String.compare b a).
Qed.

End string_order.

(** * Properties of the sets *)

Module stdset_spec.

Lemma emplace_In {A : Type} (less : A -> A -> bool) x y (l : list A) :
  In y (stdset.emplace less x l) -> y = x \/ In y l.
Proof.
  induction l as [|z rest IH]; simpl.
  - intros [<-|[]]. now left.
  - destruct (less x z); [intros [<-|H]; auto|].
    destruct (less z x); [|auto].
    intros [<-|H]; [right; now left|].
    destruct (IH H); auto.
Qed.

Lemma emplace_incl {A : Type} (less : A -> A -> bool) x y (l : list A) :
  In y l -> In y (stdset.emplace less x l).
Proof.
  induction l as [|z rest IH]; simpl; [tauto|].
  destruct (less x z); [intros H; now right|].
  destruct (less z x); [|auto].
  intros [<-|H]; [now left|right; auto].
Qed.

(** Sets whose elements are ordered by a string key. *)
Section Keyed.
Context {A : Type} (key : A -> string).

Let less (a b : A) : bool := String.ltb (key a) (key b).

(** The elements are in strictly ascending order of their keys. *)
Definition sorted (l : list A) : Prop :=
  StronglySorted (fun a b => String.ltb (key a) (key b) = true) l.

Lemma sorted_nil : sorted [].
Proof. constructor. Qed.

Lemma emplace_sorted x (l : list A) :
  sorted l -> sorted (stdset.emplace less x l).
Proof.
  unfold sorted. induction l as [|z rest IH]; simpl; intros Hs.
  - repeat constructor.
  - inversion Hs as [|? ? Hrest Hall]; subst. unfold less at 1.
    destruct (String.ltb (key x) (key z)) eqn:Hxz.
    + constructor; [exact Hs|]. constructor; [exact Hxz|].
      rewrite Forall_forall in *. intros y Hy.
      exact (string_order.ltb_trans _ _ _ Hxz (Hall y Hy)).
    + unfold less at 1. destruct (String.ltb (key z) (key x)) eqn:Hzx; [|exact Hs].
      constructor; [now apply IH|].
      rewrite Forall_forall in *. intros y Hy.
      apply emplace_In in Hy. destruct Hy as [->|Hy]; auto.
Qed.

Lemma count_true x (l : list A) :
  sorted l ->
  (stdset.count less x l = true <-> exists y, In y l /\ key y = key x).
Proof.
  unfold sorted. induction l as [|z rest IH]; simpl; intros Hs.
  - split; [discriminate|]. intros (y & [] & _).
  - inversion Hs as [|? ? Hrest Hall]; subst. rewrite Forall_forall in Hall.
    unfold less at 1. destruct (String.ltb (key x) (key z)) eqn:Hxz.
    + split; [discriminate|]. intros (y & [<-|Hy] & Hk).
      * rewrite Hk, string_order.ltb_irrefl in Hxz. discriminate.
      * specialize (Hall y Hy). rewrite Hk in Hall.
        rewrite (string_order.ltb_asym _ _ Hxz) in Hall. discriminate.
    + unfold less at 1. destruct (String.ltb (key z) (key x)) eqn:Hzx.
      * rewrite (IH Hrest). split.
        -- intros (y & Hy & Hk). exists y. split; [now right|exact Hk].
        -- intros (y & [<-|Hy] & Hk).
           ++ rewrite Hk, string_order.ltb_irrefl in Hzx. discriminate.
           ++ now exists y.
      * split; [|reflexivity]. intros _. exists z. split; [now left|].
        symmetry. now apply string_order.ltb_total.
Qed.

Lemma emplace_present x (l : list A) :
  sorted l -> (exists y, In y l /\ key y = key x) ->
  stdset.emplace less x l = l.
Proof.
  unfold sorted. induction l as [|z rest IH]; simpl; intros Hs (y & Hy & Hk).
  - destruct Hy.
  - inversion Hs as [|? ? Hrest Hall]; subst. rewrite Forall_forall in Hall.
    unfold less at 1. destruct (String.ltb (key x) (key z)) eqn:Hxz.
    + exfalso. destruct Hy as [<-|Hy].
      * rewrite Hk, string_order.ltb_irrefl in Hxz. discriminate.
      * specialize (Hall y Hy). rewrite Hk in Hall.
        rewrite (string_order.ltb_asym _ _ Hxz) in Hall. discriminate.
    + unfold less at 1. destruct (String.ltb (key z) (key x)) eqn:Hzx; [|reflexivity].
      f_equal. apply IH; [exact Hrest|].
      destruct Hy as [<-|Hy].
      * rewrite Hk, string_order.ltb_irrefl in Hzx. discriminate.
      * now exists y.
Qed.

Lemma emplace_absent x (l : list A) :
  (forall y, In y l -> key y <> key x) ->
  Permutation (stdset.emplace less x l) (x :: l).
Proof.
  induction l as [|z rest IH]; simpl; intros Habs; [reflexivity|].
  unfold less at 1. destruct (String.ltb (key x) (key z)) eqn:Hxz; [reflexivity|].
  unfold less at 1. destruct (String.ltb (key z) (key x)) eqn:Hzx.
  - rewrite IH by (intros y Hy; apply Habs; now right). apply perm_swap.
  - exfalso. apply (Habs z); [now left|].
    symmetry. now apply string_order.ltb_total.
Qed.

Lemma sorted_NoDup (l : list A) : sorted l -> NoDup (map key l).
Proof.
  unfold sorted. induction l as [|z rest IH]; simpl; intros Hs; [constructor|].
  inversion Hs as [|? ? Hrest Hall]; subst. rewrite Forall_forall in Hall.
  constructor; [|now apply IH].
  intros Hin. apply in_map_iff in Hin. destruct Hin as (y & Hk & Hy).
  specialize (Hall y Hy). rewrite Hk, string_order.ltb_irrefl in Hall. discriminate.
Qed.

Lemma sorted_unique a b (l : list A) :
  sorted l -> In a l -> In b l -> key a = key b -> a = b.
Proof.
  unfold sorted. induction l as [|z rest IH]; simpl; intros Hs Ha Hb Hk; [destruct Ha|].
  inversion Hs as [|? ? Hrest Hall]; subst. rewrite Forall_forall in Hall.
  destruct Ha as [<-|Ha], Hb as [<-|Hb]; auto.
  - specialize (Hall b Hb). rewrite Hk, string_order.ltb_irrefl in Hall. discriminate.
  - specialize (Hall a Ha). rewrite Hk, string_order.ltb_irrefl in Hall. discriminate.
Qed.

(** The iterator [lower_bound] answers points to an element with the
    key sought exactly when the set has one. *)
Lemma lower_bound_key k (l : list A) :
  sorted l ->
  match snd (stdset.lower_bound (fun y => String.ltb (key y) k) l) with
  | y :: _ =>
      In y l /\
      (key y = k \/ forall z, In z l -> key z <> k)
  | [] => forall z, In z l -> key z <> k
  end.
Proof.
  unfold sorted. induction l as [|z rest IH]; simpl; intros Hs.
  - intros z [].
  - inversion Hs as [|? ? Hrest Hall]; subst. rewrite Forall_forall in Hall.
    destruct (String.ltb (key z) k) eqn:Hzk.
    + specialize (IH Hrest).
      destruct (stdset.lower_bound (fun y => String.ltb (key y) k) rest)
        as [before it]. simpl in *.
      assert (Hz : key z <> k)
        by (intros <-; rewrite string_order.ltb_irrefl in Hzk; discriminate).
      destruct it as [|y it'].
      * intros y [<-|Hy]; auto.
      * destruct IH as [Hin [Hk|Hnone]].
        -- split; [now right|now left].
        -- split; [now right|]. right. intros y' [<-|Hy']; auto.
    + simpl. split; [now left|].
      destruct (String.ltb k (key z)) eqn:Hkz.
      * right. intros y [<-|Hy].
        -- intros <-. rewrite string_order.ltb_irrefl in Hkz. discriminate.
        -- intros <-. specialize (Hall y Hy).
           rewrite (string_order.ltb_asym _ _ Hkz) in Hall. discriminate.
      * left. now apply string_order.ltb_total.
Qed.
End Keyed.

End stdset_spec.

(** * Properties of the evaluation registry *)

Module vm_spec.

Import vm.

(** ** Minimum and maximum sequence *)

Section ElementsFacts.
Context {A : Type} (comp : A -> A -> bool).
Hypothesis comp_irrefl : forall a, comp a a = false.
Hypothesis comp_trans :
  forall a b c, comp a b = true -> comp b c = true -> comp a c = true.
Hypothesis comp_neg_trans :
  forall a b c, comp a b = false -> comp b c = false -> comp a c = false.

Lemma min_scan_least (rest : Datatypes.list A) :
  forall smallest,
    In (min_scan comp smallest rest) (smallest :: rest) /\
    forall x, In x (smallest :: rest) ->
              comp x (min_scan comp smallest rest) = false.
Proof.
  induction rest as [|y rest IH]; intros smallest; simpl.
  - split; [now left|]. intros x [<-|[]]. apply comp_irrefl.
  - destruct (IH (if comp y smallest then y else smallest)) as [Hin Hle].
    split.
    + destruct Hin as [Hin|Hin]; [|now right; right].
      rewrite <- Hin. destruct (comp y smallest); auto.
    + intros x Hx.
      set (k := min_scan comp (if comp y smallest then y else smallest) rest) in *.
      assert (Hhead : comp (if comp y smallest then y else smallest) k = false)
        by (apply Hle; now left).
      destruct (comp y smallest) eqn:Hys.
      * destruct Hx as [<-|[<-|Hx]].
        -- destruct (comp smallest k) eqn:Hsk; [|reflexivity].
           rewrite (comp_trans _ _ _ Hys Hsk) in Hhead. discriminate.
        -- exact Hhead.
        -- apply Hle. now right.
      * destruct Hx as [<-|[<-|Hx]].
        -- exact Hhead.
        -- exact (comp_neg_trans _ _ _ Hys Hhead).
        -- apply Hle. now right.
Qed.

Lemma max_scan_greatest (rest : Datatypes.list A) :
  forall largest,
    In (max_scan comp largest rest) (largest :: rest) /\
    forall x, In x (largest :: rest) ->
              comp (max_scan comp largest rest) x = false.
Proof.
  induction rest as [|y rest IH]; intros largest; simpl.
  - split; [now left|]. intros x [<-|[]]. apply comp_irrefl.
  - destruct (IH (if comp largest y then y else largest)) as [Hin Hge].
    split.
    + destruct Hin as [Hin|Hin]; [|now right; right].
      rewrite <- Hin. destruct (comp largest y); auto.
    + intros x Hx.
      set (k := max_scan comp (if comp largest y then y else largest) rest) in *.
      assert (Hhead : comp k (if comp largest y then y else largest) = false)
        by (apply Hge; now left).
      destruct (comp largest y) eqn:Hly.
      * destruct Hx as [<-|[<-|Hx]].
        -- destruct (comp k largest) eqn:Hkl; [|reflexivity].
           rewrite (comp_trans _ _ _ Hkl Hly) in Hhead. discriminate.
        -- exact Hhead.
        -- apply Hge. now right.
      * destruct Hx as [<-|[<-|Hx]].
        -- exact Hhead.
        -- exact (comp_neg_trans _ _ _ Hhead Hly).
        -- apply Hge. now right.
Qed.
End ElementsFacts.

Ltac by_sequence :=
  unfold seqmin_comp, seqmax_comp; intros;
  repeat match goal with
         | H : context [N.eqb ?a ?b] |- _ => destruct (N.eqb_spec a b)
         | |- context [N.eqb ?a ?b] => destruct (N.eqb_spec a b)
         | H : context [N.ltb ?a ?b] |- _ => destruct (N.ltb_spec a b)
         | |- context [N.ltb ?a ?b] => destruct (N.ltb_spec a b)
         end;
  try discriminate; try reflexivity; try lia.

Lemma seqmin_comp_irrefl a : seqmin_comp a a = false.
Proof. by_sequence. Qed.

Lemma seqmin_comp_trans a b c :
  seqmin_comp a b = true -> seqmin_comp b c = true -> seqmin_comp a c = true.
Proof. by_sequence. Qed.

Lemma seqmin_comp_neg_trans a b c :
  seqmin_comp a b = false -> seqmin_comp b c = false -> seqmin_comp a c = false.
Proof. by_sequence. Qed.

Lemma seqmax_comp_irrefl a : seqmax_comp a a = false.
Proof. by_sequence. Qed.

Lemma seqmax_comp_trans a b c :
  seqmax_comp a b = true -> seqmax_comp b c = true -> seqmax_comp a c = true.
Proof. by_sequence. Qed.

Lemma seqmax_comp_neg_trans a b c :
  seqmax_comp a b = false -> seqmax_comp b c = false -> seqmax_comp a c = false.
Proof. by_sequence. Qed.

Lemma seqmin_cases (l : instance_list) :
  match seqmin l with
  | Some a =>
      exists e, In (a, e) l /\ (0 < sequence e)%N /\
                forall x, In x l -> (0 < seq_of x)%N -> (sequence e <= seq_of x)%N
  | None => forall x, In x l -> seq_of x = 0%N
  end.
Proof.
  unfold seqmin. destruct l as [|x rest]; simpl.
  - intros x [].
  - destruct (min_scan_least seqmin_comp seqmin_comp_irrefl seqmin_comp_trans
                seqmin_comp_neg_trans rest x) as [Hin Hle].
    set (k := min_scan seqmin_comp x rest) in *.
    destruct (N.eqb_spec (seq_of k) 0) as [Hz|Hnz].
    + intros y Hy. specialize (Hle y Hy). revert Hle. by_sequence.
    + exists (snd k). rewrite <- surjective_pairing.
      split; [exact Hin|]. fold (seq_of k). split; [lia|].
      intros y Hy Hpos. specialize (Hle y Hy). revert Hle. by_sequence.
Qed.

Lemma seqmax_cases (l : instance_list) :
  match seqmax l with
  | Some a =>
      exists e, In (a, e) l /\ (0 < sequence e)%N /\
                forall x, In x l -> (seq_of x <= sequence e)%N
  | None => forall x, In x l -> seq_of x = 0%N
  end.
Proof.
  unfold seqmax. destruct l as [|x rest]; simpl.
  - intros x [].
  - destruct (max_scan_greatest seqmax_comp seqmax_comp_irrefl seqmax_comp_trans
                seqmax_comp_neg_trans rest x) as [Hin Hge].
    set (k := max_scan seqmax_comp x rest) in *.
    destruct (N.eqb_spec (seq_of k) 0) as [Hz|Hnz].
    + intros y Hy. specialize (Hge y Hy). revert Hge. by_sequence.
    + exists (snd k). rewrite <- surjective_pairing.
      split; [exact Hin|]. fold (seq_of k). split; [lia|].
      intros y Hy. specialize (Hge y Hy). revert Hge. by_sequence.
Qed.

(** C6.  [seqmin] answers a live evaluation whose sequence is positive and
    the smallest of the positive sequences on the list, and [seqmax] a
    live evaluation whose sequence is positive and the largest on the
    list; each answers nothing exactly when no live evaluation has a
    positive sequence. *)
Theorem seqmin_seqmax_spec (l : instance_list) :
  ((forall x, In x l -> seq_of x = 0%N) -> seqmin l = None /\ seqmax l = None) /\
  ((exists x, In x l /\ (0 < seq_of x)%N) ->
   (exists a e, seqmin l = Some a /\ In (a, e) l /\ (0 < sequence e)%N /\
                forall x, In x l -> (0 < seq_of x)%N -> (sequence e <= seq_of x)%N) /\
   (exists a e, seqmax l = Some a /\ In (a, e) l /\ (0 < sequence e)%N /\
                forall x, In x l -> (seq_of x <= sequence e)%N)).
Proof.
  pose proof (seqmin_cases l) as Hmin.
  pose proof (seqmax_cases l) as Hmax.
  split.
  - intros Hzero. split.
    + destruct (seqmin l) as [a|]; [|reflexivity].
      destruct Hmin as (e & Hin & Hpos & _).
      specialize (Hzero _ Hin). unfold seq_of in Hzero. simpl in Hzero. lia.
    + destruct (seqmax l) as [a|]; [|reflexivity].
      destruct Hmax as (e & Hin & Hpos & _).
      specialize (Hzero _ Hin). unfold seq_of in Hzero. simpl in Hzero. lia.
  - intros (x & Hx & Hpos). split.
    + destruct (seqmin l) as [a|].
      * destruct Hmin as (e & He). exists a, e. split; [reflexivity|exact He].
      * specialize (Hmin _ Hx). lia.
    + destruct (seqmax l) as [a|].
      * destruct Hmax as (e & He). exists a, e. split; [reflexivity|exact He].
      * specialize (Hmax _ Hx). lia.
Qed.

(** Three evaluations, the first not yet sequenced. *)
Definition sequenced (a : addr) (seq : N) : addr * eval :=
  (a, mk_eval (mk_opts 0 false "") 0 (N.of_nat a) seq [] None None "" None None).

Definition three_evals : instance_list :=
  [sequenced 1 0; sequenced 2 7; sequenced 3 5].

(** C6 at the three evaluations, the second of which is sequenced. *)
Lemma seqmin_seqmax_witness :
  (exists a e, seqmin three_evals = Some a /\ In (a, e) three_evals /\
               (0 < sequence e)%N /\
               forall x, In x three_evals -> (0 < seq_of x)%N ->
                         (sequence e <= seq_of x)%N) /\
  (exists a e, seqmax three_evals = Some a /\ In (a, e) three_evals /\
               (0 < sequence e)%N /\
               forall x, In x three_evals -> (seq_of x <= sequence e)%N).
Proof.
  apply (proj2 (seqmin_seqmax_spec three_evals)).
  exists (sequenced 2 7). split; [right; left; reflexivity|reflexivity].
Defined.

Example seqmin_seqmax_three :
  seqmin three_evals = Some 3 /\ seqmax three_evals = Some 2 /\
  seqmin [sequenced 1 0] = None /\ seqmax [sequenced 1 0] = None.
Proof. repeat split. Qed.


(** ** Lookup by event id *)

(** The three ways the specification lets an evaluation refer to an event
    id, as a plain disjunction. *)
Definition spec_refers (event_id_ : string) (e : eval) : Prop :=
  (exists ev, event_ e = Some ev /\ m.event_id ev = event_id_) \/
  (exists iov, issue e = Some iov /\ json.find "event_id" iov = Some event_id_) \/
  event_id e = event_id_.

(** The three ways in the order of precedence of the code: the event body
    when there is one, else the injection payload when there is one, else
    the shortcut member. *)
Definition refers_by_precedence (event_id_ : string) (e : eval) : Prop :=
  match event_ e with
  | Some ev => m.event_id ev = event_id_
  | None =>
      match issue e with
      | Some iov => json.find "event_id" iov = Some event_id_
      | None => event_id e = event_id_
      end
  end.

Lemma refers_iff event_id_ e :
  refers event_id_ e = true <-> refers_by_precedence event_id_ e.
Proof.
  unfold refers, refers_by_precedence, json.has.
  destruct (event_ e) as [ev|].
  - apply String.eqb_eq.
  - destruct (issue e) as [iov|].
    + destruct (json.find "event_id" iov) as [v|].
      * rewrite String.eqb_eq. split; [now intros ->|now intros [= ->]].
      * split; discriminate.
    + apply String.eqb_eq.
Qed.

Lemma refers_by_precedence_disjunction event_id_ e :
  refers_by_precedence event_id_ e -> spec_refers event_id_ e.
Proof.
  unfold refers_by_precedence, spec_refers.
  destruct (event_ e) as [ev|].
  - intros H. left. now exists ev.
  - destruct (issue e) as [iov|].
    + intros H. right. left. now exists iov.
    + intros H. now right; right.
Qed.

Lemma find_cons event_id_ a e rest :
  find event_id_ ((a, e) :: rest) =
  if refers event_id_ e then Some a else find event_id_ rest.
Proof.
  unfold find. simpl. destruct (refers event_id_ e); reflexivity.
Qed.

Lemma find_first event_id_ (l : instance_list) :
  match find event_id_ l with
  | Some a =>
      exists e before after,
        l = before ++ (a, e) :: after /\
        refers event_id_ e = true /\
        forall x, In x before -> refers event_id_ (snd x) = false
  | None => forall x, In x l -> refers event_id_ (snd x) = false
  end.
Proof.
  induction l as [|[a e] rest IH].
  - intros x [].
  - rewrite find_cons. destruct (refers event_id_ e) eqn:He.
    + exists e, [], rest. repeat split; auto. intros x [].
    + destruct (find event_id_ rest) as [b|].
      * destruct IH as (e' & before & after & -> & Hr & Hb).
        exists e', ((a, e) :: before), after. repeat split; auto.
        intros x [<-|Hx]; auto.
      * intros x [<-|Hx]; auto.
Qed.

(** An evaluation at work on the event [$A] that was told of [$B] in its
    shortcut member. *)
Definition eval_A_B : eval :=
  mk_eval (mk_opts 0 false "") 0 1 0 [] None
          (Some (m.mk_event "$A" 0 0 "" "" None)) "$B" None None.

(** C7, as stated, fails: an evaluation whose event body is there and has
    another id is not found by the id in its shortcut member, the third
    way of the disjunction. *)
Lemma find_disjunction_counterexample :
  find "$B" [(0, eval_A_B)] = None /\
  (exists a e, In (a, e) [(0, eval_A_B)] /\ spec_refers "$B" e).
Proof.
  split; [reflexivity|].
  exists 0, eval_A_B. split; [now left|]. right; right. reflexivity.
Qed.

(** C7, amended.  [find] answers an evaluation exactly when some live
    evaluation refers to the event id by precedence: by its event body
    when it has one, else by the [event_id] member of its injection
    payload when it has one, else by its shortcut member.  The evaluation
    answered is the first such on the list, and it refers to the id in one
    of the three ways. *)
Theorem find_spec (event_id_ : string) (l : instance_list) :
  (find event_id_ l <> None <->
   exists a e, In (a, e) l /\ refers_by_precedence event_id_ e) /\
  (forall a, find event_id_ l = Some a ->
     exists e before after,
       l = before ++ (a, e) :: after /\
       refers_by_precedence event_id_ e /\
       spec_refers event_id_ e /\
       forall x, In x before -> ~ refers_by_precedence event_id_ (snd x)).
Proof.
  pose proof (find_first event_id_ l) as H.
  split; [split|].
  - destruct (find event_id_ l) as [a|]; [|congruence].
    intros _. destruct H as (e & before & after & -> & Hr & _).
    exists a, e. split; [apply in_elt|now apply refers_iff].
  - intros (a & e & Hin & Hr). destruct (find event_id_ l); [discriminate|].
    apply refers_iff in Hr. specialize (H _ Hin). simpl in H. congruence.
  - intros a Ha. rewrite Ha in H.
    destruct H as (e & before & after & -> & Hr & Hb).
    apply refers_iff in Hr.
    exists e, before, after. repeat split; auto.
    + now apply refers_by_precedence_disjunction.
    + intros x Hx Hrx. apply refers_iff in Hrx.
      rewrite (Hb _ Hx) in Hrx. discriminate.
Qed.

(** C10.  [get] throws [std::out_of_range] exactly when [find] answers
    nothing, that is when no live evaluation refers to the event id;
    otherwise it returns the evaluation [find] answers; and the registry
    is the same after the call. *)
Theorem get_spec (event_id_ : string) (s : state) :
  snd (get event_id_ s) = s /\
  (find event_id_ (list s) = None <->
   exists what, fst (get event_id_ s) = Throw (std_out_of_range what)) /\
  (find event_id_ (list s) = None <->
   forall x, In x (list s) -> refers event_id_ (snd x) = false) /\
  (forall a, find event_id_ (list s) = Some a <-> fst (get event_id_ s) = Ret a).
Proof.
  pose proof (find_first event_id_ (list s)) as H.
  unfold get. destruct (find event_id_ (list s)) as [a|]; simpl.
  - repeat split; try discriminate.
    + intros (what & Hw). discriminate.
    + intros Hall. destruct H as (e & before & after & Hl & Hr & _).
      rewrite Hl in Hall. specialize (Hall (a, e) (in_elt _ _ _)).
      simpl in Hall. congruence.
    + congruence.
    + congruence.
  - repeat split; try discriminate; auto.
    eexists. reflexivity.
Qed.

(** ** Parent and child *)

(** Every live evaluation with a child is the parent of that child, which
    is live; and no address is on the list twice. *)
Definition child_parent_inv (l : instance_list) : Prop :=
  NoDup (map fst l) /\
  forall a e c, lookup a l = Some e -> child e = Some c ->
                exists ce, lookup c l = Some ce /\ parent ce = Some a.

Lemma lookup_None a (l : instance_list) :
  lookup a l = None <-> ~ In a (map fst l).
Proof.
  induction l as [|[b e] rest IH]; simpl.
  - tauto.
  - destruct (Nat.eqb_spec a b) as [->|Hne].
    + split; [discriminate|]. intros H. exfalso. apply H. now left.
    + rewrite IH. split; [intros H [Hb|Hin]; auto|intros H Hin; apply H; now right].
Qed.

Lemma lookup_In a e (l : instance_list) :
  NoDup (map fst l) -> (In (a, e) l <-> lookup a l = Some e).
Proof.
  induction l as [|[b e'] rest IH]; simpl; intros Hnd.
  - split; [intros []|discriminate].
  - inversion Hnd as [|? ? Hnotin Hnd']; subst.
    destruct (Nat.eqb_spec a b) as [->|Hne].
    + split.
      * intros [[= ->]|Hin]; [reflexivity|].
        exfalso. apply Hnotin. now apply (in_map fst) in Hin.
      * intros [= ->]. now left.
    + rewrite <- (IH Hnd'). split.
      * intros [[= -> ->]|Hin]; [congruence|exact Hin].
      * intros Hin. now right.
Qed.

Lemma lookup_app a this self (l : instance_list) :
  lookup this l = None ->
  lookup a (l ++ [(this, self)]) = if Nat.eqb a this then Some self else lookup a l.
Proof.
  induction l as [|[b e] rest IH]; simpl; intros Hnone.
  - reflexivity.
  - destruct (Nat.eqb_spec this b) as [->|Hne]; [discriminate|].
    destruct (Nat.eqb_spec a b) as [->|Hab].
    + destruct (Nat.eqb_spec b this); [congruence|reflexivity].
    + now apply IH.
Qed.

Lemma lookup_update a b f (l : instance_list) :
  lookup a (update b f l) =
  if Nat.eqb a b then option_map f (lookup a l) else lookup a l.
Proof.
  induction l as [|[x e] rest IH]; simpl.
  - now destruct (Nat.eqb a b).
  - destruct (Nat.eqb_spec b x) as [->|Hbx]; simpl.
    + destruct (Nat.eqb_spec a x) as [->|Hax]; reflexivity.
    + destruct (Nat.eqb_spec a x) as [->|Hax].
      * destruct (Nat.eqb_spec x b); [congruence|reflexivity].
      * exact IH.
Qed.

Lemma map_fst_update b f (l : instance_list) :
  map fst (update b f l) = map fst l.
Proof.
  induction l as [|[x e] rest IH]; simpl; [reflexivity|].
  destruct (Nat.eqb b x); simpl; congruence.
Qed.

Lemma In_map_fst_remove a b (l : instance_list) :
  In a (map fst (remove b l)) -> In a (map fst l).
Proof.
  induction l as [|[x e] rest IH]; simpl; [tauto|].
  destruct (Nat.eqb b x); simpl; [now right|]. intros [H|H]; auto.
Qed.

Lemma NoDup_remove b (l : instance_list) :
  NoDup (map fst l) -> NoDup (map fst (remove b l)).
Proof.
  induction l as [|[x e] rest IH]; simpl; intros Hnd; [constructor|].
  inversion Hnd as [|? ? Hnotin Hnd']; subst.
  destruct (Nat.eqb b x); simpl; [exact Hnd'|].
  constructor; [|now apply IH].
  intros Hin. apply Hnotin. now apply In_map_fst_remove in Hin.
Qed.

Lemma lookup_remove a b (l : instance_list) :
  NoDup (map fst l) ->
  lookup a (remove b l) = if Nat.eqb a b then None else lookup a l.
Proof.
  induction l as [|[x e] rest IH]; simpl; intros Hnd.
  - now destruct (Nat.eqb a b).
  - inversion Hnd as [|? ? Hnotin Hnd']; subst.
    destruct (Nat.eqb_spec b x) as [->|Hbx]; simpl.
    + destruct (Nat.eqb_spec a x) as [->|Hax]; [|reflexivity].
      now apply lookup_None.
    + destruct (Nat.eqb_spec a x) as [->|Hax].
      * destruct (Nat.eqb_spec x b); [congruence|reflexivity].
      * now apply IH.
Qed.

Lemma NoDup_snoc {A : Type} (a : A) (l : Datatypes.list A) :
  NoDup l -> ~ In a l -> NoDup (l ++ [a]).
Proof.
  induction l as [|x rest IH]; simpl; intros Hnd Hnotin.
  - constructor; [intros []|constructor].
  - inversion Hnd as [|? ? Hx Hnd']; subst. constructor.
    + rewrite in_app_iff. simpl. intros [H|[H|[]]]; [now apply Hx|].
      apply Hnotin. now left.
    + apply IH; [exact Hnd'|]. intros H. apply Hnotin. now right.
Qed.

(** What the closure of [find_parent] keeps is an evaluation other than
    [a], and one on the list. *)
Lemma find_parent_scan a c (l : instance_list) :
  forall ret r,
    fst (for_each_ctx c (find_parent_closure a) l ret) = Some r ->
    (ret = Some r \/ (In r l /\ fst r <> a)).
Proof.
  induction l as [|e rest IH]; simpl; intros ret r H.
  - now left.
  - destruct (Nat.eqb (ctx (snd e)) c).
    + unfold find_parent_closure in H at 1.
      destruct (Nat.eqb_spec (fst e) a) as [Hea|Hea]; simpl in H.
      * destruct (IH _ _ H) as [Hr|[Hin Hne]]; [now left|right; auto].
      * destruct (IH _ _ H) as [Hr|[Hin Hne]]; [|right; auto].
        destruct ret as [r0|].
        -- destruct (N.ltb (id (snd r0)) (id (snd e))).
           ++ injection Hr as <-. right. auto.
           ++ now left.
        -- injection Hr as <-. right. auto.
    + destruct (IH _ _ H) as [Hr|[Hin Hne]]; [now left|right; auto].
Qed.

Lemma find_parent_live a c (l : instance_list) p :
  find_parent a c l = Some p -> p <> a /\ exists e, In (p, e) l.
Proof.
  unfold find_parent. intros H.
  destruct (fst (for_each_ctx c (find_parent_closure a) l None))
    as [[p' e]|] eqn:Hscan; [|discriminate].
  injection H as <-.
  apply find_parent_scan in Hscan. destruct Hscan as [Hr|[Hin Hne]]; [discriminate|].
  split; [exact Hne|]. now exists e.
Qed.

Lemma find_parent_scan_app a c self (l : instance_list) :
  forall ret,
    fst (for_each_ctx c (find_parent_closure a) (l ++ [(a, self)]) ret) =
    fst (for_each_ctx c (find_parent_closure a) l ret).
Proof.
  induction l as [|e rest IH]; simpl; intros ret.
  - destruct (Nat.eqb (ctx self) c); [|reflexivity].
    unfold find_parent_closure. simpl. now rewrite Nat.eqb_refl.
  - destruct (Nat.eqb (ctx (snd e)) c); [|apply IH].
    destruct (find_parent_closure a ret e) as [r' go_on] eqn:Hcl.
    unfold find_parent_closure in Hcl. injection Hcl as <- <-. apply IH.
Qed.

Lemma find_parent_app_self a c self (l : instance_list) :
  find_parent a c (l ++ [(a, self)]) = find_parent a c l.
Proof. unfold find_parent. now rewrite find_parent_scan_app. Qed.

Ltac by_address :=
  repeat match goal with
         | H : context [Nat.eqb ?a ?b] |- _ => destruct (Nat.eqb_spec a b); subst
         | |- context [Nat.eqb ?a ?b] => destruct (Nat.eqb_spec a b); subst
         end;
  simpl in *; try congruence.

(** The constructor keeps the invariant; the new evaluation has no child
    and the parent [find_parent] gave; that parent had no child before
    and has the new evaluation as its child after. *)
Lemma eval_ctor_inv this cur o s s' :
  child_parent_inv (list s) ->
  eval_ctor this cur o s = Some s' ->
  child_parent_inv (list s') /\
  lookup this (list s) = None /\
  (exists self,
     lookup this (list s') = Some self /\
     child self = None /\
     parent self = find_parent this cur (list s)) /\
  (forall p, find_parent this cur (list s) = Some p ->
     (exists pe, lookup p (list s) = Some pe /\ child pe = None) /\
     (exists pe', lookup p (list s') = Some pe' /\ child pe' = Some this)).
Proof.
  intros [Hnd Hinv] Hctor. unfold eval_ctor, instance_list_ctor in Hctor.
  destruct (lookup this (list s)) eqn:Hfresh; [discriminate|].
  rewrite find_parent_app_self in Hctor.
  set (id' := N.modulo (id_ctr s + 1) uint64_modulus) in *.
  set (self := mk_eval o cur id' 0 [] None None "" None None) in *.
  set (par := find_parent this cur (list s)) in *.
  set (l2 := update this (set_parent par) (list s ++ [(this, self)])) in *.
  assert (Hl2 : forall a, lookup a l2 =
                          if Nat.eqb a this then Some (set_parent par self)
                          else lookup a (list s)).
  { intros a. unfold l2. rewrite lookup_update, lookup_app by exact Hfresh.
    destruct (Nat.eqb a this); reflexivity. }
  assert (Hnd2 : NoDup (map fst l2)).
  { unfold l2. rewrite map_fst_update, map_app. simpl.
    apply NoDup_snoc; [exact Hnd|]. now apply lookup_None. }
  destruct par as [p|] eqn:Hpar.
  - destruct (find_parent_live _ _ _ _ Hpar) as [Hpne [pe0 Hp0]].
    apply (lookup_In _ _ _ Hnd) in Hp0.
    assert (Hp2 : lookup p l2 = Some pe0).
    { rewrite Hl2. destruct (Nat.eqb_spec p this); congruence. }
    rewrite Hp2 in Hctor.
    destruct (child pe0) eqn:Hchild0; [discriminate|].
    injection Hctor as <-. simpl.
    assert (Hl3 : forall a, lookup a (update p (set_child (Some this)) l2) =
                            if Nat.eqb a p then Some (set_child (Some this) pe0)
                            else lookup a l2).
    { intros a. rewrite lookup_update.
      destruct (Nat.eqb_spec a p) as [->|]; [now rewrite Hp2|reflexivity]. }
    repeat split.
    + now rewrite map_fst_update.
    + intros a e c Ha Hc. rewrite Hl3 in Ha. rewrite Hl3.
      destruct (Nat.eqb_spec a p) as [->|Hap].
      * injection Ha as <-. simpl in Hc. injection Hc as <-.
        destruct (Nat.eqb_spec this p); [congruence|].
        rewrite Hl2, Nat.eqb_refl. eexists. split; reflexivity.
      * rewrite Hl2 in Ha. destruct (Nat.eqb_spec a this) as [->|Hat].
        -- injection Ha as <-. discriminate.
        -- destruct (Hinv _ _ _ Ha Hc) as (ce & Hce & Hpce).
           destruct (Nat.eqb_spec c p) as [->|Hcp].
           ++ eexists. split; [reflexivity|]. simpl. congruence.
           ++ rewrite Hl2. destruct (Nat.eqb_spec c this); [congruence|].
              now exists ce.
    + exists (set_parent (Some p) self). rewrite Hl3, Hl2, Nat.eqb_refl.
      destruct (Nat.eqb_spec this p); [congruence|]. repeat split.
    + injection H as <-. now exists pe0.
    + injection H as <-. rewrite Hl3, Nat.eqb_refl. eexists. split; reflexivity.
  - injection Hctor as <-. simpl. repeat split.
    + exact Hnd2.
    + intros a e c Ha Hc. rewrite Hl2 in Ha. rewrite Hl2.
      destruct (Nat.eqb_spec a this) as [->|Hat].
      * injection Ha as <-. discriminate.
      * destruct (Hinv _ _ _ Ha Hc) as (ce & Hce & Hpce).
        destruct (Nat.eqb_spec c this); [congruence|]. now exists ce.
    + exists (set_parent None self). rewrite Hl2, Nat.eqb_refl. repeat split.
    + discriminate.
    + discriminate.
Qed.

(** The destructor keeps the invariant; the evaluation destroyed had no
    child and is no longer live; its parent has no child after. *)
Lemma eval_dtor_inv this s s' :
  child_parent_inv (list s) ->
  eval_dtor this s = Some s' ->
  child_parent_inv (list s') /\
  lookup this (list s') = None /\
  exists e,
    lookup this (list s) = Some e /\
    child e = None /\
    forall p, parent e = Some p ->
      (exists pe, lookup p (list s) = Some pe /\ child pe = Some this) /\
      (exists pe', lookup p (list s') = Some pe' /\ child pe' = None).
Proof.
  intros [Hnd Hinv] Hdtor. unfold eval_dtor, instance_list_dtor in Hdtor.
  destruct (lookup this (list s)) as [e|] eqn:Hthis; [|discriminate].
  destruct (child e) eqn:Hchild; [discriminate|].
  destruct (parent e) as [p|] eqn:Hparent.
  - destruct (lookup p (list s)) as [pe|] eqn:Hp; [|discriminate].
    destruct (child pe) as [c|] eqn:Hpc; [|discriminate].
    destruct (Nat.eqb_spec c this) as [->|]; [|discriminate].
    injection Hdtor as <-. simpl.
    assert (Hpne : p <> this) by (intros ->; congruence).
    assert (Hnd' : NoDup (map fst (update p (set_child None) (list s))))
      by now rewrite map_fst_update.
    assert (Hl' : forall a,
               lookup a (remove this (update p (set_child None) (list s))) =
               if Nat.eqb a this then None
               else if Nat.eqb a p then Some (set_child None pe)
                    else lookup a (list s)).
    { intros a. rewrite lookup_remove by exact Hnd'. rewrite lookup_update.
      destruct (Nat.eqb a this); [reflexivity|].
      destruct (Nat.eqb_spec a p) as [->|]; [now rewrite Hp|reflexivity]. }
    repeat split.
    + now apply NoDup_remove.
    + intros a x c Ha Hc. rewrite Hl' in Ha. rewrite Hl'.
      destruct (Nat.eqb_spec a this) as [->|Hat]; [discriminate|].
      destruct (Nat.eqb_spec a p) as [->|Hap].
      * injection Ha as <-. discriminate.
      * destruct (Hinv _ _ _ Ha Hc) as (ce & Hce & Hpce).
        destruct (Nat.eqb_spec c this) as [->|Hct]; [congruence|].
        destruct (Nat.eqb_spec c p) as [->|Hcp].
        -- eexists. split; [reflexivity|]. simpl. congruence.
        -- now exists ce.
    + now rewrite Hl', Nat.eqb_refl.
    + exists e. split; [reflexivity|]. split; [exact Hchild|].
      intros p0 Hp0. rewrite Hparent in Hp0. injection Hp0 as <-. split.
      * now exists pe.
      * rewrite Hl', Nat.eqb_refl.
        destruct (Nat.eqb_spec p this); [congruence|].
        eexists. split; reflexivity.
  - injection Hdtor as <-. simpl.
    assert (Hl' : forall a, lookup a (remove this (list s)) =
                            if Nat.eqb a this then None else lookup a (list s))
      by (intros a; now apply lookup_remove).
    repeat split.
    + now apply NoDup_remove.
    + intros a x c Ha Hc. rewrite Hl' in Ha. rewrite Hl'.
      destruct (Nat.eqb_spec a this) as [->|Hat]; [discriminate|].
      destruct (Hinv _ _ _ Ha Hc) as (ce & Hce & Hpce).
      destruct (Nat.eqb_spec c this) as [->|Hct]; [congruence|].
      now exists ce.
    + now rewrite Hl', Nat.eqb_refl.
    + exists e. split; [reflexivity|]. split; [exact Hchild|].
      intros p0 Hp0. congruence.
Qed.

Lemma step_inv s o s' :
  child_parent_inv (list s) -> step s o = Some s' -> child_parent_inv (list s').
Proof.
  destruct o as [this cur o|this]; simpl; intros Hinv Hstep.
  - now destruct (eval_ctor_inv _ _ _ _ _ Hinv Hstep).
  - now destruct (eval_dtor_inv _ _ _ Hinv Hstep).
Qed.

Lemma run_inv ops :
  forall s s', child_parent_inv (list s) -> run ops s = Some s' ->
               child_parent_inv (list s').
Proof.
  induction ops as [|o rest IH]; simpl; intros s s' Hinv Hrun.
  - now injection Hrun as <-.
  - destruct (step s o) as [s1|] eqn:Hstep; [|discriminate].
    eapply IH; [|exact Hrun]. eapply step_inv; eassumption.
Qed.

Lemma init_inv : child_parent_inv (list init).
Proof. split; [constructor|]. intros a e c H. discriminate. Qed.

(** Two tasks: task 7 nests three evaluations and releases them innermost
    first, task 8 holds one. *)
Definition nested_ops : Datatypes.list op :=
  [Construct 10 7 (mk_opts 0 false ""); Construct 20 8 (mk_opts 0 false "");
   Construct 11 7 (mk_opts 0 false ""); Construct 12 7 (mk_opts 0 false "");
   Destruct 12; Destruct 11].

Example nested_run :
  option_map (fun s => map (fun x => (fst x, parent (snd x), child (snd x))) (list s))
             (run nested_ops init)
  = Some [(10, None, None); (20, None, None)]
  /\ option_map (fun s => map (fun x => (fst x, parent (snd x), child (snd x))) (list s))
                (run (firstn 4 nested_ops) init)
     = Some [(10, None, Some 11); (20, None, None);
             (11, Some 10, Some 12); (12, Some 11, None)]
  /\ run (firstn 4 nested_ops ++ [Destruct 11]) init = None.
Proof. repeat split. Qed.

(** The registry of task 7 and task 8 with the three evaluations nested. *)
Definition nested_state : state :=
  match run (firstn 4 nested_ops) init with
  | Some s => s
  | None => init
  end.

(** ** The batch constructor *)

Section SortFacts.
Context {A : Type} (less : A -> A -> bool).
Hypothesis less_asym : forall a b, less a b = true -> less b a = false.

Let le (a b : A) : Prop := less b a = false.

Lemma sort_insert_perm x (l : Datatypes.list A) :
  Permutation (sort_insert less x l) (x :: l).
Proof.
  induction l as [|y rest IH]; simpl; [reflexivity|].
  destruct (less x y); [reflexivity|].
  rewrite IH. apply perm_swap.
Qed.

Lemma sort_perm (l : Datatypes.list A) : Permutation (sort less l) l.
Proof.
  induction l as [|x rest IH]; simpl; [reflexivity|].
  rewrite sort_insert_perm. now apply perm_skip.
Qed.

Lemma sort_insert_hd x y (l : Datatypes.list A) :
  le y x -> HdRel le y l -> HdRel le y (sort_insert less x l).
Proof.
  intros Hyx Hhd. destruct l as [|z rest]; simpl.
  - now constructor.
  - destruct (less x z); constructor; [exact Hyx|].
    now inversion Hhd.
Qed.

Lemma sort_insert_sorted x (l : Datatypes.list A) :
  Sorted le l -> Sorted le (sort_insert less x l).
Proof.
  induction l as [|y rest IH]; simpl; intros Hs.
  - repeat constructor.
  - inversion Hs as [|? ? Hrest Hhd]; subst.
    destruct (less x y) eqn:Hxy.
    + constructor; [exact Hs|]. constructor. now apply less_asym.
    + constructor; [now apply IH|]. now apply sort_insert_hd.
Qed.

Lemma sort_sorted (l : Datatypes.list A) : Sorted le (sort less l).
Proof.
  induction l as [|x rest IH]; simpl; [constructor|].
  now apply sort_insert_sorted.
Qed.
End SortFacts.

(** The order of the specification: by [depth], ties by
    [origin_server_ts], then by [event_id]. *)
Definition spec_order (a b : m.event) : Prop :=
  (m.depth a < m.depth b)%Z \/
  (m.depth a = m.depth b /\
   ((m.origin_server_ts a < m.origin_server_ts b)%Z \/
    (m.origin_server_ts a = m.origin_server_ts b /\
     String.leb (m.event_id a) (m.event_id b) = true))).

Lemma event_less_asym a b : event_less a b = true -> event_less b a = false.
Proof.
  unfold event_less.
  destruct (Z.ltb_spec (m.depth a) (m.depth b)),
           (Z.ltb_spec (m.depth b) (m.depth a)); try lia; try congruence.
  destruct (Z.ltb_spec (m.origin_server_ts a) (m.origin_server_ts b)),
           (Z.ltb_spec (m.origin_server_ts b) (m.origin_server_ts a));
    try lia; try congruence.
  apply string_order.ltb_asym.
Qed.

Lemma event_less_spec_order a b : event_less b a = false <-> spec_order a b.
Proof.
  unfold event_less, spec_order. rewrite string_order.leb_ltb.
  destruct (Z.ltb_spec (m.depth b) (m.depth a)),
           (Z.ltb_spec (m.depth a) (m.depth b));
    try (split; [discriminate|lia]); try (split; [lia|reflexivity]); try lia.
  destruct (Z.ltb_spec (m.origin_server_ts b) (m.origin_server_ts a)),
           (Z.ltb_spec (m.origin_server_ts a) (m.origin_server_ts b));
    try (split; [discriminate|lia]); try (split; [lia|reflexivity]); try lia.
  destruct (String.ltb (m.event_id b) (m.event_id a)); simpl.
  - split; [discriminate|]. intros [?|[_ [?|[_ ?]]]]; try lia; discriminate.
  - split; [|reflexivity]. intros _. right. split; [lia|]. right. split; [lia|reflexivity].
Qed.

Lemma spec_order_trans a b c : spec_order a b -> spec_order b c -> spec_order a c.
Proof.
  unfold spec_order. rewrite !string_order.leb_ltb.
  intros [?|[? [?|[? Hab]]]] [?|[? [?|[? Hbc]]]]; try lia;
    try (right; split; [lia|]; left; lia).
  right. split; [lia|]. right. split; [lia|].
  apply Bool.negb_true_iff in Hab, Hbc. apply Bool.negb_true_iff.
  exact (string_order.ltb_neg_trans _ _ _ Hbc Hab).
Qed.

(** C5.  Without [opts.ordered], the events of a batch are processed in
    ascending order of [depth], then [origin_server_ts], then [event_id]:
    each one is in that order with every one after it.  The events
    processed are the first [opts.limit] of the batch, so exactly
    [opts.limit] of them when the batch has more than that. *)
Theorem batch_events_spec (pdus_ : Datatypes.list m.event) (o : opts) :
  (ordered o = false -> StronglySorted spec_order (batch_events pdus_ o)) /\
  Permutation (batch_events pdus_ o) (firstn (limit o) pdus_) /\
  (limit o < List.length pdus_ -> List.length (batch_events pdus_ o) = limit o) /\
  (ordered o = true -> batch_events pdus_ o = firstn (limit o) pdus_).
Proof.
  unfold batch_events.
  assert (Hcut : (if Nat.ltb (limit o) (List.length pdus_)
                  then firstn (limit o) pdus_ else pdus_) = firstn (limit o) pdus_).
  { destruct (Nat.ltb_spec (limit o) (List.length pdus_)); [reflexivity|].
    symmetry. now apply firstn_all2. }
  rewrite Hcut.
  assert (Hperm : Permutation
                    (if negb (ordered o)
                     then sort event_less (firstn (limit o) pdus_)
                     else firstn (limit o) pdus_)
                    (firstn (limit o) pdus_)).
  { destruct (ordered o); simpl; [reflexivity|apply sort_perm]. }
  repeat split.
  - intros ->. simpl.
    apply Sorted_StronglySorted; [exact spec_order_trans|].
    eapply Sorted_ind with (P := fun l => Sorted spec_order l);
      [constructor| |apply (sort_sorted event_less event_less_asym)].
    intros a l _ IH Hhd. constructor; [exact IH|].
    destruct Hhd; constructor. now apply event_less_spec_order.
  - exact Hperm.
  - intros Hlt. rewrite (Permutation_length Hperm). apply firstn_length_le. lia.
  - now intros ->.
Qed.

(** A batch of four events out of order, with room for three. *)
Definition batch_of_four : Datatypes.list m.event :=
  [m.mk_event "$c" 3 10 "" "" None; m.mk_event "$b" 1 20 "" "" None;
   m.mk_event "$a" 1 20 "" "" None; m.mk_event "$d" 0 0 "" "" None].

(** C5 at that batch, not ordered by the caller. *)
Lemma batch_events_witness :
  StronglySorted spec_order (batch_events batch_of_four (mk_opts 3 false "")).
Proof.
  apply (proj1 (batch_events_spec batch_of_four (mk_opts 3 false ""))).
  reflexivity.
Defined.

Example batch_events_three :
  map m.event_id (batch_events batch_of_four (mk_opts 3 false "")) = ["$a"; "$b"; "$c"] /\
  map m.event_id (batch_events batch_of_four (mk_opts 3 true "")) = ["$c"; "$b"; "$a"].
Proof. repeat split. Qed.


(** ** The parallel key fetch *)

(** The event carries a signature made with the key [key_id]. *)
Definition signed_with (event : m.event) (key_id : string) : Prop :=
  exists all signer signatures_ signature,
    m.signatures event = Some all /\
    In (signer, signatures_) all /\
    In (key_id, signature) signatures_.

(** The event is not passed over on account of [opts.node_id]. *)
Definition considered (o : opts) (event : m.event) : Prop :=
  m.defined (node_id o) = false \/ node_id o = m.origin_of event.

Section MissFacts.
Variable cache_has : string -> string -> bool.
Variable P : server_key -> Prop.

Lemma miss_keys_inv origin signatures_ :
  (forall key_id signature,
     In (key_id, signature) signatures_ ->
     cache_has origin key_id = false -> P (origin, key_id)) ->
  forall miss, (forall q, In q miss -> P q) ->
               forall q, In q (miss_keys cache_has origin signatures_ miss) -> P q.
Proof.
  unfold miss_keys.
  induction signatures_ as [|[key_id signature] rest IH]; simpl; intros Hnew miss Hmiss.
  - exact Hmiss.
  - apply IH; [intros k sg Hin; apply (Hnew k sg); now right|].
    destruct (cache_has origin key_id) eqn:Hhas; simpl; [exact Hmiss|].
    intros q Hq. apply stdset_spec.emplace_In in Hq. destruct Hq as [->|Hq]; [|now apply Hmiss].
    apply (Hnew key_id signature); [now left|exact Hhas].
Qed.

Lemma miss_signatures_inv origin all :
  (forall signer signatures_ key_id signature,
     In (signer, signatures_) all -> In (key_id, signature) signatures_ ->
     cache_has origin key_id = false -> P (origin, key_id)) ->
  forall miss, (forall q, In q miss -> P q) ->
               forall q, In q (miss_signatures cache_has origin all miss) -> P q.
Proof.
  unfold miss_signatures.
  induction all as [|[signer signatures_] rest IH]; simpl; intros Hnew miss Hmiss.
  - exact Hmiss.
  - apply IH; [intros sn sg k x Hin; apply (Hnew sn sg k x); now right|].
    apply miss_keys_inv; [|exact Hmiss].
    intros k x Hin. apply (Hnew signer signatures_ k x); [now left|exact Hin].
Qed.

Lemma miss_pdus_inv o pdus_ :
  (forall event key_id,
     In event pdus_ -> considered o event -> signed_with event key_id ->
     cache_has (m.origin_of event) key_id = false ->
     P (m.origin_of event, key_id)) ->
  forall miss miss',
    (forall q, In q miss -> P q) ->
    miss_pdus cache_has o pdus_ miss = Ret miss' ->
    forall q, In q miss' -> P q.
Proof.
  induction pdus_ as [|event rest IH]; simpl; intros Hnew miss miss' Hmiss Hrun.
  - now injection Hrun as <-.
  - assert (Hrest : forall ev key_id,
               In ev rest -> considered o ev -> signed_with ev key_id ->
               cache_has (m.origin_of ev) key_id = false ->
               P (m.origin_of ev, key_id))
      by (intros ev k Hin; apply Hnew; now right).
    destruct (m.defined (node_id o)) eqn:Hnode; simpl in Hrun.
    + destruct (String.eqb_spec (node_id o) (m.origin_of event)) as [Heq|Hne];
        simpl in Hrun; [|now apply (IH Hrest miss miss')].
      destruct (m.signatures event) as [all|] eqn:Hsig; [|discriminate].
      refine (IH Hrest _ miss' _ Hrun).
      apply miss_signatures_inv; [|exact Hmiss].
      intros signer sg k x Hin Hk. apply Hnew; [now left|now right|].
      now exists all, signer, sg, x.
    + destruct (m.signatures event) as [all|] eqn:Hsig; [|discriminate].
      refine (IH Hrest _ miss' _ Hrun).
      apply miss_signatures_inv; [|exact Hmiss].
      intros signer sg k x Hin Hk. apply Hnew; [now left|now left|].
      now exists all, signer, sg, x.
Qed.
End MissFacts.

(** C8.  Every key [mfetch_keys] asks the batched fetch for is absent
    from the key cache and is a key of a signature on one of the events,
    asked of the server that event is attributed to; when [opts.node_id]
    is set that server is [opts.node_id], so the events of other servers
    add no query.  When no such key is absent from the cache the fetch is
    not called. *)
Theorem mfetch_keys_spec (cache_has : string -> string -> bool) (e : eval) :
  (forall queries, mfetch_keys cache_has e = Ret (Some queries) ->
     queries <> [] /\
     forall server key_id, In (server, key_id) queries ->
       cache_has server key_id = false /\
       (m.defined (node_id (eval_opts e)) = true -> server = node_id (eval_opts e)) /\
       exists event,
         In event (pdus e) /\ m.origin_of event = server /\ signed_with event key_id) /\
  ((forall event key_id,
      In event (pdus e) -> considered (eval_opts e) event -> signed_with event key_id ->
      cache_has (m.origin_of event) key_id = true) ->
   forall queries, mfetch_keys cache_has e <> Ret (Some queries)).
Proof.
  unfold mfetch_keys. split.
  - intros queries Hrun.
    destruct (miss_pdus cache_has (eval_opts e) (pdus e) []) as [miss| | |] eqn:Hmiss;
      try discriminate.
    destruct miss as [|q0 miss]; [discriminate|]. injection Hrun as <-.
    split; [discriminate|]. intros server key_id Hin.
    apply (miss_pdus_inv cache_has
             (fun q => cache_has (fst q) (snd q) = false /\
                       (m.defined (node_id (eval_opts e)) = true ->
                        fst q = node_id (eval_opts e)) /\
                       exists event, In event (pdus e) /\ m.origin_of event = fst q /\
                                     signed_with event (snd q))
             (eval_opts e) (pdus e)) with (miss := []) (q := (server, key_id)) in Hmiss;
      [exact Hmiss| |intros q []|exact Hin].
    intros event k Hev Hcons Hsigned Hhas. simpl. split; [exact Hhas|]. split.
    + intros Hdef. destruct Hcons as [Hc|Hc]; congruence.
    + now exists event.
  - intros Hcached queries Hrun.
    destruct (miss_pdus cache_has (eval_opts e) (pdus e) []) as [miss| | |] eqn:Hmiss;
      try discriminate.
    destruct miss as [|q0 miss]; [discriminate|].
    apply (miss_pdus_inv cache_has (fun _ => False) (eval_opts e) (pdus e))
      with (miss := []) (q := q0) in Hmiss; [exact Hmiss| |intros q []|now left].
    intros event k Hev Hcons Hsigned Hhas.
    rewrite (Hcached event k Hev Hcons Hsigned) in Hhas. discriminate.
Qed.

(** A batch on behalf of [a.org] with an event of [b.org] in it, and a
    cache that has the keys [ed25519:1] only: the one key of [a.org] that
    the cache lacks is asked for. *)
Definition cache_of_1 (server key_id : string) : bool := String.eqb key_id "ed25519:1".

Definition eval_for_a : eval :=
  mk_eval (mk_opts 10 false "a.org") 0 1 0
    [m.mk_event "$1" 1 0 "a.org" "@u:a.org"
       (Some [("a.org", [("ed25519:1", "s1"); ("ed25519:2", "s2")])]);
     m.mk_event "$2" 2 0 "" "@v:b.org"
       (Some [("b.org", [("ed25519:9", "s3")])])]
    None None "" None None.

Example mfetch_keys_node :
  mfetch_keys cache_of_1 eval_for_a = Ret (Some [("a.org", "ed25519:2")]).
Proof. reflexivity. Qed.

(** C8 at that batch, where the fetch is called with the one query. *)
Lemma mfetch_keys_witness :
  [("a.org", "ed25519:2")] <> [] /\
  forall server key_id, In (server, key_id) [("a.org", "ed25519:2")] ->
    cache_of_1 server key_id = false /\
    (m.defined (node_id (eval_opts eval_for_a)) = true ->
     server = node_id (eval_opts eval_for_a)) /\
    exists event,
      In event (pdus eval_for_a) /\ m.origin_of event = server /\
      signed_with event key_id.
Proof.
  apply (proj1 (mfetch_keys_spec cache_of_1 eval_for_a) [("a.org", "ed25519:2")]).
  reflexivity.
Defined.

End vm_spec.

(** * Properties of the fetch unit *)

Module fetch_spec.

Import fetch.

(** ** Reasoning about the functions on one request *)

(** [wp c s Q]: run from [s], the call [c] ends in an outcome and a state
    that [Q] holds of. *)
Definition wp {A : Type} (c : M A) (s : st) (Q : outcome A -> st -> Prop) : Prop :=
  Q (fst (c s)) (snd (c s)).

Lemma wp_bind {A B : Type} (c : M A) (k : A -> M B) s Q :
  wp c s (fun o s' =>
            match o with
            | Ret a => wp (k a) s' Q
            | Throw e => Q (Throw e) s'
            | Abort => Q Abort s'
            | Diverge => Q Diverge s'
            end) ->
  wp (bind c k) s Q.
Proof. unfold wp, bind. destruct (c s) as [[a|e| |] s']; simpl; auto. Qed.

Lemma wp_try_catch {A : Type} (c : M A) (handler : exception -> M A) s Q :
  wp c s (fun o s' =>
            match o with
            | Throw e => wp (handler e) s' Q
            | other => Q other s'
            end) ->
  wp (try_catch c handler) s Q.
Proof. unfold wp, try_catch. destruct (c s) as [[a|e| |] s']; simpl; auto. Qed.

Lemma wp_mono {A : Type} (c : M A) s (Q1 Q2 : outcome A -> st -> Prop) :
  wp c s Q1 -> (forall o s', Q1 o s' -> Q2 o s') -> wp c s Q2.
Proof. unfold wp. auto. Qed.

Lemma wp_ret {A : Type} (a : A) s (Q : outcome A -> st -> Prop) :
  Q (Ret a) s -> wp (ret a) s Q.
Proof. auto. Qed.

Lemma wp_throw {A : Type} e s (Q : outcome A -> st -> Prop) :
  Q (Throw e) s -> wp (throw e) s Q.
Proof. auto. Qed.

Lemma wp_assert b s (Q : outcome unit -> st -> Prop) :
  (b = true -> Q (Ret tt) s) -> (b = false -> Q Abort s) -> wp (assert b) s Q.
Proof. unfold wp, assert. destruct b; auto. Qed.

Lemma wp_modify f s (Q : outcome unit -> st -> Prop) :
  Q (Ret tt) (f (fst s), snd s) -> wp (modify f) s Q.
Proof. auto. Qed.

Lemma wp_this_request s (Q : outcome request -> st -> Prop) :
  Q (Ret (fst s)) s -> wp this_request s Q.
Proof. auto. Qed.

Lemma wp_read s (Q : outcome nat -> st -> Prop) :
  Q (Ret (tick (snd s))) (fst s, mk_world (S (tick (snd s))) (issued (snd s))) ->
  wp read s Q.
Proof. auto. Qed.

Lemma wp_lift {A : Type} (o : outcome A) s (Q : outcome A -> st -> Prop) :
  Q o s -> wp (lift o) s Q.
Proof. auto. Qed.

(** One step through the text of a function. *)
Ltac wp_step :=
  lazymatch goal with
  | |- wp (bind (start_loop _ _ _) _) _ _ => fail
  | |- wp (bind _ _) _ _ => apply wp_bind
  | |- wp (try_catch _ _) _ _ => apply wp_try_catch
  | |- wp (ret _) _ _ => apply wp_ret
  | |- wp (throw _) _ _ => apply wp_throw
  | |- wp (modify _) _ _ => apply wp_modify
  | |- wp this_request _ _ => apply wp_this_request
  | |- wp read _ _ => apply wp_read
  | |- wp (lift _) _ _ => apply wp_lift
  | |- wp (ircd_time _) _ _ => unfold ircd_time
  | |- wp (server_cancel) _ _ => unfold server_cancel
  | |- wp (if ?b then _ else _) _ _ => destruct b eqn:?
  | |- wp (assert _) _ _ => apply wp_assert; intros ?Hassert
  | |- wp (match ?x with _ => _ end) _ _ => destruct x eqn:?
  end; cbv beta iota; cbn [fst snd].

Ltac wp_steps := repeat wp_step.

Section Unit.
Variable E : env.

(** *** Origin selection *)

Lemma random_Some origins_ n proffer_ o :
  random origins_ n proffer_ = Some o -> In o origins_ /\ proffer_ o = true.
Proof.
  unfold random. intros H. apply nth_error_In in H.
  now apply filter_In in H.
Qed.

Lemma random_None origins_ n proffer_ :
  random origins_ n proffer_ = None <->
  forall o, In o origins_ -> proffer_ o = false.
Proof.
  unfold random. split.
  - intros H o Ho. destruct (proffer_ o) eqn:Hp; [|reflexivity].
    assert (Hin : In o (filter proffer_ origins_)) by (apply filter_In; auto).
    destruct (filter proffer_ origins_) as [|c rest] eqn:Hf; [destruct Hin|].
    apply nth_error_None in H.
    pose proof (Nat.mod_upper_bound n (List.length (c :: rest))) as Hlt.
    simpl in *. lia.
  - intros H. destruct (filter proffer_ origins_) as [|c rest] eqn:Hf.
    + apply nth_error_None. simpl. lia.
    + assert (Hin : In c (filter proffer_ origins_)) by (rewrite Hf; now left).
      apply filter_In in Hin. destruct Hin as [Hin Hp].
      rewrite (H c Hin) in Hp. discriminate.
Qed.

Lemma proffer_true r t o :
  proffer E r t o = true <->
  my_host E o = false /\
  stdset.count String.ltb o (attempted r) = false /\
  errmsg E t o = false.
Proof.
  unfold proffer.
  destruct (my_host E o), (stdset.count String.ltb o (attempted r)), (errmsg E t o);
    intuition congruence.
Qed.

(** What [select_random_origin] does, in one equation. *)
Lemma select_random_origin_eq r w :
  select_random_origin E (r, w) =
  let w' := mk_world (S (tick w)) (issued w) in
  match random (origins E (room_id r)) (rand E (tick w)) (proffer E r (tick w)) with
  | Some o =>
      let r' := set_origin o
                  (set_attempted (stdset.emplace String.ltb o (attempted r))
                     (set_origin "" r)) in
      if m.defined o then (Ret o, (r', w')) else (Throw m_NOT_FOUND, (r', w'))
  | None => (Throw m_NOT_FOUND, (set_origin "" r, w'))
  end.
Proof.
  unfold select_random_origin, select_origin, bind, this_request, read, modify, ret,
    throw. simpl.
  destruct (random (origins E (room_id r)) (rand E (tick w)) (proffer E r (tick w)))
    as [o|]; simpl; [|reflexivity].
  destruct (m.defined o); reflexivity.
Qed.


(** *** Issuance and completion *)

Definition bump (w : world) : world := mk_world (S (tick w)) (issued w).

(** What [start(request &, opts &)] does, in one equation. *)
Lemma start_opts_eq remote r w :
  start_opts E remote (r, w) =
  if Z.eqb (finished r) 0
  then
    let r1 := if Z.eqb (started r) 0 then set_started (time E (tick w)) r else r in
    let w1 := if Z.eqb (started r) 0 then bump w else w in
    let r2 := set_last (time E (tick w1)) r1 in
    match issue E (S (tick w1)) remote with
    | Some _ => (Ret false, (set_transport None r2, bump (bump w1)))
    | None =>
        let r3 := set_transport (Some remote) r2 in
        (Ret true, (r3, mk_world (S (S (tick w1))) (issued w1 ++ [(remote, r3)])))
    end
  else (Abort, (r, w)).
Proof.
  cbv beta iota zeta delta
    [start_opts try_catch bind this_request assert ircd_time issue_request
     server_cancel read modify ret throw bump fst snd tick issued].
  destruct (Z.eqb (finished r) 0); [|reflexivity].
  destruct (Z.eqb (started r) 0);
    match goal with |- context [issue E ?t remote] => destruct (issue E t remote) end;
    reflexivity.
Qed.

(** What [finish] does, in one equation. *)
Lemma finish_eq r w :
  finish E (r, w) =
  let r1 := set_finished (time E (tick w)) r in
  (Ret tt,
   (match promise r with
    | promise_pending =>
        match eptr r with
        | Some e => set_promise (promise_exception e) (set_eptr None r1)
        | None => set_promise promise_value r1
        end
    | _ => r1
    end, bump w)).
Proof.
  unfold finish, bind, ircd_time, read, modify, this_request, ret, bump. simpl.
  destruct (promise r); try reflexivity. destruct (eptr r); reflexivity.
Qed.

Lemma wp_select_random_origin r w Q :
  (let w' := bump w in
   match random (origins E (room_id r)) (rand E (tick w)) (proffer E r (tick w)) with
   | Some o =>
       let r' := set_origin o
                   (set_attempted (stdset.emplace String.ltb o (attempted r))
                      (set_origin "" r)) in
       if m.defined o then Q (Ret o) (r', w') else Q (Throw m_NOT_FOUND) (r', w')
   | None => Q (Throw m_NOT_FOUND) (set_origin "" r, w')
   end) ->
  wp (select_random_origin E) (r, w) Q.
Proof.
  unfold wp. rewrite select_random_origin_eq. cbv zeta. unfold bump.
  destruct (random _ _ _) as [o|]; [|auto]. destruct (m.defined o); auto.
Qed.

Lemma wp_start_opts remote r w Q :
  (if Z.eqb (finished r) 0
   then
     let r1 := if Z.eqb (started r) 0 then set_started (time E (tick w)) r else r in
     let w1 := if Z.eqb (started r) 0 then bump w else w in
     let r2 := set_last (time E (tick w1)) r1 in
     match issue E (S (tick w1)) remote with
     | Some _ => Q (Ret false) (set_transport None r2, bump (bump w1))
     | None =>
         let r3 := set_transport (Some remote) r2 in
         Q (Ret true) (r3, mk_world (S (S (tick w1))) (issued w1 ++ [(remote, r3)]))
     end
   else Q Abort (r, w)) ->
  wp (start_opts E remote) (r, w) Q.
Proof.
  unfold wp. rewrite start_opts_eq. cbv zeta.
  destruct (Z.eqb (finished r) 0); [|auto].
  destruct (issue E _ remote); auto.
Qed.

Lemma wp_finish r w Q :
  Q (Ret tt)
    (let r1 := set_finished (time E (tick w)) r in
     match promise r with
     | promise_pending =>
         match eptr r with
         | Some e => set_promise (promise_exception e) (set_eptr None r1)
         | None => set_promise promise_value r1
         end
     | _ => r1
     end, bump w) ->
  wp (finish E) (r, w) Q.
Proof. unfold wp. now rewrite finish_eq. Qed.

Lemma wp_start_loop_O remote r w Q :
  (m.defined (origin r) = false -> Q (Ret false) (r, w)) ->
  (m.defined (origin r) = true -> Q Diverge (r, w)) ->
  wp (start_loop E O remote) (r, w) Q.
Proof. unfold wp. simpl. destruct (m.defined (origin r)); auto. Qed.

Lemma wp_start_loop_S bound remote r w Q :
  (m.defined (origin r) = false -> Q (Ret false) (r, w)) ->
  (m.defined (origin r) = true ->
   wp (issued_ <- start_opts E remote ;;
       if issued_ : bool then ret true
       else (select_random_origin E ;;
             r <- this_request ;;
             start_loop E bound (origin r)))
      (r, w) Q) ->
  wp (start_loop E (S bound) remote) (r, w) Q.
Proof. unfold wp. simpl. destruct (m.defined (origin r)); auto. Qed.

(** *** [start] returns *)

Definition sorted_attempted (r : request) : Prop :=
  stdset_spec.sorted (fun x : string => x) (attempted r).

(** The origins of the room the request has not tried. *)
Definition unattempted (r : request) : nat :=
  List.length
    (filter (fun o => negb (stdset.count String.ltb o (attempted r)))
            (origins E (room_id r))).

Definition same_request (r r' : request) : Prop :=
  event_id r' = event_id r /\ room_id r' = room_id r /\ bufsz r' = bufsz r.

Lemma filter_length_lt {A : Type} (f g : A -> bool) (l : list A) x :
  (forall y, f y = true -> g y = true) ->
  In x l -> g x = true -> f x = false ->
  List.length (filter f l) < List.length (filter g l).
Proof.
  intros Himp. induction l as [|y rest IH]; simpl; intros Hin Hg Hf; [destruct Hin|].
  assert (Hle : List.length (filter f rest) <= List.length (filter g rest)).
  { clear - Himp. induction rest as [|z rest IH]; simpl; [lia|].
    destruct (f z) eqn:Hfz.
    - rewrite (Himp z Hfz). simpl. lia.
    - destruct (g z); simpl; lia. }
  destruct Hin as [->|Hin].
  - rewrite Hf, Hg. simpl. lia.
  - specialize (IH Hin Hg Hf). destruct (f y) eqn:Hfy.
    + rewrite (Himp y Hfy). simpl. lia.
    + destruct (g y); simpl; lia.
Qed.

Lemma In_emplace_self o (l : list string) :
  stdset_spec.sorted (fun x : string => x) l -> In o (stdset.emplace String.ltb o l).
Proof.
  intros Hs. destruct (stdset.count String.ltb o l) eqn:Hc.
  - apply (stdset_spec.count_true (fun x : string => x) o l Hs) in Hc.
    destruct Hc as (y & Hy & <-).
    apply stdset_spec.emplace_incl. exact Hy.
  - assert (Habs : forall y, In y l -> y <> o).
    { intros y Hy ->.
      assert (Ht : stdset.count String.ltb o l = true)
        by (apply (stdset_spec.count_true (fun x : string => x) o l Hs); now exists o).
      congruence. }
    apply (Permutation_in o
             (Permutation_sym (stdset_spec.emplace_absent (fun x : string => x) o l Habs))).
    now left.
Qed.

Lemma unattempted_select r o :
  sorted_attempted r ->
  In o (origins E (room_id r)) ->
  stdset.count String.ltb o (attempted r) = false ->
  unattempted (set_origin o
                 (set_attempted (stdset.emplace String.ltb o (attempted r))
                    (set_origin "" r)))
  < unattempted r.
Proof.
  intros Hs Hin Hc. unfold unattempted. simpl.
  pose proof (stdset_spec.emplace_sorted (fun x : string => x) o _ Hs) as Hs'.
  apply filter_length_lt with (x := o); auto.
  - intros y Hy. apply Bool.negb_true_iff in Hy. apply Bool.negb_true_iff.
    destruct (stdset.count String.ltb y (attempted r)) eqn:Hcy; [|reflexivity].
    apply (stdset_spec.count_true (fun x : string => x) y _ Hs) in Hcy.
    destruct Hcy as (z & Hz & Hk).
    assert (Ht : stdset.count String.ltb y
                   (stdset.emplace String.ltb o (attempted r)) = true).
    { apply (stdset_spec.count_true (fun x : string => x) y _ Hs').
      exists z. split; [now apply stdset_spec.emplace_incl|exact Hk]. }
    congruence.
  - now rewrite Hc.
  - apply Bool.negb_false_iff.
    apply (stdset_spec.count_true (fun x : string => x) o _ Hs').
    exists o. split; [now apply In_emplace_self|reflexivity].
Qed.

Ltac wp_leaf :=
  lazymatch goal with
  | |- wp (select_random_origin _) (_, _) _ =>
      apply wp_select_random_origin; cbv zeta
  | |- wp (start_opts _ _) (_, _) _ => apply wp_start_opts; cbv zeta
  | |- wp (finish _) (_, _) _ => apply wp_finish; cbv zeta
  end.

Definition loop_returns (r : request) (o : outcome bool) (s' : st) : Prop :=
  (o = Ret true \/ o = Ret false \/ o = Throw m_NOT_FOUND) /\
  same_request r (fst s') /\
  finished (fst s') = 0%Z /\
  sorted_attempted (fst s') /\
  promise (fst s') = promise r.

Lemma random_proffer r t n o :
  random (origins E (room_id r)) n (proffer E r t) = Some o ->
  In o (origins E (room_id r)) /\
  my_host E o = false /\
  stdset.count String.ltb o (attempted r) = false /\
  errmsg E t o = false.
Proof.
  intros H. apply random_Some in H. destruct H as [Hin Hp].
  split; [exact Hin|]. now apply proffer_true.
Qed.

Lemma loop_returns_trans r r' o s' :
  same_request r r' -> promise r' = promise r ->
  loop_returns r' o s' -> loop_returns r o s'.
Proof.
  unfold loop_returns, same_request.
  intros (H1 & H2 & H3) Hp (Ho & (H4 & H5 & H6) & Hf & Hs & Hp').
  repeat split; auto; congruence.
Qed.

Lemma start_loop_returns bound :
  forall remote r w,
    finished r = 0%Z -> sorted_attempted r -> unattempted r < bound ->
    wp (start_loop E bound remote) (r, w) (loop_returns r).
Proof.
  induction bound as [|bound IH]; intros remote r w Hfin Hs Hlt; [lia|].
  apply wp_start_loop_S; [intros _; repeat split; auto|intros Hdef].
  wp_step. wp_leaf. rewrite Hfin. simpl.
  set (r1 := if Z.eqb (started r) 0 then set_started (time E (tick w)) r else r).
  set (w1 := if Z.eqb (started r) 0 then bump w else w).
  assert (Hr1 : same_request r r1 /\ attempted r1 = attempted r /\
                finished r1 = 0%Z /\ promise r1 = promise r).
  { unfold r1. destruct (Z.eqb (started r) 0); repeat split; auto. }
  destruct Hr1 as (Hsame & Hatt & Hfin1 & Hprom).
  assert (Hroom : room_id r1 = room_id r) by apply Hsame.
  destruct (issue E (S (tick w1)) remote).
  - wp_step. wp_leaf.
    set (r2 := set_transport None (set_last (time E (tick w1)) r1)).
    assert (Hs2 : sorted_attempted r2)
      by (unfold sorted_attempted, r2; simpl; now rewrite Hatt).
    assert (Hm2 : unattempted r2 = unattempted r)
      by (unfold unattempted, r2; simpl; now rewrite Hatt, Hroom).
    assert (Hsame2 : same_request r r2) by (unfold r2; exact Hsame).
    destruct (random _ _ _) as [o|] eqn:Hrandom.
    + apply random_proffer in Hrandom. destruct Hrandom as (Hin & _ & Hcount & _).
      pose proof (unattempted_select r2 o Hs2 Hin Hcount) as Hdec.
      destruct (m.defined o).
      * wp_steps. eapply wp_mono.
        -- apply IH; [exact Hfin1| |lia].
           apply (stdset_spec.emplace_sorted (fun x : string => x)). exact Hs2.
        -- intros o' s'. apply loop_returns_trans; [exact Hsame2|exact Hprom].
      * repeat split; auto; try apply Hsame.
        apply (stdset_spec.emplace_sorted (fun x : string => x)). exact Hs2.
    + repeat split; auto; apply Hsame.
  - wp_step. repeat split; auto; try apply Hsame.
    unfold sorted_attempted. simpl. now rewrite Hatt.
Qed.

Definition start_returns_post (r : request) (o : outcome bool) (s' : st) : Prop :=
  (exists returned, o = Ret returned) /\
  same_request r (fst s') /\
  sorted_attempted (fst s') /\
  (promise r = promise_pending -> promise (fst s') <> promise_invalid).

Lemma finish_returns r0 r w (Q : outcome unit -> st -> Prop) :
  same_request r0 r -> sorted_attempted r ->
  (promise r0 = promise_pending -> promise r = promise_pending) ->
  (forall r' w',
     same_request r0 r' -> sorted_attempted r' ->
     (promise r0 = promise_pending -> promise r' <> promise_invalid) ->
     Q (Ret tt) (r', w')) ->
  wp (finish E) (r, w) Q.
Proof.
  intros Hsame Hs Hp HQ. wp_leaf. apply HQ.
  - destruct (promise r); [| destruct (eptr r) | |]; exact Hsame.
  - unfold sorted_attempted. destruct (promise r); [| destruct (eptr r) | |]; exact Hs.
  - intros Hp0. rewrite (Hp Hp0). destruct (eptr r); discriminate.
Qed.

(** The handler of [start], and what follows its loop. *)
Definition start_handler (e : exception) : M bool :=
  r <- this_request ;;
  assert (Z.eqb (finished r) 0) ;;
  modify (set_eptr (Some e)) ;;
  finish E ;;
  ret false.

Definition start_after_loop (returned : bool) : M bool :=
  if returned then ret true
  else (r <- this_request ;;
        assert (Z.eqb (finished r) 0) ;;
        finish E ;;
        ret false).

Definition start_caught (Q : outcome bool -> st -> Prop)
    (o : outcome bool) (s' : st) : Prop :=
  match o with
  | Throw e => wp (start_handler e) s' Q
  | other => Q other s'
  end.

Definition running (r0 r : request) : Prop :=
  same_request r0 r /\ sorted_attempted r /\ finished r = 0%Z /\
  promise r = promise r0.

Lemma returns_intro r0 returned r' w' :
  same_request r0 r' -> sorted_attempted r' ->
  (promise r0 = promise_pending -> promise r' <> promise_invalid) ->
  start_returns_post r0 (Ret returned) (r', w').
Proof.
  intros Hsame Hs Hp. split; [now exists returned|]. split; [exact Hsame|].
  split; [exact Hs|exact Hp].
Qed.

Lemma handler_returns r0 e r w :
  running r0 r -> wp (start_handler e) (r, w) (start_returns_post r0).
Proof.
  intros (Hsame & Hs & Hfin & Hp). unfold start_handler.
  wp_steps; [|rewrite Hfin in Hassert; discriminate].
  apply finish_returns with (r0 := r0);
    [exact Hsame|exact Hs|simpl; congruence|].
  intros r' w' Hsame' Hs' Hp'. wp_steps. now apply returns_intro.
Qed.

Lemma after_loop_returns r0 returned r w :
  running r0 r ->
  wp (start_after_loop returned) (r, w) (start_caught (start_returns_post r0)).
Proof.
  intros (Hsame & Hs & Hfin & Hp). unfold start_after_loop.
  destruct returned; wp_steps.
  - apply returns_intro; auto. intros Hp0. rewrite Hp, Hp0. discriminate.
  - apply finish_returns with (r0 := r0);
      [exact Hsame|exact Hs|congruence|].
    intros r' w' Hsame' Hs' Hp'. wp_steps. now apply returns_intro.
  - rewrite Hfin in Hassert. discriminate.
Qed.

Lemma loop_then_returns r0 remote r w :
  running r0 r ->
  wp (returned <- start_loop E (S (List.length (origins E (room_id r)))) remote ;;
      start_after_loop returned)
     (r, w) (start_caught (start_returns_post r0)).
Proof.
  intros (Hsame & Hs & Hfin & Hp). apply wp_bind.
  eapply wp_mono.
  - apply start_loop_returns; [exact Hfin|exact Hs|].
    unfold unattempted. pose proof (filter_length_le
      (fun o => negb (stdset.count String.ltb o (attempted r)))
      (origins E (room_id r))). lia.
  - intros o [r' w'] (Ho & Hsame' & Hfin' & Hs' & Hp'). simpl in *.
    assert (Hrun : running r0 r').
    { destruct Hsame as (H1 & H2 & H3), Hsame' as (H4 & H5 & H6).
      repeat split; auto; congruence. }
    destruct Ho as [-> | [-> | ->]]; cbv iota.
    + now apply after_loop_returns.
    + now apply after_loop_returns.
    + now apply handler_returns.
Qed.

(** The text of [start] with its handler and the end of its body by
    their names. *)
Definition start_body : M bool :=
  r <- this_request ;;
  assert (Z.eqb (finished r) 0) ;;
  (if Z.eqb (started r) 0
   then now <- ircd_time E ;; modify (set_started now)
   else ret tt) ;;
  r <- this_request ;;
  remote <- (if negb (m.defined (origin r))
             then select_random_origin E ;; r <- this_request ;; ret (origin r)
             else ret "") ;;
  r <- this_request ;;
  returned <- start_loop E (S (List.length (origins E (room_id r)))) remote ;;
  start_after_loop returned.

Lemma start_unfold : start E = try_catch start_body start_handler.
Proof. reflexivity. Qed.

Lemma wp_start r w Q :
  wp start_body (r, w) (start_caught Q) -> wp (start E) (r, w) Q.
Proof. rewrite start_unfold. intros H. apply wp_try_catch. exact H. Qed.

Lemma running_refl r : finished r = 0%Z -> sorted_attempted r -> running r r.
Proof. intros Hfin Hs. repeat split; auto. Qed.

(** The steps of [start] before its loop keep the request running. *)
Lemma running_select r0 r o :
  running r0 r ->
  running r0 (set_origin o
                (set_attempted (stdset.emplace String.ltb o (attempted r))
                   (set_origin "" r))).
Proof.
  intros (Hsame & Hs & Hfin & Hp). split; [exact Hsame|]. split; [|split; assumption].
  apply (stdset_spec.emplace_sorted (fun x : string => x)). exact Hs.
Qed.

Lemma select_then_returns r0 r w :
  running r0 r ->
  wp (select_random_origin E) (r, w)
     (fun o s' =>
        match o with
        | Ret _ =>
            wp (r <- this_request ;; ret (origin r)) s'
               (fun o0 s'0 =>
                  match o0 with
                  | Ret a0 =>
                      wp (r <- this_request ;;
                          returned <- start_loop E
                                        (S (List.length (origins E (room_id r)))) a0 ;;
                          start_after_loop returned)
                         s'0 (start_caught (start_returns_post r0))
                  | Throw e => start_caught (start_returns_post r0) (Throw e) s'0
                  | Abort => start_caught (start_returns_post r0) Abort s'0
                  | Diverge => start_caught (start_returns_post r0) Diverge s'0
                  end)
        | Throw e => start_caught (start_returns_post r0) (Throw e) s'
        | Abort => start_caught (start_returns_post r0) Abort s'
        | Diverge => start_caught (start_returns_post r0) Diverge s'
        end).
Proof.
  intros Hrun. wp_leaf.
  destruct (random _ _ _) as [o|].
  - destruct (m.defined o).
    + wp_steps. apply loop_then_returns. now apply running_select.
    + apply handler_returns. now apply running_select.
  - apply handler_returns. exact Hrun.
Qed.

Lemma start_returns r w :
  finished r = 0%Z -> sorted_attempted r ->
  wp (start E) (r, w) (start_returns_post r).
Proof.
  intros Hfin Hs. pose proof (running_refl r Hfin Hs) as Hrun.
  apply wp_start. unfold start_body.
  wp_steps.
  - now apply select_then_returns.
  - now apply loop_then_returns.
  - now apply select_then_returns.
  - now apply loop_then_returns.
  - rewrite Hfin in Hassert. discriminate.
Qed.

(** *** Submission *)

Definition sorted_requests (requests : list request) : Prop :=
  stdset_spec.sorted event_id requests.

Definition absent (event_id_ : string) (requests : list request) : Prop :=
  forall r, In r requests -> event_id r <> event_id_.

Lemma element_emplace_absent event_id_ new (requests : list request) :
  event_id new = event_id_ -> absent event_id_ requests ->
  element event_id_ (stdset.emplace request_less new requests) = Some new.
Proof.
  intros Hk. induction requests as [|y rest IH]; simpl; intros Habs.
  - now rewrite Hk, String.eqb_refl.
  - assert (Hy : String.eqb (event_id y) event_id_ = false)
      by (apply String.eqb_neq, Habs; now left).
    unfold request_less at 1. destruct (String.ltb (event_id new) (event_id y)) eqn:Hlt.
    + simpl. now rewrite Hk, String.eqb_refl.
    + unfold request_less at 1.
      destruct (String.ltb (event_id y) (event_id new)) eqn:Hgt; simpl; rewrite Hy.
      * apply IH. intros r Hr. apply Habs. now right.
      * exfalso. apply (Habs y); [now left|].
        rewrite <- Hk. now apply string_order.ltb_total.
Qed.

Lemma assign_emplace_absent event_id_ new new' (requests : list request) :
  event_id new = event_id_ -> event_id new' = event_id_ ->
  absent event_id_ requests ->
  assign event_id_ new' (stdset.emplace request_less new requests) =
  stdset.emplace request_less new' requests.
Proof.
  intros Hk Hk'. induction requests as [|y rest IH]; simpl; intros Habs.
  - now rewrite Hk, String.eqb_refl.
  - assert (Hy : String.eqb (event_id y) event_id_ = false)
      by (apply String.eqb_neq, Habs; now left).
    replace (request_less new y) with (String.ltb event_id_ (event_id y))
      by (unfold request_less; now rewrite Hk).
    replace (request_less new' y) with (String.ltb event_id_ (event_id y))
      by (unfold request_less; now rewrite Hk').
    replace (request_less y new) with (String.ltb (event_id y) event_id_)
      by (unfold request_less; now rewrite Hk).
    replace (request_less y new') with (String.ltb (event_id y) event_id_)
      by (unfold request_less; now rewrite Hk').
    destruct (String.ltb event_id_ (event_id y)) eqn:Hlt.
    + simpl. now rewrite Hk, String.eqb_refl.
    + destruct (String.ltb (event_id y) event_id_) eqn:Hgt; simpl; rewrite Hy.
      * f_equal. apply IH. intros r Hr. apply Habs. now right.
      * exfalso. apply (Habs y); [now left|].
        now apply string_order.ltb_total.
Qed.

(** The iterator of [submit], as the test after [lower_bound] reads it. *)
Definition located (event_id_ : string) (requests : list request) : option request :=
  match snd (stdset.lower_bound (fun r => request_less_key r event_id_) requests) with
  | found :: _ => if String.eqb (event_id found) event_id_ then Some found else None
  | [] => None
  end.

Lemma located_spec event_id_ (requests : list request) :
  sorted_requests requests ->
  match located event_id_ requests with
  | Some found => In found requests /\ event_id found = event_id_
  | None => absent event_id_ requests
  end.
Proof.
  intros Hs. unfold located.
  pose proof (stdset_spec.lower_bound_key event_id event_id_ requests Hs) as H.
  unfold request_less_key.
  destruct (snd (stdset.lower_bound _ requests)) as [|found it].
  - exact H.
  - destruct H as [Hin Hk].
    destruct (String.eqb_spec (event_id found) event_id_) as [Heq|Hne].
    + now split.
    + destruct Hk as [Hk|Hk]; [contradiction|exact Hk].
Qed.

Lemma submit_located event_id_ room_id_ bufsz_ requests w :
  submit E event_id_ room_id_ bufsz_ requests w =
  if negb (m.defined room_id_ && m.defined event_id_)
  then (Abort, (requests, w))
  else
    match located event_id_ requests with
    | Some found =>
        if String.eqb (room_id found) room_id_
        then (Ret future_invalid, (requests, w))
        else (Abort, (requests, w))
    | None =>
        let requests1 :=
          stdset.emplace request_less (new_request room_id_ event_id_ bufsz_) requests in
        match element event_id_ requests1 with
        | None => (Abort, (requests1, w))
        | Some request0 =>
            let request1 := set_promise promise_pending request0 in
            let '(o, (request2, w')) := start E (request1, w) in
            (match o with
             | Ret _ => Ret (future_of (event_id request1))
             | Throw e => Throw e
             | Abort => Abort
             | Diverge => Diverge
             end, (assign event_id_ request2 requests1, w'))
        end
    end.
Proof.
  unfold submit, located.
  destruct (negb (m.defined room_id_ && m.defined event_id_)); [reflexivity|].
  destruct (match snd (stdset.lower_bound _ requests) with
            | [] => None
            | found :: _ => _
            end); [reflexivity|].
  cbv zeta. destruct (element event_id_ _); [|reflexivity].
  destruct (start E _) as [[b|e| |] [request2 w']]; reflexivity.
Qed.

(** What [submit] does when no request for the event is in the set. *)
Lemma submit_absent event_id_ room_id_ bufsz_ requests w :
  m.defined room_id_ = true -> m.defined event_id_ = true ->
  sorted_requests requests -> absent event_id_ requests ->
  exists request2 w',
    submit E event_id_ room_id_ bufsz_ requests w =
    (Ret (future_of event_id_),
     (stdset.emplace request_less request2 requests, w')) /\
    event_id request2 = event_id_ /\
    room_id request2 = room_id_ /\
    bufsz request2 = bufsz_ /\
    promise request2 <> promise_invalid.
Proof.
  intros Hroom Hevent Hs Habs. rewrite submit_located, Hroom, Hevent. simpl.
  pose proof (located_spec event_id_ requests Hs) as Hloc.
  destruct (located event_id_ requests) as [found|].
  { destruct Hloc as [Hin Hk]. now destruct (Habs found Hin). }
  cbv zeta.
  rewrite (element_emplace_absent event_id_
             (new_request room_id_ event_id_ bufsz_) requests eq_refl Habs).
  set (request1 := set_promise promise_pending (new_request room_id_ event_id_ bufsz_)).
  pose proof (start_returns request1 w eq_refl (stdset_spec.sorted_nil _)) as Hstart.
  unfold wp in Hstart.
  destruct (start E (request1, w)) as [o [request2 w']]. simpl in Hstart.
  destruct Hstart as ((returned & ->) & (Hid & Hrm & Hbuf) & _ & Hp).
  exists request2, w'. simpl in *.
  rewrite (assign_emplace_absent event_id_
             (new_request room_id_ event_id_ bufsz_) request2 requests eq_refl Hid Habs).
  repeat split; auto.
Qed.

(** What [submit] does when a request for the event is in the set. *)
Lemma submit_present event_id_ room_id_ bufsz_ requests w :
  m.defined room_id_ = true -> m.defined event_id_ = true ->
  sorted_requests requests ->
  (exists r, In r requests /\ event_id r = event_id_) ->
  exists found,
    In found requests /\ event_id found = event_id_ /\
    submit E event_id_ room_id_ bufsz_ requests w =
    (if String.eqb (room_id found) room_id_ then Ret future_invalid else Abort,
     (requests, w)).
Proof.
  intros Hroom Hevent Hs (r & Hin & Hk). rewrite submit_located, Hroom, Hevent. simpl.
  pose proof (located_spec event_id_ requests Hs) as Hloc.
  destruct (located event_id_ requests) as [found|].
  - destruct Hloc as [Hf Hkf]. exists found. repeat split; auto.
    now destruct (String.eqb (room_id found) room_id_).
  - now destruct (Hloc r Hin).
Qed.

Lemma submit_sorted event_id_ room_id_ bufsz_ requests w :
  sorted_requests requests ->
  sorted_requests (fst (snd (submit E event_id_ room_id_ bufsz_ requests w))).
Proof.
  intros Hs.
  destruct (m.defined room_id_) eqn:Hroom;
    [destruct (m.defined event_id_) eqn:Hevent|].
  - pose proof (located_spec event_id_ requests Hs) as Hloc.
    destruct (located event_id_ requests) as [found|] eqn:Hl.
    + destruct (submit_present event_id_ room_id_ bufsz_ requests w Hroom Hevent Hs)
        as (f & _ & _ & ->); [now exists found|]. exact Hs.
    + destruct (submit_absent event_id_ room_id_ bufsz_ requests w Hroom Hevent Hs Hloc)
        as (request2 & w' & -> & _). simpl.
      now apply (stdset_spec.emplace_sorted event_id).
  - rewrite submit_located, Hroom, Hevent. exact Hs.
  - rewrite submit_located, Hroom. exact Hs.
Qed.

(** A sequence of submissions, each with the event id, the room id and
    the buffer size of the call. *)
Fixpoint submit_all (calls : list (string * string * N))
    (requests : list request) (w : world) : list request * world :=
  match calls with
  | [] => (requests, w)
  | (event_id_, room_id_, bufsz_) :: rest =>
      let s' := snd (submit E event_id_ room_id_ bufsz_ requests w) in
      submit_all rest (fst s') (snd s')
  end.

Lemma submit_all_sorted calls :
  forall requests w,
    sorted_requests requests -> sorted_requests (fst (submit_all calls requests w)).
Proof.
  induction calls as [|[[event_id_ room_id_] bufsz_] rest IH]; simpl; intros requests w Hs.
  - exact Hs.
  - apply IH. now apply submit_sorted.
Qed.

(** C1.  After any sequence of submissions the set holds at most one
    request for an event id.  A submission for an event that has a
    request in the set inserts nothing, leaves the set and with it that
    request as they were, and returns an empty future.  A submission for
    an event without one inserts exactly one request, for that event and
    room, and returns the future of that request's promise. *)
Theorem submit_spec :
  (forall calls w, NoDup (map event_id (fst (submit_all calls [] w)))) /\
  (forall event_id_ room_id_ bufsz_ requests w found,
     m.defined room_id_ = true -> m.defined event_id_ = true ->
     sorted_requests requests ->
     In found requests -> event_id found = event_id_ -> room_id found = room_id_ ->
     submit E event_id_ room_id_ bufsz_ requests w =
     (Ret future_invalid, (requests, w))) /\
  (forall event_id_ room_id_ bufsz_ requests w,
     m.defined room_id_ = true -> m.defined event_id_ = true ->
     sorted_requests requests ->
     (forall r, In r requests -> event_id r <> event_id_) ->
     exists request_ requests' w',
       submit E event_id_ room_id_ bufsz_ requests w =
       (Ret (future_of event_id_), (requests', w')) /\
       Permutation requests' (request_ :: requests) /\
       NoDup (map event_id requests') /\
       event_id request_ = event_id_ /\
       room_id request_ = room_id_ /\
       promise request_ <> promise_invalid).
Proof.
  split; [|split].
  - intros calls w. apply stdset_spec.sorted_NoDup.
    apply submit_all_sorted. apply stdset_spec.sorted_nil.
  - intros event_id_ room_id_ bufsz_ requests w found Hroom Hevent Hs Hin Hk Hrm.
    destruct (submit_present event_id_ room_id_ bufsz_ requests w Hroom Hevent Hs)
      as (found' & Hin' & Hk' & ->); [now exists found|].
    assert (found' = found)
      by (apply (stdset_spec.sorted_unique event_id _ _ requests Hs); congruence).
    subst found'. now rewrite Hrm, String.eqb_refl.
  - intros event_id_ room_id_ bufsz_ requests w Hroom Hevent Hs Habs.
    destruct (submit_absent event_id_ room_id_ bufsz_ requests w Hroom Hevent Hs Habs)
      as (request2 & w' & Heq & Hid & Hrm & _ & Hp).
    exists request2, (stdset.emplace request_less request2 requests), w'.
    split; [exact Heq|]. split.
    + apply (stdset_spec.emplace_absent event_id). intros y Hy. rewrite Hid.
      now apply Habs.
    + split; [|auto]. apply stdset_spec.sorted_NoDup.
      now apply (stdset_spec.emplace_sorted event_id).
Qed.

(** *** What holds at every step of [start] *)

Section Safe.
(** [J] holds of the request and the world while the request runs, [K]
    once [start] is over; [Rm remote] holds when [remote] is the
    remote to issue to. *)
Variables (J K : st -> Prop) (Rm : string -> st -> Prop).

Hypothesis J_stamp :
  forall r w, J (r, w) -> finished r = 0%Z -> started r = 0%Z ->
              J (set_started (time E (tick w)) r, bump w).
Hypothesis J_select :
  forall r w, J (r, w) ->
    wp (select_random_origin E) (r, w)
       (fun o s' => J s' /\
                    match o with
                    | Ret _ => Rm (origin (fst s')) s'
                    | _ => True
                    end).
Hypothesis J_issue :
  forall remote r w, J (r, w) -> Rm remote (r, w) ->
    wp (start_opts E remote) (r, w) (fun _ s' => J s').
Hypothesis J_eptr : forall e r w, J (r, w) -> J (set_eptr (Some e) r, w).
Hypothesis J_finish :
  forall r w, J (r, w) -> finished r = 0%Z ->
    wp (finish E) (r, w) (fun o s' => o = Ret tt /\ K s').
Hypothesis J_K : forall s, J s -> K s.

Lemma start_loop_safe bound :
  forall remote r w,
    J (r, w) -> (m.defined (origin r) = true -> Rm remote (r, w)) ->
    wp (start_loop E bound remote) (r, w) (fun _ s' => J s').
Proof.
  induction bound as [|bound IH]; intros remote r w HJ HR.
  - apply wp_start_loop_O; auto.
  - apply wp_start_loop_S; [auto|intros Hdef].
    apply wp_bind. eapply wp_mono; [apply J_issue; auto|].
    intros [[|]|e| |] [r' w'] HJ'; cbv iota; auto.
    apply wp_bind. eapply wp_mono; [apply J_select; exact HJ'|].
    intros [o|e| |] [r'' w''] [HJ'' HR'']; cbv iota; auto.
    wp_steps. apply IH; auto.
Qed.

Lemma start_handler_safe e r w :
  J (r, w) -> wp (start_handler e) (r, w) (fun _ s' => K s').
Proof.
  intros HJ. unfold start_handler. wp_steps; [|now apply J_K].
  eapply wp_mono.
  - apply J_finish; [now apply J_eptr|].
    apply Z.eqb_eq. exact Hassert.
  - intros o s' [-> HK]. exact HK.
Qed.

Lemma start_after_loop_safe returned r w :
  J (r, w) ->
  wp (start_after_loop returned) (r, w) (start_caught (fun _ s' => K s')).
Proof.
  intros HJ. unfold start_after_loop. destruct returned; wp_steps.
  - now apply J_K.
  - eapply wp_mono; [apply J_finish; [exact HJ|now apply Z.eqb_eq]|].
    intros o s' [-> HK]. exact HK.
  - now apply J_K.
Qed.

Lemma loop_then_safe remote r w :
  J (r, w) -> (m.defined (origin r) = true -> Rm remote (r, w)) ->
  wp (returned <- start_loop E (S (List.length (origins E (room_id r)))) remote ;;
      start_after_loop returned)
     (r, w) (start_caught (fun _ s' => K s')).
Proof.
  intros HJ HR. apply wp_bind. eapply wp_mono; [now apply start_loop_safe|].
  intros [returned|e| |] [r' w'] HJ'; cbv iota.
  - now apply start_after_loop_safe.
  - now apply start_handler_safe.
  - now apply J_K.
  - now apply J_K.
Qed.

Lemma start_safe r w :
  J (r, w) ->
  (m.defined (origin r) = true ->
   forall r' w', J (r', w') -> origin r' = origin r -> Rm "" (r', w')) ->
  wp (start E) (r, w) (fun _ s' => K s').
Proof.
  intros HJ HR. apply wp_start. unfold start_body.
assert (Hselect : forall r1 w1, J (r1, w1) ->
            wp (select_random_origin E) (r1, w1)
               (fun o s' =>
                  match o with
                  | Ret _ =>
                      wp (r <- this_request ;; ret (origin r)) s'
                         (fun o0 s'0 =>
                            match o0 with
                            | Ret a0 =>
                                wp (r <- this_request ;;
                                    returned <- start_loop E
                                      (S (List.length (origins E (room_id r)))) a0 ;;
                                    start_after_loop returned)
                                   s'0 (start_caught (fun _ s'1 => K s'1))
                            | Throw e =>
                                start_caught (fun _ s'1 => K s'1) (Throw e) s'0
                            | Abort => start_caught (fun _ s'1 => K s'1) Abort s'0
                            | Diverge => start_caught (fun _ s'1 => K s'1) Diverge s'0
                            end)
                  | Throw e => start_caught (fun _ s'1 => K s'1) (Throw e) s'
                  | Abort => start_caught (fun _ s'1 => K s'1) Abort s'
                  | Diverge => start_caught (fun _ s'1 => K s'1) Diverge s'
                  end)).
  { intros r1 w1 HJ1.
    eapply wp_mono; [apply J_select; exact HJ1|].
    intros [o|e| |] [r' w'] [HJ' HR']; cbv iota.
    - wp_steps. apply loop_then_safe; auto.
    - now apply start_handler_safe.
    - now apply J_K.
    - now apply J_K. }
  wp_steps.
  - apply Hselect. apply J_stamp; auto; now apply Z.eqb_eq.
  - apply loop_then_safe.
    + apply J_stamp; auto; now apply Z.eqb_eq.
    + intros _. apply HR; auto.
      * simpl in *. now apply Bool.negb_false_iff.
      * apply J_stamp; auto; now apply Z.eqb_eq.
  - now apply Hselect.
  - apply loop_then_safe; [exact HJ|].
    intros Hdef. now apply HR.
  - now apply J_K.
Qed.
End Safe.

(** *** The requests issued *)

(** A federation request was issued to the origin selected for the
    request, and that origin was among the attempted ones by then. *)
Definition well_issued (entry : string * request) : Prop :=
  fst entry = origin (snd entry) /\ In (fst entry) (attempted (snd entry)).

Definition issued_since (w0 : world) (s : st) : Prop :=
  exists new, issued (snd s) = issued w0 ++ new /\ Forall well_issued new.

Definition issuing (w0 : world) (s : st) : Prop :=
  issued_since w0 s /\ sorted_attempted (fst s).

Definition selected (remote : string) (s : st) : Prop :=
  remote = origin (fst s) /\ In remote (attempted (fst s)).

Lemma issuing_select w0 r w :
  issuing w0 (r, w) ->
  wp (select_random_origin E) (r, w)
     (fun o s' => issuing w0 s' /\
                  match o with
                  | Ret _ => selected (origin (fst s')) s'
                  | _ => True
                  end).
Proof.
  intros [Hlog Hs]. wp_leaf.
  destruct (random _ _ _) as [o|]; [|now repeat split].
  assert (Hs' : stdset_spec.sorted (fun x : string => x)
                  (stdset.emplace String.ltb o (attempted r)))
    by now apply (stdset_spec.emplace_sorted (fun x : string => x)).
  assert (Hin : In o (stdset.emplace String.ltb o (attempted r)))
    by now apply In_emplace_self.
  destruct (m.defined o); repeat split; auto.
Qed.

Lemma issuing_issue w0 remote r w :
  issuing w0 (r, w) -> selected remote (r, w) ->
  wp (start_opts E remote) (r, w) (fun _ s' => issuing w0 s').
Proof.
  intros [(new & Hlog & Hnew) Hs] [Hremote Hin]. simpl in *. wp_leaf.
  destruct (Z.eqb (finished r) 0); [|split; [now exists new|exact Hs]].
  assert (Hs1 : sorted_attempted
                  (if Z.eqb (started r) 0 then set_started (time E (tick w)) r else r))
    by now destruct (Z.eqb (started r) 0).
  assert (Hlog1 : issued (if Z.eqb (started r) 0 then bump w else w)
                  = issued w0 ++ new)
    by now destruct (Z.eqb (started r) 0).
  destruct (issue E _ remote).
  - split; [now exists new|exact Hs1].
  - split; [|exact Hs1]. exists (new ++ [(remote,
        set_transport (Some remote)
          (set_last (time E (tick (if Z.eqb (started r) 0 then bump w else w)))
             (if Z.eqb (started r) 0 then set_started (time E (tick w)) r else r)))]).
    simpl. rewrite Hlog1, app_assoc. split; [reflexivity|].
    apply Forall_app. split; [exact Hnew|]. constructor; [|constructor].
    split; simpl; now destruct (Z.eqb (started r) 0).
Qed.

Lemma start_issuing r w :
  sorted_attempted r -> origin r = "" ->
  wp (start E) (r, w) (fun _ s' => issued_since w s').
Proof.
  intros Hs Horigin.
  apply (start_safe (issuing w) (issued_since w) selected).
  - intros r1 w1 [Hlog Hs1] _ _. split; [exact Hlog|exact Hs1].
  - apply issuing_select.
  - apply issuing_issue.
  - intros e r1 w1 [Hlog Hs1]. split; [exact Hlog|exact Hs1].
  - intros r1 w1 [Hlog Hs1] _. wp_leaf. split; [reflexivity|exact Hlog].
  - intros s1 [Hlog _]. exact Hlog.
  - split; [|exact Hs]. exists []. split; [now rewrite app_nil_r|constructor].
  - rewrite Horigin. discriminate.
Qed.

(** C2.  The origin [select_random_origin] selects is one of the room's
    origins, it is not the local server, it was not attempted before and
    it has no error latched at the time of the selection; the request
    has it as its origin and among its attempted origins when the call
    returns, and the call issues nothing.  The call throws
    [m::NOT_FOUND] when no origin of the room passes the three tests,
    and throws nothing else.  Every federation request [start] issues
    goes to the selected origin, which is among the attempted ones when
    the request is issued. *)
Theorem select_random_origin_spec :
  (forall r w,
     sorted_attempted r ->
     match select_random_origin E (r, w) with
     | (Ret o, (r', w')) =>
         In o (origins E (room_id r)) /\
         my_host E o = false /\
         ~ In o (attempted r) /\
         errmsg E (tick w) o = false /\
         origin r' = o /\
         In o (attempted r') /\
         sorted_attempted r' /\
         issued w' = issued w
     | (Throw e, _) => e = m_NOT_FOUND
     | _ => False
     end) /\
  (forall r w,
     sorted_attempted r ->
     (forall o, In o (origins E (room_id r)) ->
                my_host E o = true \/ In o (attempted r) \/ errmsg E (tick w) o = true) ->
     fst (select_random_origin E (r, w)) = Throw m_NOT_FOUND) /\
  (forall r w,
     sorted_attempted r -> origin r = "" ->
     exists new,
       issued (snd (snd (start E (r, w)))) = issued w ++ new /\
       forall remote snapshot,
         In (remote, snapshot) new ->
         remote = origin snapshot /\ In remote (attempted snapshot)).
Proof.
  split; [|split].
  - intros r w Hs. rewrite select_random_origin_eq. cbv zeta.
    destruct (random _ _ _) as [o|] eqn:Hrandom; [|reflexivity].
    destruct (m.defined o); [|reflexivity].
    apply random_proffer in Hrandom.
    destruct Hrandom as (Hin & Hhost & Hcount & Herr).
    repeat split; auto.
    + intros Hatt.
      assert (Ht : stdset.count String.ltb o (attempted r) = true)
        by (apply (stdset_spec.count_true (fun x : string => x) o _ Hs); now exists o).
      congruence.
    + simpl. now apply In_emplace_self.
    + now apply (stdset_spec.emplace_sorted (fun x : string => x)).
  - intros r w Hs Hnone. rewrite select_random_origin_eq. cbv zeta.
    assert (Hr : random (origins E (room_id r)) (rand E (tick w))
                   (proffer E r (tick w)) = None).
    { apply random_None. intros o Ho.
      destruct (proffer E r (tick w) o) eqn:Hp; [|reflexivity].
      apply proffer_true in Hp. destruct Hp as (Hhost & Hcount & Herr).
      destruct (Hnone o Ho) as [H|[H|H]]; try congruence.
      assert (Ht : stdset.count String.ltb o (attempted r) = true)
        by (apply (stdset_spec.count_true (fun x : string => x) o _ Hs); now exists o).
      congruence. }
    now rewrite Hr.
  - intros r w Hs Horigin.
    pose proof (start_issuing r w Hs Horigin) as (new & Hlog & Hnew).
    exists new. split; [exact Hlog|].
    intros remote snapshot Hin. rewrite Forall_forall in Hnew.
    exact (Hnew _ Hin).
Qed.

(** *** The time stamps *)

(** The entry points that work on a request. *)
Inductive action : Type :=
| Start
| Retry
| Handle (response : outcome m.event)
| Finish.

Definition act (a : action) : M unit :=
  match a with
  | Start => start E ;; ret tt
  | Retry => retry E
  | Handle response => handle E response ;; ret tt
  | Finish => finish E
  end.

(** The actions in turn, up to a failed assertion. *)
Fixpoint run_actions (actions : list action) (s : st) : st :=
  match actions with
  | [] => s
  | a :: rest =>
      match act a s with
      | (Ret _, s') | (Throw _, s') => run_actions rest s'
      | (_, s') => s'
      end
  end.

Section Clock.
(** The clock does not run backwards and reads a time after the
    epoch. *)
Hypothesis clock_mono : forall i j, i <= j -> (time E i <= time E j)%Z.
Hypothesis clock_pos : forall i, (0 < time E i)%Z.

(** No stamp is later than a time yet to be read; [last] is set only
    when [started] is, and then not before it; [finished], when set,
    is before neither. *)
Definition stamps (s : st) : Prop :=
  (forall t, tick (snd s) <= t ->
     (started (fst s) <= time E t /\ last (fst s) <= time E t /\
      finished (fst s) <= time E t)%Z) /\
  (started (fst s) = 0 -> last (fst s) = 0)%Z /\
  (last (fst s) = 0 \/ started (fst s) <= last (fst s))%Z /\
  (finished (fst s) = 0 \/
   (last (fst s) <= finished (fst s) /\ started (fst s) <= finished (fst s)))%Z.

Ltac clock w :=
  unfold stamps; cbn [fst snd tick issued bump]; intros;
  repeat match goal with
         | H : _ /\ _ |- _ => destruct H
         end;
  repeat split; intros;
  try match goal with
      | HA : forall t, tick w <= t -> _, Ht : _ <= ?t |- _ =>
          pose proof (HA t); pose proof (clock_mono (tick w) t);
          pose proof (clock_mono (S (tick w)) t)
      end;
  try match goal with
      | HA : forall t, tick w <= t -> _ |- _ =>
          pose proof (HA (tick w)); pose proof (HA (S (tick w)))
      end;
  pose proof (clock_mono (tick w) (S (tick w)));
  pose proof (clock_pos (tick w)); pose proof (clock_pos (S (tick w)));
  simpl in *; try lia.

Lemma stamps_same r w r' w' :
  started r' = started r -> last r' = last r -> finished r' = finished r ->
  tick w <= tick w' ->
  stamps (r, w) -> stamps (r', w').
Proof.
  unfold stamps. cbn [fst snd]. intros -> -> -> Hw (HA & HD & HB & HC).
  repeat split; auto; apply HA; lia.
Qed.

Lemma stamps_stamp r w :
  stamps (r, w) -> finished r = 0%Z -> started r = 0%Z ->
  stamps (set_started (time E (tick w)) r, bump w).
Proof. clock w. Qed.

Lemma stamps_select r w :
  stamps (r, w) ->
  wp (select_random_origin E) (r, w)
     (fun o s' => stamps s' /\ match o with Ret _ => True | _ => True end).
Proof.
  intros H. wp_leaf.
  destruct (random _ _ _) as [o|]; [destruct (m.defined o)|];
    (split; [|exact I]); revert H; apply stamps_same; simpl; auto.
Qed.

Lemma stamps_issue remote r w :
  stamps (r, w) -> True ->
  wp (start_opts E remote) (r, w) (fun _ s' => stamps s').
Proof.
  intros H _. wp_leaf.
  destruct (Z.eqb_spec (finished r) 0) as [Hfin|Hfin]; [|exact H].
  destruct (Z.eqb_spec (started r) 0) as [Hst|Hst];
    destruct (issue E _ remote); revert H Hfin Hst; clock w.
Qed.

Lemma stamps_finish r w :
  stamps (r, w) ->
  wp (finish E) (r, w) (fun o s' => o = Ret tt /\ stamps s').
Proof.
  intros H. wp_leaf. split; [reflexivity|].
  assert (Hf : stamps (set_finished (time E (tick w)) r, bump w))
    by (revert H; clock w).
  revert Hf. apply stamps_same; auto;
    destruct (promise r); try destruct (eptr r); reflexivity.
Qed.

Lemma start_stamps r w :
  stamps (r, w) -> wp (start E) (r, w) (fun _ s' => stamps s').
Proof.
  intros H. apply (start_safe stamps stamps (fun _ _ => True)).
  - intros r1 w1 H1 Hfin Hst. now apply stamps_stamp.
  - apply stamps_select.
  - apply stamps_issue.
  - intros e r1 w1. now apply stamps_same.
  - intros r1 w1 H1 _. now apply stamps_finish.
  - auto.
  - exact H.
  - auto.
Qed.

Lemma retry_stamps r w :
  stamps (r, w) -> wp (retry E) (r, w) (fun _ s' => stamps s').
Proof.
  intros H. unfold retry. wp_steps; auto.
  eapply wp_mono.
  - apply start_stamps. revert H. now apply stamps_same.
  - intros [b|e| |] [r' w'] H'; cbv iota; auto.
    wp_steps. eapply wp_mono; [apply stamps_finish|].
    + revert H'. now apply stamps_same.
    + now intros o s' [_ Hs].
Qed.

Lemma handle_tail_stamps r w :
  stamps (r, w) ->
  wp (r <- this_request ;;
      match eptr r with
      | None => finish E
      | Some _ => retry E
      end ;;
      r <- this_request ;;
      ret (negb (Z.eqb (finished r) 0)))
     (r, w) (fun _ s' => stamps s').
Proof.
  intros H. apply wp_bind, wp_this_request. cbv beta iota. cbn [fst].
  apply wp_bind. destruct (eptr r).
  - eapply wp_mono; [now apply retry_stamps|].
    intros [[]|e'| |] [r' w'] H'; cbv iota; auto.
  - eapply wp_mono; [now apply stamps_finish|].
    intros o [r' w'] [-> H']. exact H'.
Qed.

Lemma handle_stamps response r w :
  stamps (r, w) -> wp (handle E response) (r, w) (fun _ s' => stamps s').
Proof.
  intros H. unfold handle.
  assert (Hcaught : forall e,
            wp (modify (set_eptr (Some e))) (r, w)
               (fun o s' =>
                  match o with
                  | Ret _ =>
                      wp (r <- this_request ;;
                          match eptr r with
                          | None => finish E
                          | Some _ => retry E
                          end ;;
                          r <- this_request ;;
                          ret (negb (Z.eqb (finished r) 0)))
                         s' (fun _ s'0 => stamps s'0)
                  | _ => stamps s'
                  end)).
  { intros e. apply wp_modify. cbv beta iota. cbn [fst snd].
    apply handle_tail_stamps. revert H. now apply stamps_same. }
  apply wp_bind, wp_try_catch, wp_bind, wp_this_request.
  cbv beta iota. cbn [fst]. apply wp_bind, wp_lift.
  destruct response as [ev|e| |]; cbv iota; [|exact (Hcaught e)|exact H|exact H].
  apply wp_lift.
  destruct (check_response E r ev) as [[]|e| |]; cbv iota;
    [|exact (Hcaught e)|exact H|exact H].
  now apply handle_tail_stamps.
Qed.

Lemma act_stamps a s : stamps s -> stamps (snd (act a s)).
Proof.
  destruct s as [r w]. intros H.
  change (wp (act a) (r, w) (fun _ s' => stamps s')).
  destruct a as [| |response|]; simpl.
  - apply wp_bind. eapply wp_mono; [now apply start_stamps|].
    intros [b|e| |] s' H'; auto.
  - now apply retry_stamps.
  - apply wp_bind. eapply wp_mono; [now apply handle_stamps|].
    intros [b|e| |] s' H'; auto.
  - eapply wp_mono; [now apply stamps_finish|]. now intros o s' [_ H'].
Qed.

Lemma run_actions_stamps actions :
  forall s, stamps s -> stamps (run_actions actions s).
Proof.
  induction actions as [|a rest IH]; simpl; intros s H; [exact H|].
  pose proof (act_stamps a s H) as H'.
  destruct (act a s) as [[u|e| |] s']; simpl in H'; auto.
Qed.

Lemma new_request_stamps room_id_ event_id_ bufsz_ w :
  stamps (new_request room_id_ event_id_ bufsz_, w).
Proof.
  unfold stamps. simpl. repeat split; auto;
    pose proof (clock_pos t); lia.
Qed.

(** C9, amended.  With a clock that does not run backwards and reads
    times after the epoch: a request that has gone from its
    construction through any of the actions and is finished has
    [last <= finished] and [started <= finished], and has
    [started <= last] when it was issued at all, that is when [last]
    is set.  A request that never found an origin to issue to is
    finished with [last] still 0. *)
Theorem finished_stamps actions room_id_ event_id_ bufsz_ w :
  let r := fst (run_actions actions (new_request room_id_ event_id_ bufsz_, w)) in
  (0 < finished r)%Z ->
  (last r <= finished r)%Z /\
  (started r <= finished r)%Z /\
  (last r <> 0%Z -> started r <= last r)%Z.
Proof.
  cbv zeta.
  pose proof (run_actions_stamps actions _
                (new_request_stamps room_id_ event_id_ bufsz_ w)) as H.
  destruct H as (_ & _ & HB & HC). intros Hfin. lia.
Qed.
End Clock.

End Unit.

(** ** The unit at work *)

(** The server [me.org] in a room with [s1.org] and [s2.org]; requests to
    [s1.org] cannot be constructed; every key is cached and every
    signature verifies. *)
Definition env0 : env :=
  mk_env (fun o => String.eqb o "me.org")
         (fun _ => ["me.org"; "s1.org"; "s2.org"])
         (fun t => 1000 + Z.of_nat t)%Z
         (fun t => t)
         (fun _ _ => false)
         (fun _ remote => if String.eqb remote "s1.org" then Some http_error else None)
         true false 1
         (fun _ => true)
         (fun _ => "$claim")
         (fun _ => true)
         (fun _ => "")
         (fun _ _ => true)
         (fun _ _ => true).

(** The same server alone in its room, with no key cached. *)
Definition env1 : env :=
  mk_env (fun o => String.eqb o "me.org")
         (fun _ => ["me.org"])
         (fun t => 1000 + Z.of_nat t)%Z
         (fun t => t)
         (fun _ _ => false)
         (fun _ _ => None)
         true false 1
         (fun _ => true)
         (fun _ => "$claim")
         (fun _ => true)
         (fun _ => "")
         (fun _ _ => false)
         (fun _ _ => true).

Definition w0 : world := mk_world 0 [].

Lemma env0_mono i j : i <= j -> (time env0 i <= time env0 j)%Z.
Proof. unfold env0. cbn [time]. lia. Qed.

Lemma env0_pos i : (0 < time env0 i)%Z.
Proof. unfold env0. cbn [time]. lia. Qed.

(** A request issued to [s2.org], whose response is an HTTP error, retried
    with [s1.org] in vain and finished for want of another origin. *)
Definition exhausted : request :=
  fst (run_actions env0 [Start; Handle (Throw http_error)]
         (new_request "!room:me.org" "$event" 8192, w0)).

Example exhausted_stamps :
  (started exhausted, last exhausted, finished exhausted) = (1000, 1005, 1008)%Z /\
  attempted exhausted = ["s1.org"; "s2.org"] /\
  promise exhausted = promise_invalid /\
  eptr exhausted = Some m_NOT_FOUND.
Proof. vm_compute. repeat split. Qed.

(** C9, amended, at that request. *)
Lemma finished_stamps_witness :
  (0 < finished exhausted)%Z /\
  ((last exhausted <= finished exhausted)%Z /\
   (started exhausted <= finished exhausted)%Z /\
   (last exhausted <> 0%Z -> (started exhausted <= last exhausted)%Z)).
Proof.
  split; [vm_compute; reflexivity|].
  apply (finished_stamps env0 env0_mono env0_pos
           [Start; Handle (Throw http_error)] "!room:me.org" "$event" 8192 w0).
  vm_compute. reflexivity.
Defined.

(** C9, as stated, fails: alone in its room the server finds no origin to
    ask, and the request is finished without ever being issued, its [last]
    still 0 and so before [started]. *)
Lemma never_issued_counterexample :
  let r := fst (run_actions env1 [Start]
                  (new_request "!room:me.org" "$event" 8192, w0)) in
  (0 < finished r)%Z /\ (last r < started r)%Z /\
  (started r, last r, finished r) = (1000, 0, 1002)%Z.
Proof. vm_compute. repeat split. Qed.

(** C1 at the first submission to an empty set. *)
Lemma submit_witness :
  exists request_ requests' w',
    submit env0 "$event" "!room:me.org" 8192 [] w0 =
    (Ret (future_of "$event"), (requests', w')) /\
    Permutation requests' (request_ :: []) /\
    NoDup (map event_id requests') /\
    event_id request_ = "$event" /\
    room_id request_ = "!room:me.org" /\
    promise request_ <> promise_invalid.
Proof.
  apply (proj2 (proj2 (submit_spec env0)) "$event" "!room:me.org" 8192%N [] w0).
  - reflexivity.
  - reflexivity.
  - apply stdset_spec.sorted_nil.
  - intros r [].
Defined.

(** C2 at the first selection for a new request. *)
Lemma select_random_origin_witness :
  match select_random_origin env0
          (new_request "!room:me.org" "$event" 8192, mk_world 1 []) with
  | (Ret o, (r', w')) =>
      In o (origins env0 "!room:me.org") /\
      my_host env0 o = false /\
      ~ In o [] /\
      errmsg env0 1 o = false /\
      origin r' = o /\
      In o (attempted r') /\
      sorted_attempted r' /\
      issued w' = []
  | (Throw e, _) => e = m_NOT_FOUND
  | _ => False
  end.
Proof.
  apply (proj1 (select_random_origin_spec env0)
           (new_request "!room:me.org" "$event" 8192) (mk_world 1 [])).
  apply stdset_spec.sorted_nil.
Defined.

(** A first selection for a new request, which draws [s2.org] among
    [s1.org] and [s2.org]; and a selection in a room without another
    server. *)
Example select_first :
  let '(o, (r, w)) :=
    select_random_origin env0 (new_request "!room:me.org" "$event" 8192, mk_world 1 []) in
  o = Ret "s2.org" /\ origin r = "s2.org" /\ attempted r = ["s2.org"] /\ issued w = [].
Proof. vm_compute. repeat split. Qed.

Example select_none :
  fst (select_random_origin env1 (new_request "!room:me.org" "$event" 8192, w0))
  = Throw m_NOT_FOUND.
Proof. reflexivity. Qed.

(** Two submissions for the same event: the second finds the request of
    the first and the set keeps one request. *)
Example submit_twice :
  let '(first, (requests1, w1)) :=
    submit env0 "$event" "!room:me.org" 8192 [] w0 in
  let '(second, (requests2, w2)) :=
    submit env0 "$event" "!room:me.org" 8192 requests1 w1 in
  first = Ret (future_of "$event") /\
  second = Ret future_invalid /\
  List.length requests2 = 1 /\ requests2 = requests1 /\
  map fst (issued w2) = ["s2.org"].
Proof. vm_compute. repeat split. Qed.

(** ** Response validation *)

(** An event of [remote.org], signed by [remote.org]. *)
Definition response0 : m.event :=
  m.mk_event "" 7 1573000000000 "remote.org" "@alice:remote.org"
             (Some [("remote.org", [("ed25519:auto", "c2lnbmF0dXJl")])]).

(** The same event from a server that calls itself [server]. *)
Definition response1 : m.event :=
  m.mk_event "" 7 1573000000000 "server" "@alice:server"
             (Some [("server", [("ed25519:auto", "c2lnbmF0dXJl")])]).

(** The signatures are looked up under the name [server], whichever
    server the event is attributed to: without such a member the response
    is rejected before the key cache is asked. *)
Lemma check_response_signature_member (E : env) (event : m.event) all :
  m.defined (m.origin event) = true ->
  m.signatures event = Some all ->
  json.find "server" all = None ->
  check_response_signature E event = Throw (json_not_found "server").
Proof.
  intros Horigin Hsig Hfind. unfold check_response_signature.
  rewrite Horigin, Hsig. simpl. unfold json.at_. now rewrite Hfind.
Qed.

(** With a member [server] the first key named there decides: when it is
    cached for the server the event is attributed to, the signature of that
    server is verified and the response rejected when it fails; when it is
    not, nothing is verified. *)
Lemma check_response_signature_found (E : env) (event : m.event)
    all key_id signature others :
  m.defined (m.origin event) = true ->
  m.signatures event = Some all ->
  json.find "server" all = Some ((key_id, signature) :: others) ->
  m.defined key_id = true ->
  check_response_signature E event =
  if cache_has E (m.origin event) key_id
  then if verify E event (m.origin event)
       then Ret tt
       else Throw (ircd_error "Signature verification failed.")
  else Ret tt.
Proof.
  intros Horigin Hsig Hfind Hkey. unfold check_response_signature.
  rewrite Horigin, Hsig. simpl. unfold json.at_. rewrite Hfind, Hkey. simpl.
  destruct (cache_has E (m.origin event) key_id); [|reflexivity].
  now destruct (verify E event (m.origin event)).
Qed.

(** C3 at a response the code is wrong about.  The response is an event
    of [remote.org] with a signature of [remote.org].  With the key cached
    and the signature verifying, and also with the key not cached, the
    claim has the response accepted; [check_response] rejects it, because
    it finds no member [server] among the signatures.  An event of a
    server named [server] is treated as the claim says. *)
Theorem check_response_signature_literal :
  conf_check_signature env0 <> 0%Z /\
  m.origin_of response0 = "remote.org" /\
  cache_has env0 "remote.org" "ed25519:auto" = true /\
  verify env0 (with_event_id "$event" response0) "remote.org" = true /\
  check_response env0 (new_request "!room:me.org" "$event" 8192) response0
  = Throw (json_not_found "server") /\
  cache_has env1 "remote.org" "ed25519:auto" = false /\
  check_response env1 (new_request "!room:me.org" "$event" 8192) response0
  = Throw (json_not_found "server") /\
  check_response env0 (new_request "!room:me.org" "$event" 8192) response1
  = Ret tt.
Proof. vm_compute. repeat split; discriminate. Qed.

End fetch_spec.

(** * Properties of the scans, the counts and the sort of the registry *)

Module vm_registry_spec.

Import vm vm_registry.

(** ** The next sequence number *)

(** What the loop of [seqnext] has kept after the evaluations of [l]. *)
Definition seqnext_kept (seq : N) (l : instance_list)
    (ret : option (addr * eval)) : Prop :=
  match ret with
  | None => forall x, In x l -> (seq_of x <= seq)%N
  | Some r =>
      exists before after,
        l = before ++ r :: after /\ (seq < seq_of r)%N /\
        (forall x, In x before -> (seq < seq_of x)%N -> (seq_of r < seq_of x)%N) /\
        (forall x, In x after -> (seq < seq_of x)%N -> (seq_of r <= seq_of x)%N)
  end.

Lemma seqnext_scan (seq : N) (l : instance_list) :
  seqnext_kept seq l (fold_left (seqnext_step seq) l None).
Proof.
  induction l as [|x l IH] using rev_ind.
  - intros x [].
  - rewrite fold_left_app. simpl.
    destruct (fold_left (seqnext_step seq) l None) as [r|]; unfold seqnext_step.
    + destruct IH as (before & after & -> & Hr & Hb & Ha).
      destruct (N.leb_spec (seq_of x) seq) as [Hle|Hgt].
      * exists before, (after ++ [x]). rewrite <- app_assoc. simpl.
        repeat split; auto.
        intros y Hy Hpos. apply in_app_or in Hy.
        destruct Hy as [Hy|[<-|[]]]; [now apply Ha|lia].
      * destruct (N.ltb_spec (seq_of x) (seq_of r)) as [Hlt|Hge].
        -- exists (before ++ r :: after), []. repeat split; auto.
           ++ intros y Hy Hpos. apply in_app_or in Hy.
              destruct Hy as [Hy|[<-|Hy]].
              ** specialize (Hb _ Hy Hpos). lia.
              ** exact Hlt.
              ** specialize (Ha _ Hy Hpos). lia.
           ++ intros y [].
        -- exists before, (after ++ [x]). rewrite <- app_assoc. simpl.
           repeat split; auto.
           intros y Hy Hpos. apply in_app_or in Hy.
           destruct Hy as [Hy|[<-|[]]]; [now apply Ha|lia].
    + simpl in IH. destruct (N.leb_spec (seq_of x) seq) as [Hle|Hgt].
      * intros y Hy. apply in_app_or in Hy.
        destruct Hy as [Hy|[<-|[]]]; [now apply IH|exact Hle].
      * exists l, []. repeat split; auto.
        -- intros y Hy Hpos. specialize (IH _ Hy). lia.
        -- intros y [].
Qed.

(** X1.  [seqnext(seq)] answers the first evaluation on the list whose
    sequence number is the least of those greater than [seq], and
    nothing exactly when no sequence number on the list is greater than
    [seq]; its assertion holds on every list. *)
Theorem seqnext_spec (seq : N) (l : instance_list) :
  match seqnext seq l with
  | Ret (Some a) =>
      exists e before after,
        l = before ++ (a, e) :: after /\ (seq < sequence e)%N /\
        (forall x, In x before -> (seq < seq_of x)%N -> (sequence e < seq_of x)%N) /\
        (forall x, In x after -> (seq < seq_of x)%N -> (sequence e <= seq_of x)%N)
  | Ret None => forall x, In x l -> (seq_of x <= seq)%N
  | _ => False
  end.
Proof.
  unfold seqnext. pose proof (seqnext_scan seq l) as H.
  destruct (fold_left (seqnext_step seq) l None) as [[a e]|]; [|exact H].
  destruct H as (before & after & Hl & Hr & Hb & Ha).
  destruct (N.ltb_spec seq (seq_of (a, e))) as [_|Hge]; [|lia].
  exists e, before, after. repeat split; auto.
Qed.

(** The pointer [seqnext(0)] keeps, read off the element [std::min_element]
    is at. *)
Definition sequenced_or_none (x : addr * eval) : option (addr * eval) :=
  if N.eqb (seq_of x) 0 then None else Some x.

Lemma seqnext_min_scan (rest : instance_list) :
  forall x,
    fold_left (seqnext_step 0) rest (sequenced_or_none x) =
    sequenced_or_none (min_scan seqmin_comp x rest).
Proof.
  induction rest as [|y rest IH]; intros x; simpl; [reflexivity|].
  rewrite <- IH. f_equal.
  unfold seqnext_step, sequenced_or_none, seqmin_comp.
  destruct (N.eqb_spec (seq_of y) 0) as [Hy|Hy].
  - rewrite Hy. simpl. reflexivity.
  - destruct (N.leb_spec (seq_of y) 0) as [Hle|_]; [lia|].
    destruct (N.eqb_spec (seq_of x) 0) as [Hx|Hx].
    + destruct (N.eqb_spec (seq_of y) 0); [contradiction|reflexivity].
    + destruct (N.ltb (seq_of y) (seq_of x)).
      * destruct (N.eqb_spec (seq_of y) 0); [contradiction|reflexivity].
      * destruct (N.eqb_spec (seq_of x) 0); [contradiction|reflexivity].
Qed.

(** X2.  [seqnext(0)] and [seqmin()] answer the same evaluation, on every
    list. *)
Theorem seqnext_zero_seqmin (l : instance_list) :
  seqnext 0 l = Ret (seqmin l).
Proof.
  unfold seqnext, seqmin. destruct l as [|x rest]; [reflexivity|].
  simpl.
  assert (Hfirst : seqnext_step 0 None x = sequenced_or_none x).
  { unfold seqnext_step, sequenced_or_none.
    destruct (N.leb_spec (seq_of x) 0), (N.eqb_spec (seq_of x) 0);
      try reflexivity; lia. }
  rewrite Hfirst, seqnext_min_scan. unfold sequenced_or_none.
  destruct (N.eqb_spec (seq_of (min_scan seqmin_comp x rest)) 0) as [Hz|Hnz];
    [reflexivity|].
  destruct (N.ltb_spec 0 (seq_of (min_scan seqmin_comp x rest))); [reflexivity|lia].
Qed.

(** ** The count by event id *)

Lemma count_from event_id_ (l : instance_list) :
  forall n,
    fst (for_each
           (fun (ret : nat) (e : addr * eval) =>
              ((if refers event_id_ (snd e) then S ret else ret), true))
           l n)
    = n + List.length (filter (fun x => refers event_id_ (snd x)) l).
Proof.
  induction l as [|x rest IH]; intros n; simpl; [lia|].
  rewrite IH. destruct (refers event_id_ (snd x)); simpl; lia.
Qed.

Lemma filter_none {A : Type} (f : A -> bool) (l : Datatypes.list A) :
  (forall x, In x l -> f x = false) -> filter f l = [].
Proof.
  induction l as [|x rest IH]; simpl; intros H; [reflexivity|].
  rewrite (H x (or_introl eq_refl)). apply IH. intros y Hy. apply H. now right.
Qed.

(** X3.  [count(event_id)] is the number of live evaluations that refer
    to the event id in the way of [find]; it is 0 exactly when
    [find(event_id)] answers nothing, that is exactly when
    [get(event_id)] throws. *)
Theorem count_spec (event_id_ : string) (s : state) :
  count event_id_ (list s)
  = List.length (filter (fun x => refers event_id_ (snd x)) (list s)) /\
  (count event_id_ (list s) = 0 <-> find event_id_ (list s) = None) /\
  (count event_id_ (list s) = 0 <->
   fst (get event_id_ s)
   = Throw (std_out_of_range "eval::get(): event_id not being evaluated.")).
Proof.
  assert (Hcount : count event_id_ (list s)
                   = List.length (filter (fun x => refers event_id_ (snd x)) (list s)))
    by (unfold count; now rewrite count_from).
  assert (Hfind : count event_id_ (list s) = 0 <-> find event_id_ (list s) = None).
  { rewrite Hcount. pose proof (vm_spec.find_first event_id_ (list s)) as H.
    destruct (find event_id_ (list s)) as [a|].
    - destruct H as (e & before & after & -> & Hr & _).
      rewrite filter_app. simpl. rewrite Hr, length_app. simpl.
      split; [lia|discriminate].
    - split; [reflexivity|intros _]. now rewrite filter_none. }
  split; [exact Hcount|]. split; [exact Hfind|].
  rewrite Hfind. unfold get.
  destruct (find event_id_ (list s)); simpl; split; congruence.
Qed.

(** ** The events in evaluation *)

(** The events [for_each_pdu] visits: the events of the batch of a live
    evaluation, and the event body of a live evaluation without a batch. *)
Definition in_evaluation (l : instance_list) (ev : m.event) : Prop :=
  exists a e, In (a, e) l /\
              (In ev (pdus e) \/ (pdus e = [] /\ event_ e = Some ev)).

Definition find_pdu_closure (event_id_ : string) (ret : option m.event)
    (event : m.event) : option m.event * bool :=
  if negb (String.eqb (m.event_id event) event_id_)
  then (ret, true)
  else (Some event, false).

Lemma find_pdu_in_spec event_id_ (pdus_ : Datatypes.list m.event) :
  match find_pdu_in event_id_ pdus_ with
  | Some ev => In ev pdus_ /\ m.event_id ev = event_id_
  | None => forall ev, In ev pdus_ -> m.event_id ev <> event_id_
  end.
Proof.
  induction pdus_ as [|event rest IH]; simpl.
  - intros ev [].
  - destruct (String.eqb_spec (m.event_id event) event_id_) as [Heq|Hne]; simpl.
    + split; [now left|exact Heq].
    + destruct (find_pdu_in event_id_ rest) as [ev|].
      * destruct IH as [Hin Hid]. split; [now right|exact Hid].
      * intros ev [<-|Hin]; [exact Hne|now apply IH].
Qed.

Lemma for_pdus_find event_id_ (pdus_ : Datatypes.list m.event) :
  for_pdus (find_pdu_closure event_id_) pdus_ None =
  (find_pdu_in event_id_ pdus_,
   match find_pdu_in event_id_ pdus_ with None => true | Some _ => false end).
Proof.
  induction pdus_ as [|event rest IH]; simpl; [reflexivity|].
  unfold find_pdu_closure at 1.
  destruct (negb (String.eqb (m.event_id event) event_id_)); [exact IH|reflexivity].
Qed.

(** What [find_pdu] finds in one evaluation. *)
Definition eval_pdu (event_id_ : string) (e : eval) : option m.event :=
  match pdus e with
  | _ :: _ => find_pdu_in event_id_ (pdus e)
  | [] =>
      match event_ e with
      | Some ev => if String.eqb (m.event_id ev) event_id_ then Some ev else None
      | None => None
      end
  end.

Lemma find_pdu_cons event_id_ a e (rest : instance_list) :
  find_pdu event_id_ ((a, e) :: rest) =
  match eval_pdu event_id_ e with
  | Some ev => Some ev
  | None => find_pdu event_id_ rest
  end.
Proof.
  unfold find_pdu, for_each_pdu, eval_pdu. simpl.
  fold (find_pdu_closure event_id_).
  destruct (pdus e) as [|pdu more] eqn:Hpdus.
  - destruct (event_ e) as [ev|]; [|reflexivity].
    unfold find_pdu_closure at 1.
    destruct (String.eqb (m.event_id ev) event_id_); reflexivity.
  - rewrite for_pdus_find.
    destruct (find_pdu_in event_id_ (pdu :: more)); reflexivity.
Qed.

Lemma eval_pdu_spec event_id_ e :
  match eval_pdu event_id_ e with
  | Some ev =>
      (In ev (pdus e) \/ (pdus e = [] /\ event_ e = Some ev)) /\
      m.event_id ev = event_id_
  | None =>
      forall ev, In ev (pdus e) \/ (pdus e = [] /\ event_ e = Some ev) ->
                 m.event_id ev <> event_id_
  end.
Proof.
  unfold eval_pdu. destruct (pdus e) as [|pdu more] eqn:Hpdus.
  - destruct (event_ e) as [ev|].
    + destruct (String.eqb_spec (m.event_id ev) event_id_) as [Heq|Hne].
      * split; [now right|exact Heq].
      * intros ev' [[]|[_ [= <-]]]. exact Hne.
    + intros ev' [[]|[_ [=]]].
  - pose proof (find_pdu_in_spec event_id_ (pdu :: more)) as H.
    destruct (find_pdu_in event_id_ (pdu :: more)) as [ev|].
    + destruct H as [Hin Hid]. split; [now left|exact Hid].
    + intros ev [Hin|[[=] _]]. now apply H.
Qed.

Lemma find_pdu_cases event_id_ (l : instance_list) :
  match find_pdu event_id_ l with
  | Some ev => in_evaluation l ev /\ m.event_id ev = event_id_
  | None => forall ev, in_evaluation l ev -> m.event_id ev <> event_id_
  end.
Proof.
  induction l as [|[a e] rest IH].
  - intros ev (a & e & [] & _).
  - rewrite find_pdu_cons. pose proof (eval_pdu_spec event_id_ e) as He.
    destruct (eval_pdu event_id_ e) as [ev|].
    + destruct He as [Hin Hid]. split; [|exact Hid].
      exists a, e. split; [now left|exact Hin].
    + destruct (find_pdu event_id_ rest) as [ev|].
      * destruct IH as [(a' & e' & Hin & Hev) Hid]. split; [|exact Hid].
        exists a', e'. split; [now right|exact Hev].
      * intros ev (a' & e' & [[= <- <-]|Hin] & Hev); [now apply He|].
        apply IH. now exists a', e'.
Qed.

(** X4.  [find_pdu(event_id)] answers an event with that id which is in
    the batch of a live evaluation or is the event body of a live
    evaluation without a batch, and answers nothing exactly when there is
    no such event: the event body of an evaluation at work on a batch is
    not looked at.  What [find_pdu(eval, event_id)] finds in the batch of a
    live evaluation has the id, and then the search of the whole registry
    finds an event too. *)
Theorem find_pdu_spec (event_id_ : string) (l : instance_list) :
  (forall ev, find_pdu event_id_ l = Some ev ->
     in_evaluation l ev /\ m.event_id ev = event_id_) /\
  (find_pdu event_id_ l = None <->
   forall ev, in_evaluation l ev -> m.event_id ev <> event_id_) /\
  (forall a e ev, In (a, e) l -> find_pdu_eval e event_id_ = Some ev ->
     In ev (pdus e) /\ m.event_id ev = event_id_ /\
     find_pdu event_id_ l <> None).
Proof.
  pose proof (find_pdu_cases event_id_ l) as H.
  split; [|split].
  - intros ev Hev. now rewrite Hev in H.
  - destruct (find_pdu event_id_ l) as [ev|].
    + split; [discriminate|]. intros Hnone. destruct H as [Hin Hid].
      now destruct (Hnone ev Hin).
    + split; [intros _; exact H|reflexivity].
  - intros a e ev Hin Hfound. unfold find_pdu_eval in Hfound.
    pose proof (find_pdu_in_spec event_id_ (pdus e)) as Hp.
    rewrite Hfound in Hp. destruct Hp as [Hev Hid].
    split; [exact Hev|]. split; [exact Hid|].
    destruct (find_pdu event_id_ l); [discriminate|].
    exfalso. apply (H ev); [|exact Hid]. exists a, e. split; [exact Hin|now left].
Qed.


(** ** The parent and the root *)

(** What the closure of [find_parent] has kept after the evaluations of
    [l], having started with [ret]. *)
Definition parent_kept (a : addr) (c : ctx_t) (l : instance_list)
    (ret res : option (addr * eval)) : Prop :=
  match res with
  | None => ret = None /\ forall x, In x l -> ctx (snd x) = c -> fst x = a
  | Some r =>
      (ret = Some r \/ (In r l /\ ctx (snd r) = c /\ fst r <> a)) /\
      (forall r0, ret = Some r0 -> (id (snd r0) <= id (snd r))%N) /\
      (forall x, In x l -> ctx (snd x) = c -> fst x <> a ->
                 (id (snd x) <= id (snd r))%N)
  end.

Lemma find_parent_scan_cons a c e (rest : instance_list) ret :
  for_each_ctx c (find_parent_closure a) (e :: rest) ret =
  for_each_ctx c (find_parent_closure a) rest
    (if Nat.eqb (ctx (snd e)) c
     then fst (find_parent_closure a ret e)
     else ret).
Proof. simpl. destruct (Nat.eqb (ctx (snd e)) c); reflexivity. Qed.

Lemma find_parent_kept a c (l : instance_list) :
  forall ret,
    parent_kept a c l ret (fst (for_each_ctx c (find_parent_closure a) l ret)).
Proof.
  induction l as [|e rest IH]; intros ret.
  - simpl. destruct ret as [r|]; simpl.
    + split; [now left|]. split; [intros r0 [= <-]; lia|intros x []].
    + split; [reflexivity|intros x []].
  - rewrite find_parent_scan_cons.
    destruct (Nat.eqb_spec (ctx (snd e)) c) as [Hc|Hc].
    + remember (fst (find_parent_closure a ret e)) as ret' eqn:Hret.
      unfold find_parent_closure in Hret. cbn [fst] in Hret.
      specialize (IH ret'). unfold parent_kept in *.
      destruct (fst (for_each_ctx c (find_parent_closure a) rest ret')) as [r|].
      * destruct IH as (Hfrom & Hret' & Hall).
        destruct (Nat.eqb_spec (fst e) a) as [Hea|Hea]; simpl in Hret.
        -- subst ret'. split; [|split].
           ++ destruct Hfrom as [H|(Hin & H1 & H2)]; [now left|right].
              split; [now right|auto].
           ++ exact Hret'.
           ++ intros x [<-|Hx] Hcx Hne; [contradiction|now apply Hall].
        -- destruct ret as [r0|].
           ++ destruct (N.ltb_spec (id (snd r0)) (id (snd e))) as [Hlt|Hge];
                subst ret'.
              ** specialize (Hret' _ eq_refl). split; [|split].
                 --- destruct Hfrom as [[= <-]|(Hin & H1 & H2)].
                     +++ right. split; [now left|auto].
                     +++ right. split; [now right|auto].
                 --- intros r1 [= <-]. lia.
                 --- intros x [<-|Hx] Hcx Hne; [exact Hret'|now apply Hall].
              ** specialize (Hret' _ eq_refl). split; [|split].
                 --- destruct Hfrom as [H|(Hin & H1 & H2)]; [now left|right].
                     split; [now right|auto].
                 --- intros r1 [= <-]. exact Hret'.
                 --- intros x [<-|Hx] Hcx Hne; [lia|now apply Hall].
           ++ subst ret'. specialize (Hret' _ eq_refl). split; [|split].
              ** destruct Hfrom as [[= <-]|(Hin & H1 & H2)].
                 --- right. split; [now left|auto].
                 --- right. split; [now right|auto].
              ** discriminate.
              ** intros x [<-|Hx] Hcx Hne; [exact Hret'|now apply Hall].
      * destruct IH as [Hnone Hall].
        destruct (Nat.eqb_spec (fst e) a) as [Hea|Hea]; simpl in Hret.
        -- rewrite Hret in Hnone. split; [exact Hnone|].
           intros x [<-|Hx] Hcx; [exact Hea|now apply Hall].
        -- destruct ret as [r0|]; [|rewrite Hret in Hnone; discriminate].
           destruct (N.ltb (id (snd r0)) (id (snd e)));
             rewrite Hret in Hnone; discriminate.
    + specialize (IH ret). unfold parent_kept in *.
      destruct (fst (for_each_ctx c (find_parent_closure a) rest ret)) as [r|].
      * destruct IH as (Hfrom & Hret' & Hall). split; [|split].
        -- destruct Hfrom as [H|(Hin & H1 & H2)]; [now left|right].
           split; [now right|auto].
        -- exact Hret'.
        -- intros x [<-|Hx] Hcx Hne; [contradiction|now apply Hall].
      * destruct IH as [Hnone Hall]. split; [exact Hnone|].
        intros x [<-|Hx] Hcx; [contradiction|now apply Hall].
Qed.

Lemma find_parent_cases a c (l : instance_list) :
  match find_parent a c l with
  | Some p =>
      exists e, In (p, e) l /\ ctx e = c /\ p <> a /\
                forall x, In x l -> ctx (snd x) = c -> fst x <> a ->
                          (id (snd x) <= id e)%N
  | None => forall x, In x l -> ctx (snd x) = c -> fst x = a
  end.
Proof.
  unfold find_parent. pose proof (find_parent_kept a c l None) as H.
  unfold parent_kept in H.
  destruct (fst (for_each_ctx c (find_parent_closure a) l None)) as [[p e]|]; simpl.
  - destruct H as ([[=]|(Hin & Hc & Hne)] & _ & Hall).
    exists e. repeat split; auto.
  - now destruct H.
Qed.

(** X5.  [find_parent(a, c)] answers a live evaluation of the task [c]
    other than [a] whose id is the greatest among those, and answers
    nothing exactly when the task has no live evaluation other than
    [a]. *)
Theorem find_parent_spec (a : addr) (c : ctx_t) (l : instance_list) :
  (forall p, find_parent a c l = Some p ->
     exists e, In (p, e) l /\ ctx e = c /\ p <> a /\
               forall x, In x l -> ctx (snd x) = c -> fst x <> a ->
                         (id (snd x) <= id e)%N) /\
  (find_parent a c l = None <->
   forall x, In x l -> ctx (snd x) = c -> fst x = a).
Proof.
  pose proof (find_parent_cases a c l) as H. split.
  - intros p Hp. now rewrite Hp in H.
  - destruct (find_parent a c l) as [p|].
    + split; [discriminate|]. intros Hnone.
      destruct H as (e & Hin & Hc & Hne & _).
      now destruct Hne; apply (Hnone (p, e)).
    + split; [intros _; exact H|reflexivity].
Qed.

Lemma find_root_loop_diverges a c (l : instance_list) p :
  find_parent a c l = Some p ->
  forall bound ret, find_root_loop bound a c l ret = Diverge.
Proof.
  intros Hp. induction bound as [|bound IH]; intros ret; simpl; [reflexivity|].
  rewrite Hp. apply IH.
Qed.

(** X6.  [find_root(a, c)] answers no evaluation: it returns a null
    pointer when [find_parent(a, c)] answers nothing, and when
    [find_parent(a, c)] answers an evaluation its loop, which asks the
    same question at every turn, does not end. *)
Theorem find_root_spec (a : addr) (c : ctx_t) (l : instance_list) :
  (find_parent a c l = None ->
   forall bound, find_root (S bound) a c l = Ret None) /\
  (forall p, find_parent a c l = Some p ->
   forall bound, find_root bound a c l = Diverge) /\
  (forall bound root, find_root bound a c l <> Ret (Some root)).
Proof.
  split; [|split].
  - intros Hnone bound. unfold find_root. simpl. now rewrite Hnone.
  - intros p Hp bound. now apply find_root_loop_diverges with (p := p).
  - intros bound root. unfold find_root.
    destruct (find_parent a c l) as [p|] eqn:Hp.
    + now rewrite (find_root_loop_diverges a c l p Hp).
    + destruct bound as [|bound]; simpl; [discriminate|]. now rewrite Hp.
Qed.


(** ** The sort by sequence number *)

Section ListSortFacts.
Context {A : Type} (comp : A -> A -> bool).
Hypothesis comp_asym : forall a b, comp a b = true -> comp b a = false.

Let not_after (a b : A) : Prop := comp b a = false.

Lemma stable_insert_perm x (l : Datatypes.list A) :
  Permutation (stable_insert comp x l) (x :: l).
Proof.
  induction l as [|y rest IH]; simpl; [reflexivity|].
  destruct (comp y x); [|reflexivity].
  rewrite IH. apply perm_swap.
Qed.

Lemma list_sort_perm (l : Datatypes.list A) : Permutation (list_sort comp l) l.
Proof.
  induction l as [|x rest IH]; simpl; [reflexivity|].
  rewrite stable_insert_perm. now apply perm_skip.
Qed.

Lemma stable_insert_sorted x (l : Datatypes.list A) :
  Sorted not_after l -> Sorted not_after (stable_insert comp x l).
Proof.
  induction l as [|y rest IH]; simpl; intros Hs.
  - repeat constructor.
  - inversion Hs as [|? ? Hrest Hhd]; subst.
    destruct (comp y x) eqn:Hyx.
    + constructor; [now apply IH|].
      destruct rest as [|z rest']; simpl.
      * constructor. now apply comp_asym.
      * destruct (comp z x); constructor.
        -- now inversion Hhd.
        -- now apply comp_asym.
    + constructor; [exact Hs|]. constructor. exact Hyx.
Qed.

Lemma list_sort_sorted (l : Datatypes.list A) : Sorted not_after (list_sort comp l).
Proof.
  induction l as [|x rest IH]; simpl; [constructor|].
  now apply stable_insert_sorted.
Qed.

(** The elements a test [same] picks keep their order, when elements
    that are picked together are not less than one another. *)
Lemma stable_insert_filter (same : A -> bool) x (l : Datatypes.list A) :
  (forall y, same x = true -> same y = true -> comp y x = false) ->
  filter same (stable_insert comp x l) = filter same (x :: l).
Proof.
  intros Hsame. induction l as [|y rest IH]; simpl; [reflexivity|].
  destruct (comp y x) eqn:Hyx; [|reflexivity].
  simpl. rewrite IH. simpl.
  destruct (same x) eqn:Hx; [|reflexivity].
  destruct (same y) eqn:Hy; [|reflexivity].
  rewrite (Hsame y eq_refl Hy) in Hyx. discriminate.
Qed.

Lemma list_sort_filter (same : A -> bool) (l : Datatypes.list A) :
  (forall x y, same x = true -> same y = true -> comp y x = false) ->
  filter same (list_sort comp l) = filter same l.
Proof.
  intros Hsame. induction l as [|x rest IH]; simpl; [reflexivity|].
  rewrite stable_insert_filter by (apply Hsame). simpl. now rewrite IH.
Qed.

Hypothesis comp_trans :
  forall a b c, comp a b = true -> comp b c = true -> comp a c = true.
Hypothesis comp_neg_trans :
  forall a b c, comp a b = false -> comp b c = false -> comp a c = false.

(** The head of the sorted list is the element [std::min_element] is
    at. *)
Lemma list_sort_head x (rest : Datatypes.list A) :
  hd_error (list_sort comp (x :: rest)) = Some (min_scan comp x rest).
Proof.
  revert x. induction rest as [|y rest IH]; intros x; [reflexivity|].
  change (list_sort comp (x :: y :: rest))
    with (stable_insert comp x (list_sort comp (y :: rest))).
  change (min_scan comp x (y :: rest))
    with (min_scan comp (if comp y x then y else x) rest).
  pose proof (IH y) as Hy.
  pose proof (IH (if comp y x then y else x)) as Hyx.
  destruct rest as [|z rest'].
  - simpl. destruct (comp y x); reflexivity.
  - change (list_sort comp (y :: z :: rest'))
      with (stable_insert comp y (list_sort comp (z :: rest'))) in Hy |- *.
    change (list_sort comp ((if comp y x then y else x) :: z :: rest'))
      with (stable_insert comp (if comp y x then y else x)
              (list_sort comp (z :: rest'))) in Hyx.
    destruct (list_sort comp (z :: rest')) as [|least others] eqn:Hsorted.
    + pose proof (list_sort_perm (z :: rest')) as Hp. rewrite Hsorted in Hp.
      apply Permutation_nil in Hp. discriminate.
    + rewrite <- Hyx. simpl in Hy |- *. clear Hyx IH.
      destruct (comp y x) eqn:Hcyx.
      * destruct (comp least y) eqn:Hly; simpl.
        -- now rewrite (comp_trans _ _ _ Hly Hcyx).
        -- now rewrite Hcyx.
      * destruct (comp least y) eqn:Hly; simpl.
        -- destruct (comp least x); reflexivity.
        -- rewrite Hcyx. now rewrite (comp_neg_trans _ _ _ Hly Hcyx).
Qed.
End ListSortFacts.

(** The order [seqsort] leaves the list in: the sequenced evaluations by
    ascending sequence number, then the evaluations not yet sequenced. *)
Definition seq_order (a b : addr * eval) : Prop :=
  ((0 < seq_of a)%N /\ (seq_of a <= seq_of b)%N) \/ seq_of b = 0%N.

Lemma seqmin_comp_asym a b : seqmin_comp a b = true -> seqmin_comp b a = false.
Proof. vm_spec.by_sequence. Qed.

Lemma seqmin_comp_seq_order a b : seqmin_comp b a = false <-> seq_order a b.
Proof.
  unfold seq_order, seqmin_comp.
  destruct (N.eqb_spec (seq_of b) 0) as [Hb|Hb]; [tauto|].
  destruct (N.eqb_spec (seq_of a) 0) as [Ha|Ha].
  - split; [discriminate|lia].
  - destruct (N.ltb_spec (seq_of b) (seq_of a)); split;
      try discriminate; try reflexivity; lia.
Qed.

Lemma seq_order_trans a b c : seq_order a b -> seq_order b c -> seq_order a c.
Proof. unfold seq_order. lia. Qed.

(** X7.  [seqsort] keeps the evaluations on the list and the id counter,
    and leaves the list with the sequenced evaluations first, in ascending
    order of their sequence numbers, and the evaluations not yet sequenced
    behind them; the evaluations of one sequence number keep the order
    they were in. *)
Theorem seqsort_spec (s : state) :
  id_ctr (seqsort s) = id_ctr s /\
  Permutation (list (seqsort s)) (list s) /\
  StronglySorted seq_order (list (seqsort s)) /\
  (forall seq,
     filter (fun x => N.eqb (seq_of x) seq) (list (seqsort s)) =
     filter (fun x => N.eqb (seq_of x) seq) (list s)).
Proof.
  unfold seqsort. simpl. split; [reflexivity|]. split; [|split].
  - apply list_sort_perm.
  - apply Sorted_StronglySorted; [exact seq_order_trans|].
    eapply Sorted_ind with (P := fun l => Sorted seq_order l);
      [constructor| |apply (list_sort_sorted seqmin_comp seqmin_comp_asym)].
    intros a l _ IH Hhd. constructor; [exact IH|].
    destruct Hhd; constructor. now apply seqmin_comp_seq_order.
  - intros seq. apply list_sort_filter.
    intros x y Hx Hy. apply N.eqb_eq in Hx, Hy.
    unfold seqmin_comp. rewrite Hx, Hy.
    destruct (N.eqb seq 0); [reflexivity|]. apply N.ltb_irrefl.
Qed.

(** X8.  After [seqsort] the evaluation [seqmin] answers is the first on
    the list: [seqmin] answers the head of the sorted list when that one
    is sequenced, and nothing when it is not or the list is empty. *)
Theorem seqsort_head_seqmin (s : state) :
  seqmin (list s) =
  match list (seqsort s) with
  | [] => None
  | first :: _ => if N.eqb (seq_of first) 0 then None else Some (fst first)
  end.
Proof.
  unfold seqsort, seqmin. cbn [list]. destruct (list s) as [|x rest]; [reflexivity|].
  pose proof (list_sort_head seqmin_comp vm_spec.seqmin_comp_trans
                vm_spec.seqmin_comp_neg_trans x rest) as H.
  cbn [min_element].
  destruct (list_sort seqmin_comp (x :: rest)) as [|first others];
    [discriminate|].
  simpl in H. now injection H as ->.
Qed.


(** ** Constructions and destructions *)

Lemma update_app_fresh a f e (l : instance_list) :
  lookup a l = None -> update a f (l ++ [(a, e)]) = l ++ [(a, f e)].
Proof.
  induction l as [|[b x] rest IH]; simpl; intros Hnone.
  - now rewrite Nat.eqb_refl.
  - destruct (Nat.eqb a b); [discriminate|]. now rewrite IH.
Qed.

Lemma update_app_live a f e (l more : instance_list) :
  lookup a l = Some e -> update a f (l ++ more) = update a f l ++ more.
Proof.
  induction l as [|[b x] rest IH]; simpl; intros Hsome; [discriminate|].
  destruct (Nat.eqb a b); [reflexivity|]. now rewrite IH.
Qed.

Lemma update_update a f g (l : instance_list) :
  update a f (update a g l) = update a (fun e => f (g e)) l.
Proof.
  induction l as [|[b x] rest IH]; simpl; [reflexivity|].
  destruct (Nat.eqb a b) eqn:Hab; simpl; rewrite Hab; [reflexivity|].
  now rewrite IH.
Qed.

Lemma update_same a f e (l : instance_list) :
  lookup a l = Some e -> f e = e -> update a f l = l.
Proof.
  induction l as [|[b x] rest IH]; simpl; intros Hsome Hf; [reflexivity|].
  destruct (Nat.eqb a b).
  - injection Hsome as ->. now rewrite Hf.
  - now rewrite IH.
Qed.

Lemma remove_app_fresh a e (l : instance_list) :
  lookup a l = None -> remove a (l ++ [(a, e)]) = l.
Proof.
  induction l as [|[b x] rest IH]; simpl; intros Hnone.
  - now rewrite Nat.eqb_refl.
  - destruct (Nat.eqb a b); [discriminate|]. now rewrite IH.
Qed.

Lemma set_child_back c e : child e = None -> set_child None (set_child c e) = e.
Proof. destruct e. simpl. now intros ->. Qed.

(** The evaluation the constructor makes. *)
Definition new_eval (o : opts) (cur : ctx_t) (id_ : N) (parent_ : option addr)
    : eval :=
  mk_eval o cur id_ 0 [] None None "" parent_ None.

(** What the constructor does to the list and to the counter. *)
Lemma eval_ctor_list this cur o s s' :
  NoDup (map fst (list s)) ->
  eval_ctor this cur o s = Some s' ->
  lookup this (list s) = None /\
  id_ctr s' = N.modulo (id_ctr s + 1) uint64_modulus /\
  match find_parent this cur (list s) with
  | None => list s' = list s ++ [(this, new_eval o cur (id_ctr s') None)]
  | Some p =>
      exists pe,
        lookup p (list s) = Some pe /\ child pe = None /\ p <> this /\
        ctx pe = cur /\
        list s' = update p (set_child (Some this)) (list s)
                  ++ [(this, new_eval o cur (id_ctr s') (Some p))]
  end.
Proof.
  intros Hnd Hctor. unfold eval_ctor, instance_list_ctor in Hctor.
  destruct (lookup this (list s)) eqn:Hfresh; [discriminate|].
  split; [reflexivity|].
  rewrite vm_spec.find_parent_app_self in Hctor.
  rewrite update_app_fresh in Hctor by exact Hfresh.
  pose proof (find_parent_cases this cur (list s)) as Hpar.
  destruct (find_parent this cur (list s)) as [p|].
  - destruct Hpar as (pe & Hin & Hctx & Hne & _).
    apply (vm_spec.lookup_In _ _ _ Hnd) in Hin.
    rewrite vm_spec.lookup_app in Hctor by exact Hfresh.
    destruct (Nat.eqb_spec p this) as [|_]; [contradiction|].
    rewrite Hin in Hctor.
    destruct (child pe) eqn:Hchild; [discriminate|].
    injection Hctor as <-. simpl. split; [reflexivity|].
    exists pe. repeat split; auto.
    now rewrite (update_app_live _ _ pe).
  - injection Hctor as <-. simpl. split; reflexivity.
Qed.

(** What the destructor does to the list and to the counter. *)
Lemma eval_dtor_list this s s' :
  eval_dtor this s = Some s' ->
  id_ctr s' = id_ctr s /\
  exists e,
    lookup this (list s) = Some e /\ child e = None /\
    match parent e with
    | None => list s' = remove this (list s)
    | Some p =>
        exists pe,
          lookup p (list s) = Some pe /\ child pe = Some this /\
          list s' = remove this (update p (set_child None) (list s))
    end.
Proof.
  unfold eval_dtor, instance_list_dtor. intros Hdtor.
  destruct (lookup this (list s)) as [e|] eqn:Hthis; [|discriminate].
  destruct (child e) eqn:Hchild; [discriminate|].
  destruct (parent e) as [p|] eqn:Hparent.
  - destruct (lookup p (list s)) as [pe|] eqn:Hp; [|discriminate].
    destruct (child pe) as [c|] eqn:Hpc; [|discriminate].
    destruct (Nat.eqb_spec c this) as [->|]; [|discriminate].
    injection Hdtor as <-. simpl. split; [reflexivity|].
    exists e. rewrite Hparent. repeat split; auto. now exists pe.
  - injection Hdtor as <-. simpl. split; [reflexivity|].
    exists e. rewrite Hparent. repeat split; auto.
Qed.

(** X9.  The destruction of the evaluation that was constructed last
    passes its assertions and leaves the list of live evaluations as it
    was before the construction, the parent childless again; of the
    two calls only the advance of the id counter remains. *)
Theorem ctor_dtor_round_trip (this : addr) (cur : ctx_t) (o : opts) (s s1 : state) :
  NoDup (map fst (list s)) ->
  eval_ctor this cur o s = Some s1 ->
  eval_dtor this s1 = Some (mk_state (list s) (id_ctr s1)) /\
  id_ctr s1 = N.modulo (id_ctr s + 1) uint64_modulus.
Proof.
  intros Hnd Hctor.
  destruct (eval_ctor_list _ _ _ _ _ Hnd Hctor) as (Hfresh & Hid & Hlist).
  split; [|exact Hid]. unfold eval_dtor, instance_list_dtor.
  destruct (find_parent this cur (list s)) as [p|].
  - destruct Hlist as (pe & Hp & Hchild & Hne & _ & ->).
    assert (Hfresh' : lookup this (update p (set_child (Some this)) (list s)) = None).
    { rewrite vm_spec.lookup_update, Hfresh. now destruct (Nat.eqb this p). }
    rewrite vm_spec.lookup_app by exact Hfresh'.
    rewrite Nat.eqb_refl. simpl.
    rewrite vm_spec.lookup_app by exact Hfresh'.
    destruct (Nat.eqb_spec p this) as [|_]; [contradiction|].
    rewrite vm_spec.lookup_update, Nat.eqb_refl, Hp. simpl.
    rewrite Nat.eqb_refl.
    assert (Hlive : lookup p (update p (set_child (Some this)) (list s))
                    = Some (set_child (Some this) pe))
      by (now rewrite vm_spec.lookup_update, Nat.eqb_refl, Hp).
    rewrite (update_app_live _ _ _ _ _ Hlive), update_update.
    rewrite (update_same p _ pe) by (auto using set_child_back).
    now rewrite remove_app_fresh.
  - rewrite Hlist. rewrite vm_spec.lookup_app by exact Hfresh.
    rewrite Nat.eqb_refl. simpl. now rewrite remove_app_fresh.
Qed.

(** The registry of two tasks with an evaluation each. *)
Definition two_tasks : state :=
  match run (firstn 2 vm_spec.nested_ops) init with
  | Some s => s
  | None => init
  end.

(** X9 at the third evaluation of the nested constructions, which has the
    first one as its parent. *)
Lemma ctor_dtor_round_trip_witness :
  eval_dtor 11
    (mk_state (update 10 (set_child (Some 11)) (list two_tasks)
               ++ [(11, new_eval (mk_opts 0 false "") 7 3 (Some 10))]) 3)
  = Some (mk_state (list two_tasks) 3) /\
  3%N = N.modulo (id_ctr two_tasks + 1) uint64_modulus.
Proof.
  apply (ctor_dtor_round_trip 11 7 (mk_opts 0 false "") two_tasks
           (mk_state (update 10 (set_child (Some 11)) (list two_tasks)
                      ++ [(11, new_eval (mk_opts 0 false "") 7 3 (Some 10))]) 3)).
  - vm_compute. repeat constructor; simpl; intuition discriminate.
  - vm_compute. reflexivity.
Defined.


(** ** The evaluations of a task *)

(** Every live evaluation with a parent is the child of that parent, which
    is live and of the same task; a task has at most one live evaluation
    without a child; and no address is on the list twice. *)
Definition parent_inv (l : instance_list) : Prop :=
  NoDup (map fst l) /\
  (forall a e p, lookup a l = Some e -> parent e = Some p ->
     p <> a /\
     exists pe, lookup p l = Some pe /\ child pe = Some a /\ ctx pe = ctx e) /\
  (forall a b ea eb,
     lookup a l = Some ea -> lookup b l = Some eb -> ctx ea = ctx eb ->
     child ea = None -> child eb = None -> a = b).

Lemma lookup_ctor_orphan a this self (l : instance_list) :
  lookup this l = None ->
  lookup a (l ++ [(this, self)]) = if Nat.eqb a this then Some self else lookup a l.
Proof. apply vm_spec.lookup_app. Qed.

Lemma lookup_ctor_child a this self p pe f (l : instance_list) :
  lookup this l = None -> lookup p l = Some pe ->
  lookup a (update p f l ++ [(this, self)]) =
  if Nat.eqb a this then Some self
  else if Nat.eqb a p then Some (f pe) else lookup a l.
Proof.
  intros Hfresh Hp. rewrite vm_spec.lookup_app.
  - rewrite vm_spec.lookup_update.
    destruct (Nat.eqb a this); [reflexivity|].
    destruct (Nat.eqb_spec a p) as [->|]; [now rewrite Hp|reflexivity].
  - rewrite vm_spec.lookup_update, Hfresh. now destruct (Nat.eqb this p).
Qed.

Lemma lookup_dtor_child a this p pe f (l : instance_list) :
  NoDup (map fst l) -> lookup p l = Some pe ->
  lookup a (remove this (update p f l)) =
  if Nat.eqb a this then None
  else if Nat.eqb a p then Some (f pe) else lookup a l.
Proof.
  intros Hnd Hp. rewrite vm_spec.lookup_remove
    by (now rewrite vm_spec.map_fst_update).
  rewrite vm_spec.lookup_update.
  destruct (Nat.eqb a this); [reflexivity|].
  destruct (Nat.eqb_spec a p) as [->|]; [now rewrite Hp|reflexivity].
Qed.

Lemma eval_ctor_parent_inv this cur o s s' :
  parent_inv (list s) -> eval_ctor this cur o s = Some s' -> parent_inv (list s').
Proof.
  intros (Hnd & Hpar & Htop) Hctor.
  destruct (eval_ctor_list _ _ _ _ _ Hnd Hctor) as (Hfresh & _ & Hlist).
  pose proof (find_parent_cases this cur (list s)) as Hfp.
  destruct (find_parent this cur (list s)) as [p0|].
  - destruct Hlist as (pe0 & Hp0 & Hchild0 & Hne0 & Hctx0 & ->).
    set (self := new_eval o cur (id_ctr s') (Some p0)).
    assert (Hl : forall a,
               lookup a (update p0 (set_child (Some this)) (list s) ++ [(this, self)]) =
               if Nat.eqb a this then Some self
               else if Nat.eqb a p0 then Some (set_child (Some this) pe0)
                    else lookup a (list s))
      by (intros a; now apply lookup_ctor_child).
    split; [|split].
    + rewrite map_app, vm_spec.map_fst_update. simpl.
      apply vm_spec.NoDup_snoc; [exact Hnd|]. now apply vm_spec.lookup_None.
    + intros a e p Ha Hp. rewrite Hl in Ha. rewrite Hl.
      destruct (Nat.eqb_spec a this) as [->|Hat].
      * injection Ha as <-. simpl in Hp. injection Hp as <-.
        split; [exact Hne0|].
        destruct (Nat.eqb_spec p0 this); [contradiction|].
        rewrite Nat.eqb_refl. eexists. split; [reflexivity|]. now split.
      * assert (Hold : exists e0, lookup a (list s) = Some e0 /\
                                  parent e0 = Some p /\ ctx e0 = ctx e).
        { destruct (Nat.eqb_spec a p0) as [->|].
          - injection Ha as <-. now exists pe0.
          - now exists e. }
        destruct Hold as (e0 & Ha0 & Hp' & Hctx).
        destruct (Hpar _ _ _ Ha0 Hp') as (Hpa & pe & Hpe & Hc & Hx).
        split; [exact Hpa|].
        destruct (Nat.eqb_spec p this) as [->|]; [congruence|].
        destruct (Nat.eqb_spec p p0) as [->|]; [congruence|].
        exists pe. repeat split; auto. congruence.
    + intros a b ea eb Ha Hb Hctx Hca Hcb. rewrite Hl in Ha, Hb.
      assert (Hother : forall x ex,
                 x <> this ->
                 (if Nat.eqb x p0 then Some (set_child (Some this) pe0)
                  else lookup x (list s)) = Some ex ->
                 child ex = None ->
                 lookup x (list s) = Some ex /\ (ctx ex = cur -> False)).
      { intros x ex Hx Hlx Hcx. destruct (Nat.eqb_spec x p0) as [->|Hxp].
        - injection Hlx as <-. discriminate.
        - split; [exact Hlx|]. intros Hcur. apply Hxp.
          apply (Htop x p0 ex pe0); auto. congruence. }
      destruct (Nat.eqb_spec a this) as [->|Hat], (Nat.eqb_spec b this) as [->|Hbt];
        try reflexivity.
      * injection Ha as <-. simpl in Hctx.
        destruct (Hother _ _ Hbt Hb Hcb) as [_ Hno]. now destruct Hno.
      * injection Hb as <-. simpl in Hctx.
        destruct (Hother _ _ Hat Ha Hca) as [_ Hno]. now destruct Hno.
      * destruct (Hother _ _ Hat Ha Hca) as [Ha0 _].
        destruct (Hother _ _ Hbt Hb Hcb) as [Hb0 _].
        now apply (Htop a b ea eb).
  - rewrite Hlist. set (self := new_eval o cur (id_ctr s') None).
    assert (Hl : forall a, lookup a (list s ++ [(this, self)]) =
                           if Nat.eqb a this then Some self else lookup a (list s))
      by (intros a; now apply lookup_ctor_orphan).
    assert (Halone : forall x ex, lookup x (list s) = Some ex -> ctx ex <> cur).
    { intros x ex Hx Hcur. apply (vm_spec.lookup_In _ _ _ Hnd) in Hx.
      specialize (Hfp _ Hx Hcur). simpl in Hfp. subst x.
      apply (vm_spec.lookup_In _ _ _ Hnd) in Hx. congruence. }
    split; [|split].
    + rewrite map_app. simpl.
      apply vm_spec.NoDup_snoc; [exact Hnd|]. now apply vm_spec.lookup_None.
    + intros a e p Ha Hp. rewrite Hl in Ha. rewrite Hl.
      destruct (Nat.eqb_spec a this) as [->|Hat].
      * injection Ha as <-. discriminate.
      * destruct (Hpar _ _ _ Ha Hp) as (Hpa & pe & Hpe & Hc & Hx).
        split; [exact Hpa|].
        destruct (Nat.eqb_spec p this) as [->|]; [congruence|]. now exists pe.
    + intros a b ea eb Ha Hb Hctx Hca Hcb. rewrite Hl in Ha, Hb.
      destruct (Nat.eqb_spec a this) as [->|Hat], (Nat.eqb_spec b this) as [->|Hbt];
        try reflexivity.
      * injection Ha as <-. simpl in Hctx. now destruct (Halone _ _ Hb).
      * injection Hb as <-. simpl in Hctx. now destruct (Halone _ _ Ha).
      * now apply (Htop a b ea eb).
Qed.


Lemma eval_dtor_parent_inv this s s' :
  parent_inv (list s) -> eval_dtor this s = Some s' -> parent_inv (list s').
Proof.
  intros (Hnd & Hpar & Htop) Hdtor.
  destruct (eval_dtor_list _ _ _ Hdtor) as (_ & e & Hthis & Hchild & Hlist).
  assert (Hnotparent : forall x ex, lookup x (list s) = Some ex ->
                                    parent ex = Some this -> False).
  { intros x ex Hx Hp. destruct (Hpar _ _ _ Hx Hp) as (_ & pe & Hpe & Hc & _).
    congruence. }
  destruct (parent e) as [p0|] eqn:Hparent.
  - destruct Hlist as (pe0 & Hp0 & Hchild0 & ->).
    destruct (Hpar _ _ _ Hthis Hparent) as (Hne0 & pe0' & Hp0' & _ & Hctx0).
    assert (pe0' = pe0) by congruence. subst pe0'.
    assert (Hl : forall a,
               lookup a (remove this (update p0 (set_child None) (list s))) =
               if Nat.eqb a this then None
               else if Nat.eqb a p0 then Some (set_child None pe0)
                    else lookup a (list s))
      by (intros a; now apply lookup_dtor_child).
    split; [|split].
    + apply vm_spec.NoDup_remove. now rewrite vm_spec.map_fst_update.
    + intros a x p Ha Hp. rewrite Hl in Ha. rewrite Hl.
      destruct (Nat.eqb_spec a this) as [->|Hat]; [discriminate|].
      assert (Hold : exists x0, lookup a (list s) = Some x0 /\
                                parent x0 = Some p /\ ctx x0 = ctx x).
      { destruct (Nat.eqb_spec a p0) as [->|].
        - injection Ha as <-. now exists pe0.
        - now exists x. }
      destruct Hold as (x0 & Ha0 & Hp' & Hctx).
      destruct (Hpar _ _ _ Ha0 Hp') as (Hpa & pe & Hpe & Hc & Hx).
      split; [exact Hpa|].
      destruct (Nat.eqb_spec p this) as [->|].
      { now destruct (Hnotparent _ _ Ha0 Hp'). }
      destruct (Nat.eqb_spec p p0) as [->|]; [congruence|].
      exists pe. repeat split; auto. congruence.
    + intros a b ea eb Ha Hb Hctx Hca Hcb. rewrite Hl in Ha, Hb.
      destruct (Nat.eqb_spec a this) as [->|Hat]; [discriminate|].
      destruct (Nat.eqb_spec b this) as [->|Hbt]; [discriminate|].
      assert (Hother : forall x ex,
                 x <> this -> x <> p0 -> lookup x (list s) = Some ex ->
                 child ex = None -> ctx ex = ctx pe0 -> False).
      { intros x ex Hx _ Hlx Hcx Hcur. apply Hx.
        apply (Htop x this ex e); auto. congruence. }
      destruct (Nat.eqb_spec a p0) as [->|Hap], (Nat.eqb_spec b p0) as [->|Hbp];
        try reflexivity.
      * injection Ha as <-. simpl in Hctx.
        now destruct (Hother _ _ Hbt Hbp Hb Hcb).
      * injection Hb as <-. simpl in Hctx.
        now destruct (Hother _ _ Hat Hap Ha Hca).
      * now apply (Htop a b ea eb).
  - rewrite Hlist.
    assert (Hl : forall a, lookup a (remove this (list s)) =
                           if Nat.eqb a this then None else lookup a (list s))
      by (intros a; now apply vm_spec.lookup_remove).
    split; [|split].
    + now apply vm_spec.NoDup_remove.
    + intros a x p Ha Hp. rewrite Hl in Ha. rewrite Hl.
      destruct (Nat.eqb_spec a this) as [->|Hat]; [discriminate|].
      destruct (Hpar _ _ _ Ha Hp) as (Hpa & pe & Hpe & Hc & Hx).
      split; [exact Hpa|].
      destruct (Nat.eqb_spec p this) as [->|].
      { now destruct (Hnotparent _ _ Ha Hp). }
      now exists pe.
    + intros a b ea eb Ha Hb Hctx Hca Hcb. rewrite Hl in Ha, Hb.
      destruct (Nat.eqb_spec a this) as [->|Hat]; [discriminate|].
      destruct (Nat.eqb_spec b this) as [->|Hbt]; [discriminate|].
      now apply (Htop a b ea eb).
Qed.

Lemma run_parent_inv ops :
  forall s s', parent_inv (list s) -> run ops s = Some s' -> parent_inv (list s').
Proof.
  induction ops as [|o rest IH]; simpl; intros s s' Hinv Hrun.
  - now injection Hrun as <-.
  - destruct (step s o) as [s1|] eqn:Hstep; [|discriminate].
    apply (IH s1 s'); [|exact Hrun].
    destruct o as [this cur o|this]; simpl in Hstep.
    + now apply (eval_ctor_parent_inv this cur o s).
    + now apply (eval_dtor_parent_inv this s).
Qed.

Lemma init_parent_inv : parent_inv (list init).
Proof.
  split; [constructor|]. split.
  - intros a e p H. discriminate.
  - intros a b ea eb H. discriminate.
Qed.

(** ** The child and its parent *)

Lemma run_app (ops ops' : Datatypes.list op) :
  forall s,
    run (ops ++ ops') s =
    match run ops s with
    | Some s1 => run ops' s1
    | None => None
    end.
Proof.
  induction ops as [|o rest IH]; simpl; intros s; [reflexivity|].
  destruct (step s o); [apply IH|reflexivity].
Qed.

(** C4.  In every state the registry reaches from the empty one by
    constructions and destructions whose assertions hold, every live
    evaluation with a child is the parent of that child.  The constructor
    takes what [find_parent] answers as the parent of the new evaluation,
    which the parent, childless before, has as its child after.  The
    destructor, in such a state, fails an assertion on an evaluation that
    has a child; on a live evaluation without one it passes both
    assertions, the evaluation is gone after, and its parent, which had
    it as its child, is childless.  Both keep the invariant. *)
Theorem child_parent_invariant :
  (forall ops s, run ops init = Some s ->
     forall a e c, In (a, e) (list s) -> child e = Some c ->
                   exists ce, In (c, ce) (list s) /\ parent ce = Some a) /\
  (forall this cur o s s',
     vm_spec.child_parent_inv (list s) -> eval_ctor this cur o s = Some s' ->
     vm_spec.child_parent_inv (list s') /\
     lookup this (list s) = None /\
     (exists self,
        lookup this (list s') = Some self /\
        child self = None /\
        parent self = find_parent this cur (list s)) /\
     (forall p, find_parent this cur (list s) = Some p ->
        (exists pe, lookup p (list s) = Some pe /\ child pe = None) /\
        (exists pe', lookup p (list s') = Some pe' /\ child pe' = Some this))) /\
  (forall this s s',
     vm_spec.child_parent_inv (list s) -> eval_dtor this s = Some s' ->
     vm_spec.child_parent_inv (list s') /\
     lookup this (list s') = None /\
     exists e,
       lookup this (list s) = Some e /\
       child e = None /\
       forall p, parent e = Some p ->
         (exists pe, lookup p (list s) = Some pe /\ child pe = Some this) /\
         (exists pe', lookup p (list s') = Some pe' /\ child pe' = None)) /\
  (forall ops s this e,
     run ops init = Some s -> lookup this (list s) = Some e ->
     match child e with
     | Some _ => eval_dtor this s = None
     | None =>
         exists s',
           eval_dtor this s = Some s' /\
           run (ops ++ [Destruct this]) init = Some s' /\
           vm_spec.child_parent_inv (list s') /\
           lookup this (list s') = None /\
           (forall a, a <> this -> parent e <> Some a ->
                      lookup a (list s') = lookup a (list s)) /\
           (forall p, parent e = Some p ->
              (exists pe, lookup p (list s) = Some pe /\ child pe = Some this) /\
              (exists pe', lookup p (list s') = Some pe' /\ child pe' = None))
     end).
Proof.
  split; [|split; [|split]].
  - intros ops s Hrun a e c Hin Hc.
    destruct (vm_spec.run_inv _ _ _ vm_spec.init_inv Hrun) as [Hnd Hinv].
    apply (vm_spec.lookup_In _ _ _ Hnd) in Hin.
    destruct (Hinv _ _ _ Hin Hc) as (ce & Hce & Hp).
    exists ce. split; [now apply (vm_spec.lookup_In _ _ _ Hnd)|exact Hp].
  - exact vm_spec.eval_ctor_inv.
  - exact vm_spec.eval_dtor_inv.
  - intros ops s this e Hrun He.
    pose proof (run_parent_inv _ _ _ init_parent_inv Hrun) as (Hnd & Hpar & _).
    pose proof (vm_spec.run_inv _ _ _ vm_spec.init_inv Hrun) as Hinv.
    destruct (child e) as [c|] eqn:Hc.
    { unfold eval_dtor. now rewrite He, Hc. }
    assert (Hdtor : exists s', eval_dtor this s = Some s').
    { unfold eval_dtor. rewrite He, Hc.
      destruct (parent e) as [p|] eqn:Hp; [|eexists; reflexivity].
      destruct (Hpar _ _ _ He Hp) as (_ & pe & Hpe & Hpc & _).
      rewrite Hpe, Hpc, Nat.eqb_refl. eexists. reflexivity. }
    destruct Hdtor as (s' & Hdtor). exists s'.
    split; [exact Hdtor|].
    split; [rewrite run_app, Hrun; simpl; now rewrite Hdtor|].
    destruct (vm_spec.eval_dtor_inv _ _ _ Hinv Hdtor)
      as (Hinv' & Hgone & e0 & He0 & _ & Hparent).
    assert (e0 = e) by congruence. subst e0.
    split; [exact Hinv'|]. split; [exact Hgone|]. split; [|exact Hparent].
    intros a Hne Hnp.
    destruct (eval_dtor_list _ _ _ Hdtor) as (_ & e1 & He1 & _ & Hlist).
    assert (e1 = e) by congruence. subst e1.
    destruct (parent e) as [p|] eqn:Hp.
    + destruct Hlist as (pe & Hpe & _ & ->).
      rewrite (lookup_dtor_child a this p pe _ (list s) Hnd Hpe).
      destruct (Nat.eqb_spec a this); [contradiction|].
      destruct (Nat.eqb_spec a p) as [->|]; [now elim Hnp|reflexivity].
    + rewrite Hlist, vm_spec.lookup_remove by exact Hnd.
      destruct (Nat.eqb_spec a this); [contradiction|reflexivity].
Qed.

(** C4 at the registry of the two tasks with three evaluations nested in
    the first: the child of the evaluation at 10 is the one at 11, whose
    parent is the one at 10; and the destructor of the innermost
    evaluation, at 12, leaves the one at 11 without a child. *)
Lemma child_parent_witness :
  (exists ce, In (11, ce) (list vm_spec.nested_state) /\ parent ce = Some 10) /\
  (exists s',
     eval_dtor 12 vm_spec.nested_state = Some s' /\
     run (firstn 4 vm_spec.nested_ops ++ [Destruct 12]) init = Some s' /\
     vm_spec.child_parent_inv (list s') /\
     lookup 12 (list s') = None /\
     exists pe', lookup 11 (list s') = Some pe' /\ child pe' = None).
Proof.
  split.
  - eapply (proj1 child_parent_invariant (firstn 4 vm_spec.nested_ops)
              vm_spec.nested_state eq_refl 10).
    + vm_compute. left. reflexivity.
    + reflexivity.
  - destruct (proj2 (proj2 (proj2 child_parent_invariant))
                (firstn 4 vm_spec.nested_ops) vm_spec.nested_state 12 _
                eq_refl eq_refl)
      as (s' & Hdtor & Hrun & Hinv & Hgone & _ & Hparent).
    exists s'. split; [exact Hdtor|]. split; [exact Hrun|].
    split; [exact Hinv|]. split; [exact Hgone|].
    exact (proj2 (Hparent 11 eq_refl)).
Defined.


(** X10.  In every state the registry reaches from the empty one by
    constructions and destructions whose assertions hold, every live
    evaluation with a parent is the child of that parent, which is
    another live evaluation of the same task; and a task has at most
    one live evaluation without a child, its innermost one. *)
Theorem parent_child_invariant (ops : Datatypes.list op) (s : state) :
  run ops init = Some s ->
  (forall a e p, In (a, e) (list s) -> parent e = Some p ->
     p <> a /\
     exists pe, In (p, pe) (list s) /\ child pe = Some a /\ ctx pe = ctx e) /\
  (forall a b ea eb,
     In (a, ea) (list s) -> In (b, eb) (list s) -> ctx ea = ctx eb ->
     child ea = None -> child eb = None -> a = b).
Proof.
  intros Hrun.
  destruct (run_parent_inv _ _ _ init_parent_inv Hrun) as (Hnd & Hpar & Htop).
  split.
  - intros a e p Hin Hp. apply (vm_spec.lookup_In _ _ _ Hnd) in Hin.
    destruct (Hpar _ _ _ Hin Hp) as (Hne & pe & Hpe & Hc & Hx).
    split; [exact Hne|]. exists pe.
    split; [now apply (vm_spec.lookup_In _ _ _ Hnd)|now split].
  - intros a b ea eb Ha Hb. apply (vm_spec.lookup_In _ _ _ Hnd) in Ha, Hb.
    now apply Htop.
Qed.

(** X10 at the registry of the two tasks with three evaluations nested
    in the first. *)
Lemma parent_child_invariant_witness :
  (forall a e p, In (a, e) (list vm_spec.nested_state) -> parent e = Some p ->
     p <> a /\
     exists pe, In (p, pe) (list vm_spec.nested_state) /\
                child pe = Some a /\ ctx pe = ctx e) /\
  (forall a b ea eb,
     In (a, ea) (list vm_spec.nested_state) ->
     In (b, eb) (list vm_spec.nested_state) -> ctx ea = ctx eb ->
     child ea = None -> child eb = None -> a = b).
Proof.
  apply (parent_child_invariant (firstn 4 vm_spec.nested_ops) vm_spec.nested_state).
  reflexivity.
Defined.


(** ** The ids of the live evaluations *)

Definition idof (x : addr * eval) : N := id (snd x).

(** The ids on the list ascend along it; every id is positive and not
    greater than the counter; and a parent has a smaller id than its
    child. *)
Definition ids_inv (s : state) : Prop :=
  StronglySorted N.lt (map idof (list s)) /\
  (forall a e, lookup a (list s) = Some e -> (0 < id e <= id_ctr s)%N) /\
  (forall a e p pe,
     lookup a (list s) = Some e -> parent e = Some p ->
     lookup p (list s) = Some pe -> (id pe < id e)%N).

Lemma map_idof_update a f (l : instance_list) :
  (forall e, id (f e) = id e) -> map idof (update a f l) = map idof l.
Proof.
  intros Hf. induction l as [|[b e] rest IH]; simpl; [reflexivity|].
  destruct (Nat.eqb a b); simpl; [|now rewrite IH].
  unfold idof. simpl. now rewrite Hf.
Qed.

Lemma ascending_snoc (l : Datatypes.list N) (x : N) :
  StronglySorted N.lt l -> Forall (fun i => (i < x)%N) l ->
  StronglySorted N.lt (l ++ [x]).
Proof.
  induction l as [|y rest IH]; simpl; intros Hs Hall.
  - repeat constructor.
  - inversion Hs as [|? ? Hrest Hy]; subst.
    inversion Hall as [|? ? Hyx Hall']; subst.
    constructor; [now apply IH|].
    apply Forall_app. split; [exact Hy|]. now repeat constructor.
Qed.

Lemma ascending_remove a (l : instance_list) :
  StronglySorted N.lt (map idof l) -> StronglySorted N.lt (map idof (remove a l)).
Proof.
  induction l as [|[b e] rest IH]; simpl; intros Hs; [constructor|].
  inversion Hs as [|? ? Hrest Hhd]; subst.
  destruct (Nat.eqb a b); simpl; [exact Hrest|].
  constructor; [now apply IH|].
  clear - Hhd. induction rest as [|[c x] rest IH]; simpl in *; [constructor|].
  inversion Hhd as [|? ? Hx Hrest]; subst.
  destruct (Nat.eqb a c); simpl; [exact Hrest|].
  constructor; [exact Hx|now apply IH].
Qed.

Lemma all_ids_below (s : state) :
  NoDup (map fst (list s)) ->
  (forall a e, lookup a (list s) = Some e -> (0 < id e <= id_ctr s)%N) ->
  Forall (fun i => (i < id_ctr s + 1)%N) (map idof (list s)).
Proof.
  intros Hnd Hbound. apply Forall_forall. intros i Hi.
  apply in_map_iff in Hi. destruct Hi as ([a e] & <- & Hin).
  apply (vm_spec.lookup_In _ _ _ Hnd) in Hin.
  specialize (Hbound _ _ Hin). unfold idof. simpl. lia.
Qed.

Lemma eval_ctor_ids this cur o s s' :
  parent_inv (list s) -> ids_inv s ->
  (id_ctr s + 1 < uint64_modulus)%N ->
  eval_ctor this cur o s = Some s' ->
  ids_inv s' /\ id_ctr s' = (id_ctr s + 1)%N.
Proof.
  intros (Hnd & Hpar & _) (Hasc & Hbound & Holder) Hwrap Hctor.
  destruct (eval_ctor_list _ _ _ _ _ Hnd Hctor) as (Hfresh & Hid & Hlist).
  rewrite N.mod_small in Hid by exact Hwrap.
  split; [|exact Hid].
  pose proof (all_ids_below s Hnd Hbound) as Hbelow.
  destruct (find_parent this cur (list s)) as [p0|].
  - destruct Hlist as (pe0 & Hp0 & Hchild0 & Hne0 & Hctx0 & Hl').
    rewrite Hid in Hl'.
    set (self := new_eval o cur (id_ctr s + 1) (Some p0)) in *.
    assert (Hl : forall a,
               lookup a (list s') =
               if Nat.eqb a this then Some self
               else if Nat.eqb a p0 then Some (set_child (Some this) pe0)
                    else lookup a (list s))
      by (intros a; rewrite Hl'; now apply lookup_ctor_child).
    assert (Hold : forall a e,
               a <> this -> lookup a (list s') = Some e ->
               exists e0, lookup a (list s) = Some e0 /\
                          id e0 = id e /\ parent e0 = parent e).
    { intros a e Hat Ha. rewrite Hl in Ha.
      destruct (Nat.eqb_spec a this); [contradiction|].
      destruct (Nat.eqb_spec a p0) as [->|].
      - injection Ha as <-. now exists pe0.
      - now exists e. }
    split; [|split].
    + rewrite Hl', map_app, map_idof_update by reflexivity.
      now apply ascending_snoc.
    + intros a e Ha. rewrite Hid.
      destruct (Nat.eq_dec a this) as [->|Hat].
      * rewrite Hl, Nat.eqb_refl in Ha. injection Ha as <-. simpl. lia.
      * destruct (Hold _ _ Hat Ha) as (e0 & Ha0 & <- & _).
        specialize (Hbound _ _ Ha0). lia.
    + intros a e p pe Ha Hp Hpe.
      destruct (Nat.eq_dec a this) as [->|Hat].
      * rewrite Hl, Nat.eqb_refl in Ha. injection Ha as <-.
        simpl in Hp. injection Hp as <-.
        destruct (Hold _ _ Hne0 Hpe) as (e0 & Hpe0 & <- & _).
        specialize (Hbound _ _ Hpe0). simpl. lia.
      * destruct (Hold _ _ Hat Ha) as (e0 & Ha0 & <- & Hp0').
        rewrite <- Hp0' in Hp.
        destruct (Hpar _ _ _ Ha0 Hp) as (_ & pe' & Hpe' & _).
        assert (Hpt : p <> this) by congruence.
        destruct (Hold _ _ Hpt Hpe) as (pe1 & Hpe1 & <- & _).
        now apply (Holder a e0 p pe1).
  - rewrite Hid in Hlist.
    set (self := new_eval o cur (id_ctr s + 1) None) in *.
    assert (Hl : forall a, lookup a (list s') =
                           if Nat.eqb a this then Some self else lookup a (list s))
      by (intros a; rewrite Hlist; now apply lookup_ctor_orphan).
    split; [|split].
    + rewrite Hlist, map_app. now apply ascending_snoc.
    + intros a e Ha. rewrite Hid. rewrite Hl in Ha.
      destruct (Nat.eqb_spec a this) as [->|Hat].
      * injection Ha as <-. simpl. lia.
      * specialize (Hbound _ _ Ha). lia.
    + intros a e p pe Ha Hp Hpe. rewrite Hl in Ha, Hpe.
      destruct (Nat.eqb_spec a this) as [->|Hat].
      * injection Ha as <-. discriminate.
      * destruct (Hpar _ _ _ Ha Hp) as (_ & pe' & Hpe' & _).
        destruct (Nat.eqb_spec p this) as [->|]; [congruence|].
        now apply (Holder a e p pe).
Qed.

Lemma eval_dtor_ids this s s' :
  parent_inv (list s) -> ids_inv s ->
  eval_dtor this s = Some s' ->
  ids_inv s' /\ id_ctr s' = id_ctr s.
Proof.
  intros (Hnd & Hpar & _) (Hasc & Hbound & Holder) Hdtor.
  destruct (eval_dtor_list _ _ _ Hdtor) as (Hid & e & Hthis & Hchild & Hlist).
  split; [|exact Hid].
  assert (Hshape : exists l0,
             list s' = remove this l0 /\ map idof l0 = map idof (list s) /\
             NoDup (map fst l0) /\
             forall a x, lookup a l0 = Some x ->
               exists x0, lookup a (list s) = Some x0 /\
                          id x0 = id x /\ parent x0 = parent x).
  { destruct (parent e) as [p0|].
    - destruct Hlist as (pe0 & Hp0 & _ & Hl').
      exists (update p0 (set_child None) (list s)).
      split; [exact Hl'|]. split; [now apply map_idof_update|].
      split; [now rewrite vm_spec.map_fst_update|].
      intros a x Ha. rewrite vm_spec.lookup_update in Ha.
      destruct (Nat.eqb_spec a p0) as [->|].
      + rewrite Hp0 in Ha. injection Ha as <-. now exists pe0.
      + now exists x.
    - exists (list s). repeat split; auto. intros a x Ha. now exists x. }
  destruct Hshape as (l0 & Hl' & Hids & Hnd0 & Hold0).
  assert (Hold : forall a x, lookup a (list s') = Some x ->
             exists x0, lookup a (list s) = Some x0 /\
                        id x0 = id x /\ parent x0 = parent x).
  { intros a x Ha. rewrite Hl', vm_spec.lookup_remove in Ha by exact Hnd0.
    destruct (Nat.eqb a this); [discriminate|]. now apply Hold0. }
  split; [|split].
  - rewrite Hl'. apply ascending_remove. now rewrite Hids.
  - intros a x Ha. rewrite Hid.
    destruct (Hold _ _ Ha) as (x0 & Ha0 & <- & _). now apply (Hbound a).
  - intros a x p pe Ha Hp Hpe.
    destruct (Hold _ _ Ha) as (x0 & Ha0 & <- & Hp').
    destruct (Hold _ _ Hpe) as (pe0 & Hpe0 & <- & _).
    rewrite <- Hp' in Hp. now apply (Holder a x0 p pe0).
Qed.


Lemma run_ids ops :
  forall s s',
    parent_inv (list s) -> ids_inv s ->
    (id_ctr s + N.of_nat (List.length ops) < uint64_modulus)%N ->
    run ops s = Some s' ->
    ids_inv s' /\ (id_ctr s' <= id_ctr s + N.of_nat (List.length ops))%N.
Proof.
  induction ops as [|o rest IH]; intros s s' Hpar Hids Hwrap Hrun.
  - simpl in Hrun. injection Hrun as <-. split; [exact Hids|lia].
  - cbn [run] in Hrun. destruct (step s o) as [s1|] eqn:Hstep; [|discriminate].
    cbn [List.length] in Hwrap |- *.
    assert (Hpar1 : parent_inv (list s1)).
    { destruct o as [this cur o|this]; simpl in Hstep.
      - now apply (eval_ctor_parent_inv this cur o s).
      - now apply (eval_dtor_parent_inv this s). }
    assert (Hstep1 : ids_inv s1 /\ (id_ctr s1 <= id_ctr s + 1)%N).
    { destruct o as [this cur o|this]; simpl in Hstep.
      - destruct (eval_ctor_ids this cur o s s1) as [H1 H2]; auto; [lia|].
        split; [exact H1|lia].
      - destruct (eval_dtor_ids this s s1) as [H1 H2]; auto.
        split; [exact H1|lia]. }
    destruct Hstep1 as [Hids1 Hctr1].
    destruct (IH s1 s' Hpar1 Hids1) as [Hids' Hctr']; [lia|exact Hrun|].
    split; [exact Hids'|lia].
Qed.

Lemma init_ids : ids_inv init.
Proof.
  split; [constructor|]. split.
  - intros a e H. discriminate.
  - intros a e p pe H. discriminate.
Qed.

(** X11.  As long as the id counter has not wrapped around, which takes
    2^64 constructions: the live evaluations are on the list in ascending
    order of their ids, so in the order of their construction and no two
    with one id; every id is positive and not greater than the counter;
    and the parent of an evaluation has a smaller id than the
    evaluation, that is, it was constructed before it. *)
Theorem registry_ids (ops : Datatypes.list op) (s : state) :
  run ops init = Some s ->
  (N.of_nat (List.length ops) < uint64_modulus)%N ->
  StronglySorted (fun x y => (id (snd x) < id (snd y))%N) (list s) /\
  NoDup (map (fun x => id (snd x)) (list s)) /\
  (forall a e, In (a, e) (list s) -> (0 < id e <= id_ctr s)%N) /\
  (id_ctr s <= N.of_nat (List.length ops))%N /\
  (forall a e p pe,
     In (a, e) (list s) -> parent e = Some p -> In (p, pe) (list s) ->
     (id pe < id e)%N).
Proof.
  intros Hrun Hwrap.
  pose proof (run_parent_inv _ _ _ init_parent_inv Hrun) as Hpar.
  destruct (run_ids ops init s init_parent_inv init_ids) as [Hids Hctr];
    [simpl; lia|exact Hrun|].
  destruct Hpar as (Hnd & _). destruct Hids as (Hasc & Hbound & Holder).
  assert (Hsorted : StronglySorted (fun x y => (id (snd x) < id (snd y))%N) (list s)).
  { clear - Hasc. induction (list s) as [|x rest IH]; [constructor|].
    simpl in Hasc. inversion Hasc as [|? ? Hrest Hhd]; subst.
    constructor; [now apply IH|].
    rewrite Forall_map in Hhd. exact Hhd. }
  split; [exact Hsorted|]. split; [|split; [|split]].
  - clear - Hasc. fold idof. induction (map idof (list s)) as [|i rest IH];
      [constructor|].
    inversion Hasc as [|? ? Hrest Hhd]; subst. constructor; [|now apply IH].
    intros Hin. rewrite Forall_forall in Hhd. specialize (Hhd _ Hin). lia.
  - intros a e Hin. apply (vm_spec.lookup_In _ _ _ Hnd) in Hin. now apply (Hbound a).
  - simpl in Hctr. exact Hctr.
  - intros a e p pe Ha Hp Hpe.
    apply (vm_spec.lookup_In _ _ _ Hnd) in Ha, Hpe. now apply (Holder a e p pe).
Qed.

(** X11 at the registry of the two tasks with three evaluations nested
    in the first. *)
Lemma registry_ids_witness :
  StronglySorted (fun x y => (id (snd x) < id (snd y))%N)
                 (list vm_spec.nested_state) /\
  NoDup (map (fun x => id (snd x)) (list vm_spec.nested_state)) /\
  (forall a e, In (a, e) (list vm_spec.nested_state) ->
               (0 < id e <= id_ctr vm_spec.nested_state)%N) /\
  (id_ctr vm_spec.nested_state
   <= N.of_nat (List.length (firstn 4 vm_spec.nested_ops)))%N /\
  (forall a e p pe,
     In (a, e) (list vm_spec.nested_state) -> parent e = Some p ->
     In (p, pe) (list vm_spec.nested_state) -> (id pe < id e)%N).
Proof.
  apply (registry_ids (firstn 4 vm_spec.nested_ops) vm_spec.nested_state).
  - reflexivity.
  - vm_compute. reflexivity.
Defined.


(** ** The keys the parallel fetch asks for *)

(** A set in the order of a comparison that is a strict total order. *)
Section Ordered.
Context {A : Type} (less : A -> A -> bool).
Hypothesis less_asym : forall a b, less a b = true -> less b a = false.
Hypothesis less_trans :
  forall a b c, less a b = true -> less b c = true -> less a c = true.
Hypothesis less_total : forall a b, less a b = false -> less b a = false -> a = b.

Let ascending (l : Datatypes.list A) : Prop :=
  StronglySorted (fun a b => less a b = true) l.

Lemma emplace_self x (l : Datatypes.list A) : In x (stdset.emplace less x l).
Proof.
  induction l as [|y rest IH]; simpl; [now left|].
  destruct (less x y) eqn:Hxy; [now left|].
  destruct (less y x) eqn:Hyx; [now right|].
  left. symmetry. now apply less_total.
Qed.

Lemma emplace_ascending x (l : Datatypes.list A) :
  ascending l -> ascending (stdset.emplace less x l).
Proof.
  unfold ascending. induction l as [|y rest IH]; simpl; intros Hs.
  - repeat constructor.
  - inversion Hs as [|? ? Hrest Hy]; subst.
    destruct (less x y) eqn:Hxy.
    + constructor; [exact Hs|]. constructor; [exact Hxy|].
      rewrite Forall_forall in Hy |- *. intros z Hz.
      exact (less_trans _ _ _ Hxy (Hy z Hz)).
    + destruct (less y x) eqn:Hyx; [|exact Hs].
      constructor; [now apply IH|].
      rewrite Forall_forall in Hy |- *. intros z Hz.
      apply stdset_spec.emplace_In in Hz. destruct Hz as [->|Hz]; auto.
Qed.

Lemma ascending_NoDup (l : Datatypes.list A) : ascending l -> NoDup l.
Proof.
  unfold ascending. induction l as [|y rest IH]; intros Hs; [constructor|].
  inversion Hs as [|? ? Hrest Hy]; subst. constructor; [|now apply IH].
  intros Hin. rewrite Forall_forall in Hy. specialize (Hy _ Hin).
  rewrite (less_asym _ _ Hy) in Hy. discriminate.
Qed.
End Ordered.

Lemma pair_less_asym a b :
  stdset.pair_less a b = true -> stdset.pair_less b a = false.
Proof.
  unfold stdset.pair_less.
  destruct (String.ltb (fst a) (fst b)) eqn:Hab.
  - intros _. now rewrite (string_order.ltb_asym _ _ Hab).
  - destruct (String.ltb (fst b) (fst a)) eqn:Hba; [discriminate|].
    apply string_order.ltb_asym.
Qed.

Lemma pair_less_total a b :
  stdset.pair_less a b = false -> stdset.pair_less b a = false -> a = b.
Proof.
  unfold stdset.pair_less. destruct a as [a1 a2], b as [b1 b2]. simpl.
  destruct (String.ltb a1 b1) eqn:Hab; [discriminate|].
  destruct (String.ltb b1 a1) eqn:Hba; [discriminate|].
  intros H1 H2. f_equal; now apply string_order.ltb_total.
Qed.

Lemma pair_less_trans a b c :
  stdset.pair_less a b = true -> stdset.pair_less b c = true ->
  stdset.pair_less a c = true.
Proof.
  unfold stdset.pair_less. destruct a as [a1 a2], b as [b1 b2], c as [c1 c2]. simpl.
  destruct (String.ltb a1 b1) eqn:Hab.
  - intros _. destruct (String.ltb b1 c1) eqn:Hbc.
    + intros _. now rewrite (string_order.ltb_trans _ _ _ Hab Hbc).
    + destruct (String.ltb c1 b1) eqn:Hcb; [discriminate|]. intros _.
      rewrite <- (string_order.ltb_total _ _ Hbc Hcb). now rewrite Hab.
  - destruct (String.ltb b1 a1) eqn:Hba; [discriminate|].
    pose proof (string_order.ltb_total _ _ Hab Hba) as ->. intros H2.
    destruct (String.ltb b1 c1); [reflexivity|].
    destruct (String.ltb c1 b1); [discriminate|].
    now apply (string_order.ltb_trans _ b2).
Qed.

Definition ascending_keys (miss : Datatypes.list server_key) : Prop :=
  StronglySorted (fun a b => stdset.pair_less a b = true) miss.

Section MissComplete.
Variable cache_has : string -> string -> bool.

Lemma miss_keys_complete origin signatures_ :
  forall miss,
    (ascending_keys miss -> ascending_keys (miss_keys cache_has origin signatures_ miss)) /\
    (forall q, In q miss -> In q (miss_keys cache_has origin signatures_ miss)) /\
    (forall key_id signature,
       In (key_id, signature) signatures_ -> cache_has origin key_id = false ->
       In (origin, key_id) (miss_keys cache_has origin signatures_ miss)).
Proof.
  unfold miss_keys.
  induction signatures_ as [|[key_id signature] rest IH]; simpl; intros miss.
  - split; [auto|]. split; [auto|]. intros k x [].
  - destruct (IH (if negb (cache_has origin key_id)
                  then stdset.emplace stdset.pair_less (origin, key_id) miss
                  else miss)) as (Hs & Hkeep & Hnew).
    split; [|split].
    + intros Hmiss. apply Hs. destruct (cache_has origin key_id); simpl; [exact Hmiss|].
      now apply (emplace_ascending _ pair_less_trans).
    + intros q Hq. apply Hkeep. destruct (cache_has origin key_id); simpl; [exact Hq|].
      now apply stdset_spec.emplace_incl.
    + intros k x [[= <- <-]|Hin] Hhas; [|now apply (Hnew k x)].
      apply Hkeep. rewrite Hhas. simpl.
      apply (emplace_self _ pair_less_total).
Qed.

Lemma miss_signatures_complete origin all :
  forall miss,
    (ascending_keys miss ->
     ascending_keys (miss_signatures cache_has origin all miss)) /\
    (forall q, In q miss -> In q (miss_signatures cache_has origin all miss)) /\
    (forall signer signatures_ key_id signature,
       In (signer, signatures_) all -> In (key_id, signature) signatures_ ->
       cache_has origin key_id = false ->
       In (origin, key_id) (miss_signatures cache_has origin all miss)).
Proof.
  unfold miss_signatures.
  induction all as [|[signer signatures_] rest IH]; simpl; intros miss.
  - split; [auto|]. split; [auto|]. intros sn sg k x [].
  - destruct (IH (miss_keys cache_has origin signatures_ miss)) as (Hs & Hkeep & Hnew).
    destruct (miss_keys_complete origin signatures_ miss) as (Hs1 & Hkeep1 & Hnew1).
    split; [auto|]. split; [auto|].
    intros sn sg k x [[= <- <-]|Hin] Hk Hhas.
    + apply Hkeep. now apply (Hnew1 k x).
    + now apply (Hnew sn sg k x).
Qed.
End MissComplete.


Lemma considered_dec o event :
  (m.defined (node_id o) && negb (String.eqb (node_id o) (m.origin_of event)) = false)
  <-> vm_spec.considered o event.
Proof.
  unfold vm_spec.considered.
  destruct (m.defined (node_id o)); simpl.
  - destruct (String.eqb_spec (node_id o) (m.origin_of event)); simpl.
    + tauto.
    + split; [discriminate|]. intros [H|H]; [discriminate|contradiction].
  - tauto.
Qed.

Lemma miss_pdus_complete cache_has o pdus_ :
  forall miss,
    match miss_pdus cache_has o pdus_ miss with
    | Ret miss' =>
        (ascending_keys miss -> ascending_keys miss') /\
        (forall q, In q miss -> In q miss') /\
        (forall event key_id,
           In event pdus_ -> vm_spec.considered o event ->
           vm_spec.signed_with event key_id ->
           cache_has (m.origin_of event) key_id = false ->
           In (m.origin_of event, key_id) miss') /\
        (forall event, In event pdus_ -> vm_spec.considered o event ->
                       m.signatures event <> None)
    | Throw x =>
        x = json_not_found "signatures" /\
        exists event, In event pdus_ /\ vm_spec.considered o event /\
                      m.signatures event = None
    | _ => False
    end.
Proof.
  induction pdus_ as [|event rest IH]; intros miss.
  - simpl. split; [auto|]. split; [auto|]. split; [intros ev k []|intros ev []].
  - cbn [miss_pdus].
    destruct (m.defined (node_id o)
              && negb (String.eqb (node_id o) (m.origin_of event))) eqn:Hskip.
    + assert (Hnot : ~ vm_spec.considered o event).
      { intros Hc. apply considered_dec in Hc. congruence. }
      specialize (IH miss).
      destruct (miss_pdus cache_has o rest miss) as [miss'|x| |]; auto.
      * destruct IH as (Hs & Hkeep & Hnew & Hsig). repeat split; auto.
        -- intros ev k [<-|Hin] Hc; [contradiction|now apply Hnew].
        -- intros ev [<-|Hin] Hc; [contradiction|now apply Hsig].
      * destruct IH as (Hx & ev & Hin & Hc & Hnone). split; [exact Hx|].
        exists ev. split; [now right|now split].
    + apply considered_dec in Hskip.
      destruct (m.signatures event) as [all|] eqn:Hall.
      * specialize (IH (miss_signatures cache_has (m.origin_of event) all miss)).
        destruct (miss_signatures_complete cache_has (m.origin_of event) all miss)
          as (Hs1 & Hkeep1 & Hnew1).
        destruct (miss_pdus cache_has o rest _) as [miss'|x| |]; auto.
        -- destruct IH as (Hs & Hkeep & Hnew & Hsig). repeat split; auto.
           ++ intros ev k [<-|Hin] Hc Hsigned Hhas; [|now apply Hnew].
              destruct Hsigned as (all' & signer & sg & x & Hall' & Hsn & Hk).
              assert (all' = all) by congruence. subst all'.
              apply Hkeep. now apply (Hnew1 signer sg k x).
           ++ intros ev [<-|Hin] Hc; [congruence|now apply Hsig].
        -- destruct IH as (Hx & ev & Hin & Hc & Hnone). split; [exact Hx|].
           exists ev. split; [now right|now split].
      * split; [reflexivity|]. exists event. split; [now left|now split].
Qed.

(** X12.  When [mfetch_keys] calls the batched fetch, its queries are in
    ascending order without a duplicate and hold every key that signs an
    event of the batch, is absent from the cache and belongs to an event
    that [opts.node_id] does not pass over; when it returns without the
    call every such key is cached.  It throws exactly when an event that
    is not passed over has no [signatures], and then
    [json::not_found]. *)
Theorem mfetch_keys_complete (cache_has : string -> string -> bool) (e : eval) :
  (forall queries, mfetch_keys cache_has e = Ret (Some queries) ->
     ascending_keys queries /\ NoDup queries /\
     forall event key_id,
       In event (pdus e) -> vm_spec.considered (eval_opts e) event ->
       vm_spec.signed_with event key_id ->
       cache_has (m.origin_of event) key_id = false ->
       In (m.origin_of event, key_id) queries) /\
  (mfetch_keys cache_has e = Ret None ->
   forall event key_id,
     In event (pdus e) -> vm_spec.considered (eval_opts e) event ->
     vm_spec.signed_with event key_id ->
     cache_has (m.origin_of event) key_id = true) /\
  ((exists event, In event (pdus e) /\ vm_spec.considered (eval_opts e) event /\
                  m.signatures event = None) <->
   mfetch_keys cache_has e = Throw (json_not_found "signatures")) /\
  (forall x, mfetch_keys cache_has e = Throw x -> x = json_not_found "signatures") /\
  mfetch_keys cache_has e <> Abort /\ mfetch_keys cache_has e <> Diverge.
Proof.
  unfold mfetch_keys.
  pose proof (miss_pdus_complete cache_has (eval_opts e) (pdus e) []) as H.
  destruct (miss_pdus cache_has (eval_opts e) (pdus e) []) as [miss|x| |];
    try contradiction.
  - destruct H as (Hs & _ & Hnew & Hsig).
    assert (Hasc : ascending_keys miss) by (apply Hs; constructor).
    split; [|split; [|split; [|split; [|split]]]].
    + intros queries Hq. destruct miss as [|q0 miss]; [discriminate|].
      injection Hq as <-. split; [exact Hasc|].
      split; [exact (ascending_NoDup _ pair_less_asym _ Hasc)|exact Hnew].
    + intros Hq event key_id Hin Hc Hsigned.
      destruct miss as [|q0 miss]; [|discriminate].
      destruct (cache_has (m.origin_of event) key_id) eqn:Hhas; [reflexivity|].
      now destruct (Hnew event key_id Hin Hc Hsigned Hhas).
    + split.
      * intros (event & Hin & Hc & Hnone). now destruct (Hsig event Hin Hc).
      * destruct miss; discriminate.
    + intros x Hx. destruct miss; discriminate.
    + destruct miss; discriminate.
    + destruct miss; discriminate.
  - destruct H as (-> & Hev).
    split; [|split; [|split; [|split; [|split]]]]; try discriminate.
    + split; [reflexivity|intros _; exact Hev].
    + now intros x [= <-].
Qed.


(** ** Unique sequence numbers and the evaluations of a task *)

Lemma count_if_filter {A : Type} (pred : A -> bool) (l : Datatypes.list A) :
  count_if pred l = List.length (filter pred l).
Proof.
  induction l as [|x rest IH]; simpl; [reflexivity|].
  destruct (pred x); simpl; now rewrite IH.
Qed.

Lemma count_if_none {A : Type} (pred : A -> bool) (l : Datatypes.list A) :
  count_if pred l = 0 <-> forall x, In x l -> pred x = false.
Proof.
  induction l as [|x rest IH]; simpl.
  - split; [intros _ y []|reflexivity].
  - destruct (pred x) eqn:Hx.
    + split; [discriminate|]. intros H. specialize (H x (or_introl eq_refl)). congruence.
    + rewrite IH. split.
      * intros H y [<-|Hy]; auto.
      * intros H y Hy. apply H. now right.
Qed.

(** X20.  [sequnique(seq)] is true exactly when one live evaluation has
    the sequence number [seq] and no other has it. *)
Theorem sequnique_spec (seq : N) (l : instance_list) :
  sequnique seq l = true <->
  exists before x after,
    l = before ++ x :: after /\ seq_of x = seq /\
    (forall y, In y before -> seq_of y <> seq) /\
    (forall y, In y after -> seq_of y <> seq).
Proof.
  unfold sequnique. rewrite Nat.eqb_eq.
  set (pred := fun e : addr * eval => N.eqb (seq_of e) seq).
  assert (Hnot : forall y, pred y = false <-> seq_of y <> seq)
    by (intros y; unfold pred; apply N.eqb_neq).
  induction l as [|y rest IH]; simpl.
  - split; [discriminate|]. intros (before & x & after & Hl & _).
    now destruct before.
  - destruct (pred y) eqn:Hy.
    + split.
      * intros [= Hcount]. symmetry in Hcount.
        pose proof (proj1 (count_if_none pred rest) Hcount) as Hrest.
        exists [], y, rest. split; [reflexivity|].
        split; [now apply N.eqb_eq|]. split; [intros z []|].
        intros z Hz. now apply Hnot, Hrest.
      * intros (before & x & after & Hl & Hx & Hb & Ha).
        destruct before as [|b before]; simpl in Hl; injection Hl as <- ->.
        -- f_equal. symmetry. apply (proj2 (count_if_none pred after)).
           intros z Hz. now apply Hnot, Ha.
        -- exfalso. apply (Hb y); [now left|]. now apply N.eqb_eq.
    + rewrite IH. split.
      * intros (before & x & after & -> & Hx & Hb & Ha).
        exists (y :: before), x, after. split; [reflexivity|].
        split; [exact Hx|]. split; [|exact Ha].
        intros z [<-|Hz]; [now apply Hnot|now apply Hb].
      * intros (before & x & after & Hl & Hx & Hb & Ha).
        destruct before as [|b before]; simpl in Hl; injection Hl as <- ->.
        -- apply N.eqb_eq in Hx. unfold pred in Hy. congruence.
        -- exists before, x, after. split; [reflexivity|].
           split; [exact Hx|]. split; [|exact Ha].
           intros z Hz. apply Hb. now right.
Qed.

Lemma NoDup_map_filter {A B : Type} (f : A -> B) (pred : A -> bool)
    (l : Datatypes.list A) :
  NoDup (map f l) -> NoDup (map f (filter pred l)).
Proof.
  induction l as [|x rest IH]; simpl; intros Hnd; [constructor|].
  inversion Hnd as [|? ? Hnotin Hnd']; subst.
  destruct (pred x); simpl; [|now apply IH].
  constructor; [|now apply IH].
  intros Hin. apply Hnotin. apply in_map_iff in Hin.
  destruct Hin as (y & Hy & Hin). apply filter_In in Hin.
  apply in_map_iff. exists y. now split.
Qed.

Lemma alone_on_task b c (l : instance_list) :
  NoDup (map fst l) ->
  (forall x, In x l -> ctx (snd x) = c -> fst x = b) ->
  count_ctx c l <= 1.
Proof.
  intros Hnd Hall. unfold count_ctx. rewrite count_if_filter.
  rewrite <- (length_map fst).
  change 1 with (List.length [b]).
  apply NoDup_incl_length; [now apply NoDup_map_filter|].
  intros a Ha. apply in_map_iff in Ha. destruct Ha as (x & <- & Hx).
  apply filter_In in Hx. destruct Hx as [Hx Hc]. apply Nat.eqb_eq in Hc.
  left. symmetry. now apply Hall.
Qed.

(** X21.  No address being on the list twice: [find_parent(b, c)] answers
    nothing when [count(c)] is 0 and an evaluation when [count(c)] is 2
    or more, whatever [b] is; and for a live evaluation [a] of the task
    [c] it answers nothing exactly when [count(c)] is 1, that is when
    [a] is the only live evaluation of its task. *)
Theorem count_find_parent (l : instance_list) :
  NoDup (map fst l) ->
  (forall b c, count_ctx c l = 0 -> find_parent b c l = None) /\
  (forall b c, 2 <= count_ctx c l -> find_parent b c l <> None) /\
  (forall a e, In (a, e) l ->
     (find_parent a (ctx e) l = None <-> count_ctx (ctx e) l = 1)).
Proof.
  intros Hnd.
  assert (Hnone : forall b c,
             find_parent b c l = None <->
             forall x, In x l -> ctx (snd x) = c -> fst x = b).
  { intros b c. pose proof (find_parent_cases b c l) as H.
    destruct (find_parent b c l) as [p|].
    - split; [discriminate|]. intros Hall.
      destruct H as (pe & Hin & Hc & Hne & _).
      now destruct Hne; apply (Hall (p, pe)).
    - split; [intros _; exact H|reflexivity]. }
  split; [|split].
  - intros b c Hzero. apply Hnone. intros x Hx Hc.
    unfold count_ctx in Hzero.
    pose proof (proj1 (count_if_none _ _) Hzero x Hx) as Hno.
    apply Nat.eqb_neq in Hno. contradiction.
  - intros b c Htwo Hp.
    pose proof (alone_on_task b c l Hnd (proj1 (Hnone b c) Hp)). lia.
  - intros a e Hin. split.
    + intros Hp.
      pose proof (alone_on_task a (ctx e) l Hnd (proj1 (Hnone a (ctx e)) Hp)) as Hle.
      assert (Hpos : count_ctx (ctx e) l <> 0).
      { intros Hzero. unfold count_ctx in Hzero.
        pose proof (proj1 (count_if_none _ _) Hzero (a, e) Hin) as Hno.
        simpl in Hno. now rewrite Nat.eqb_refl in Hno. }
      lia.
    + intros Hone. apply Hnone. intros x Hx Hc.
      unfold count_ctx in Hone. rewrite count_if_filter in Hone.
      assert (Ha : In (a, e) (filter (fun x => Nat.eqb (ctx (snd x)) (ctx e)) l))
        by (apply filter_In; split; [exact Hin|apply Nat.eqb_refl]).
      assert (Hx' : In x (filter (fun x => Nat.eqb (ctx (snd x)) (ctx e)) l))
        by (apply filter_In; split; [exact Hx|now apply Nat.eqb_eq]).
      destruct (filter (fun x => Nat.eqb (ctx (snd x)) (ctx e)) l) as [|y [|z more]];
        try discriminate.
      destruct Ha as [Ha|[]], Hx' as [Hx'|[]]. rewrite <- Hx', Ha. reflexivity.
Qed.

(** X21 at the registry of the two tasks with three evaluations nested
    in the first. *)
Lemma count_find_parent_witness :
  (forall b c, count_ctx c (list vm_spec.nested_state) = 0 ->
               find_parent b c (list vm_spec.nested_state) = None) /\
  (forall b c, 2 <= count_ctx c (list vm_spec.nested_state) ->
               find_parent b c (list vm_spec.nested_state) <> None) /\
  (forall a e, In (a, e) (list vm_spec.nested_state) ->
     (find_parent a (ctx e) (list vm_spec.nested_state) = None <->
      count_ctx (ctx e) (list vm_spec.nested_state) = 1)).
Proof.
  apply (count_find_parent (list vm_spec.nested_state)).
  vm_compute. repeat constructor; simpl; intuition discriminate.
Defined.

Example count_nested :
  count_ctx 7 (list vm_spec.nested_state) = 3 /\
  count_ctx 8 (list vm_spec.nested_state) = 1 /\
  find_parent 20 8 (list vm_spec.nested_state) = None /\
  find_parent 12 7 (list vm_spec.nested_state) = Some 11.
Proof. repeat split. Qed.


(** ** The assertions of the constructor and of the destructor *)

(** X22.  In every state the registry reaches from the empty one before
    the id counter wraps around, the assertion of the constructor holds
    for whatever task constructs an evaluation: the parent it finds, the
    youngest live evaluation of the task, has no child.  The assertions
    of the destructor hold exactly for a live evaluation without a
    child: its parent, when it has one, has it as its child. *)
Theorem ctor_dtor_assertions (ops : Datatypes.list op) (s : state) :
  run ops init = Some s ->
  (N.of_nat (List.length ops) < uint64_modulus)%N ->
  (forall this cur o,
     lookup this (list s) = None ->
     exists s', eval_ctor this cur o s = Some s') /\
  (forall this,
     (exists s', eval_dtor this s = Some s') <->
     (exists e, lookup this (list s) = Some e /\ child e = None)).
Proof.
  intros Hrun Hwrap.
  pose proof (run_parent_inv _ _ _ init_parent_inv Hrun) as (Hnd & Hpar & _).
  pose proof (vm_spec.run_inv _ _ _ vm_spec.init_inv Hrun) as (_ & Hchild).
  destruct (run_ids ops init s init_parent_inv init_ids) as [(_ & _ & Holder) _];
    [simpl; lia|exact Hrun|].
  split.
  - intros this cur o Hfresh. unfold eval_ctor, instance_list_ctor.
    rewrite Hfresh, vm_spec.find_parent_app_self.
    rewrite update_app_fresh by exact Hfresh.
    pose proof (find_parent_cases this cur (list s)) as Hfp.
    destruct (find_parent this cur (list s)) as [p|]; [|eexists; reflexivity].
    destruct Hfp as (pe & Hin & Hctx & Hne & Hmax).
    apply (vm_spec.lookup_In _ _ _ Hnd) in Hin.
    rewrite vm_spec.lookup_app by exact Hfresh.
    destruct (Nat.eqb_spec p this) as [|_]; [contradiction|].
    rewrite Hin. destruct (child pe) as [c|] eqn:Hc; [|eexists; reflexivity].
    exfalso.
    destruct (Hchild _ _ _ Hin Hc) as (ce & Hce & Hparent).
    destruct (Hpar _ _ _ Hce Hparent) as (_ & pe' & Hpe' & _ & Hsame).
    assert (pe' = pe) by congruence. subst pe'.
    pose proof (Holder _ _ _ _ Hce Hparent Hin) as Hyounger.
    assert (Hcin : In (c, ce) (list s)) by now apply (vm_spec.lookup_In _ _ _ Hnd).
    assert (Hcne : c <> this) by (intros ->; congruence).
    pose proof (Hmax (c, ce) Hcin) as Hle. simpl in Hle.
    specialize (Hle (eq_trans (eq_sym Hsame) Hctx) Hcne). lia.
  - intros this. split.
    + intros (s' & Hdtor).
      destruct (eval_dtor_list _ _ _ Hdtor) as (_ & e & He & Hc & _).
      now exists e.
    + intros (e & He & Hc). unfold eval_dtor. rewrite He, Hc.
      destruct (parent e) as [p|] eqn:Hp; [|eexists; reflexivity].
      destruct (Hpar _ _ _ He Hp) as (_ & pe & Hpe & Hpc & _).
      rewrite Hpe, Hpc, Nat.eqb_refl. eexists. reflexivity.
Qed.

(** X22 at the registry of the two tasks with three evaluations nested
    in the first: the first task constructs a fourth. *)
Lemma ctor_dtor_assertions_witness :
  exists s', eval_ctor 13 7 (mk_opts 0 false "") vm_spec.nested_state = Some s'.
Proof.
  apply (proj1 (ctor_dtor_assertions (firstn 4 vm_spec.nested_ops)
                  vm_spec.nested_state eq_refl eq_refl)).
  reflexivity.
Defined.


(** ** The registry at work *)

(** X5 at the registry of the two tasks: for the innermost evaluation of
    the first task [find_parent] answers the evaluation around it. *)
Lemma find_parent_spec_witness :
  exists e, In (11, e) (list vm_spec.nested_state) /\ ctx e = 7 /\ 11 <> 12 /\
            forall x, In x (list vm_spec.nested_state) -> ctx (snd x) = 7 ->
                      fst x <> 12 -> (id (snd x) <= id e)%N.
Proof.
  apply (proj1 (find_parent_spec 12 7 (list vm_spec.nested_state)) 11).
  reflexivity.
Defined.

(** X6 at the same evaluation, whose root is never answered. *)
Lemma find_root_spec_witness :
  find_root 1000 12 7 (list vm_spec.nested_state) = Diverge.
Proof.
  apply (proj1 (proj2 (find_root_spec 12 7 (list vm_spec.nested_state))) 11).
  reflexivity.
Defined.

(** An evaluation at work on the batch of two events of [eval_for_a],
    with an event body of its own, and one with an event body only. *)
Definition batch_and_body : instance_list :=
  [(1, mk_eval (mk_opts 10 false "") 0 1 0 (pdus vm_spec.eval_for_a) None
         (Some (m.mk_event "$body" 0 0 "" "" None)) "" None None);
   (2, mk_eval (mk_opts 10 false "") 0 2 0 [] None
         (Some (m.mk_event "$other" 0 0 "" "" None)) "" None None)].

Example find_pdu_batch :
  option_map m.event_id (find_pdu "$2" batch_and_body) = Some "$2" /\
  option_map m.event_id (find_pdu "$other" batch_and_body) = Some "$other" /\
  find_pdu "$body" batch_and_body = None.
Proof. repeat split. Qed.

(** X4 at that registry, for the event of the second evaluation. *)
Lemma find_pdu_spec_witness :
  in_evaluation batch_and_body (m.mk_event "$other" 0 0 "" "" None) /\
  m.event_id (m.mk_event "$other" 0 0 "" "" None) = "$other".
Proof.
  apply (proj1 (find_pdu_spec "$other" batch_and_body)
           (m.mk_event "$other" 0 0 "" "" None)).
  reflexivity.
Defined.

(** X12 at the batch on behalf of [a.org], where the fetch is called
    with the one query. *)
Lemma mfetch_keys_complete_witness :
  ascending_keys [("a.org", "ed25519:2")] /\ NoDup [("a.org", "ed25519:2")] /\
  forall event key_id,
    In event (pdus vm_spec.eval_for_a) ->
    vm_spec.considered (eval_opts vm_spec.eval_for_a) event ->
    vm_spec.signed_with event key_id ->
    vm_spec.cache_of_1 (m.origin_of event) key_id = false ->
    In (m.origin_of event, key_id) [("a.org", "ed25519:2")].
Proof.
  apply (proj1 (mfetch_keys_complete vm_spec.cache_of_1 vm_spec.eval_for_a)
           [("a.org", "ed25519:2")]).
  reflexivity.
Defined.


End vm_registry_spec.

(** * Properties of the set of requests and of its worker *)

Module fetch_requests_spec.

Import fetch fetch_requests fetch_spec.

Section Start.
Variable E : env.
(** The clock reads a time after the epoch. *)
Hypothesis clock_pos : forall i, (0 < time E i)%Z.

(** ** What [start] comes to *)

(** The request and the world once [start] has set [started]. *)
Definition stamped (r : request) (w : world) : st :=
  if Z.eqb (started r) 0 then (set_started (time E (tick w)) r, bump w) else (r, w).

(** No origin of the room passes the three tests at the read [t]. *)
Definition unviable (r : request) (t : nat) : Prop :=
  forall o, In o (origins E (room_id r)) ->
            my_host E o = true \/ In o (attempted r) \/ errmsg E t o = true.

(** The request on its way through [start], from [r0] in [w0]: nothing
    was issued yet. *)
Definition trying (r0 : request) (w0 : world) (s : st) : Prop :=
  same_request r0 (fst s) /\ finished (fst s) = 0%Z /\ sorted_attempted (fst s) /\
  promise (fst s) = promise r0 /\ eptr (fst s) = eptr r0 /\
  started (fst s) = started (fst (stamped r0 w0)) /\
  incl (attempted r0) (attempted (fst s)) /\
  tick w0 <= tick (snd s) /\ issued (snd s) = issued w0.

(** The origin of [r] is a server of the room other than this one that
    [r0] had not attempted. *)
Definition fresh_origin (r0 r : request) : Prop :=
  m.defined (origin r) = true /\ In (origin r) (origins E (room_id r0)) /\
  my_host E (origin r) = false /\ ~ In (origin r) (attempted r0) /\
  In (origin r) (attempted r).

(** [start] returned true: the request is in flight to its origin. *)
Definition issued_to_origin (r0 : request) (w0 : world) (s' : st) : Prop :=
  same_request r0 (fst s') /\ finished (fst s') = 0%Z /\ sorted_attempted (fst s') /\
  promise (fst s') = promise r0 /\ eptr (fst s') = eptr r0 /\
  started (fst s') = started (fst (stamped r0 w0)) /\
  incl (attempted r0) (attempted (fst s')) /\
  fresh_origin r0 (fst s') /\
  transport (fst s') = Some (origin (fst s')) /\
  (exists t, tick w0 <= t < tick (snd s') /\ last (fst s') = time E t) /\
  issued (snd s') = issued w0 ++ [(origin (fst s'), fst s')].

(** No origin was left to select: none of the room passed the tests, or
    the origin drawn was the empty string. *)
Definition none_left (r0 : request) (w0 : world) (s' : st) : Prop :=
  (exists t, tick w0 <= t < tick (snd s') /\ unviable (fst s') t) \/
  (In "" (origins E (room_id r0)) /\ In "" (attempted (fst s'))).

(** [start] returned false: the request is finished for want of an
    origin, and whoever waits on its promise gets [m::NOT_FOUND]. *)
Definition given_up (r0 : request) (w0 : world) (s' : st) : Prop :=
  same_request r0 (fst s') /\ sorted_attempted (fst s') /\
  incl (attempted r0) (attempted (fst s')) /\
  started (fst s') = started (fst (stamped r0 w0)) /\
  m.defined (origin (fst s')) = false /\
  (exists t, tick w0 <= t < tick (snd s') /\ finished (fst s') = time E t) /\
  issued (snd s') = issued w0 /\
  promise (fst s') = match promise r0 with
                     | promise_pending => promise_exception m_NOT_FOUND
                     | p => p
                     end /\
  eptr (fst s') = match promise r0 with
                  | promise_pending => None
                  | _ => Some m_NOT_FOUND
                  end /\
  none_left r0 w0 s'.

Definition start_result (r0 : request) (w0 : world) (o : outcome bool) (s' : st)
    : Prop :=
  match o with
  | Ret true => issued_to_origin r0 w0 s'
  | Ret false => given_up r0 w0 s'
  | _ => False
  end.

(** The selection failed: the handler of [start] is next. *)
Definition failing (r0 : request) (w0 : world) (s : st) : Prop :=
  trying r0 w0 s /\ m.defined (origin (fst s)) = false /\
  tick w0 < tick (snd s) /\
  (unviable (fst s) (pred (tick (snd s))) \/
   (In "" (origins E (room_id r0)) /\ In "" (attempted (fst s)))).

Lemma stamped_started r w : started (fst (stamped r w)) <> 0%Z.
Proof.
  unfold stamped. destruct (Z.eqb_spec (started r) 0) as [H|H]; simpl; [|exact H].
  pose proof (clock_pos (tick w)). lia.
Qed.

Lemma undefined_empty (s : string) : m.defined s = false -> s = "".
Proof. destruct s; [reflexivity|discriminate]. Qed.

Lemma attempted_count r o :
  sorted_attempted r ->
  (stdset.count String.ltb o (attempted r) = true <-> In o (attempted r)).
Proof.
  intros Hs. rewrite (stdset_spec.count_true (fun x : string => x) o _ Hs). split.
  - now intros (y & Hy & ->).
  - intros Hin. now exists o.
Qed.

Lemma random_unviable r t n :
  sorted_attempted r ->
  random (origins E (room_id r)) n (proffer E r t) = None -> unviable r t.
Proof.
  intros Hs Hnone o Ho.
  pose proof (proj1 (random_None _ _ _) Hnone o Ho) as Hp.
  unfold proffer in Hp.
  destruct (my_host E o); [now left|].
  destruct (stdset.count String.ltb o (attempted r)) eqn:Hc.
  - right; left. now apply attempted_count.
  - destruct (errmsg E t o); [now right; right|discriminate].
Qed.

Lemma handler_given_up r0 w0 r w :
  failing r0 w0 (r, w) ->
  wp (start_handler E m_NOT_FOUND) (r, w) (start_result r0 w0).
Proof.
  intros ((Hsame & Hfin & Hs & Hp & He & Hst & Hincl & Htick & Hlog)
          & Hundef & Hlater & Hnone).
  simpl in *. unfold start_handler.
  wp_steps; [|rewrite Hfin in Hassert; discriminate].
  apply wp_finish. cbv zeta. wp_steps. simpl.
  assert (Hleft : none_left r0 w0
            (match promise r with
             | promise_pending =>
                 set_promise (promise_exception m_NOT_FOUND)
                   (set_eptr None (set_finished (time E (tick w))
                                     (set_eptr (Some m_NOT_FOUND) r)))
             | _ => set_finished (time E (tick w)) (set_eptr (Some m_NOT_FOUND) r)
             end, bump w)).
  { destruct Hnone as [Hun|[H1 H2]].
    - left. exists (pred (tick w)). simpl. split; [lia|].
      now destruct (promise r).
    - right. split; [exact H1|]. now destruct (promise r). }
  unfold given_up. cbn [fst snd]. rewrite <- Hp.
  destruct (promise r) eqn:Hpr; simpl; repeat split; auto; try apply Hsame;
    try (exists (tick w); split; [lia|reflexivity]).
Qed.

Definition loop_result (r0 : request) (w0 : world) (o : outcome bool) (s' : st)
    : Prop :=
  match o with
  | Ret true => issued_to_origin r0 w0 s'
  | Ret false => False
  | Throw e => e = m_NOT_FOUND /\ failing r0 w0 s'
  | Abort => False
  | Diverge => True
  end.

Lemma trying_select r0 w0 r w o :
  trying r0 w0 (r, w) ->
  trying r0 w0
    (set_origin o (set_attempted (stdset.emplace String.ltb o (attempted r))
                     (set_origin "" r)), bump w).
Proof.
  intros (Hsame & Hfin & Hs & Hp & He & Hst & Hincl & Htick & Hlog). simpl in *.
  unfold trying, bump. simpl.
  repeat split; auto; try apply Hsame; try lia.
  - now apply (stdset_spec.emplace_sorted (fun x : string => x)).
  - intros x Hx. apply stdset_spec.emplace_incl. now apply Hincl.
Qed.

Lemma select_dichotomy r0 w0 r w (Q : outcome string -> st -> Prop) :
  trying r0 w0 (r, w) ->
  (forall r' w', trying r0 w0 (r', w') -> fresh_origin r0 r' ->
                 Q (Ret (origin r')) (r', w')) ->
  (forall s', failing r0 w0 s' -> Q (Throw m_NOT_FOUND) s') ->
  wp (select_random_origin E) (r, w) Q.
Proof.
  intros Htry Hsome Hnone. apply wp_select_random_origin. cbv zeta.
  pose proof Htry as (Hsame & Hfin & Hs & Hp & He & Hst & Hincl & Htick & Hlog).
  simpl in *.
  destruct (random _ _ _) as [o|] eqn:Hrandom.
  - pose proof (trying_select r0 w0 r w o Htry) as Htry'.
    apply random_proffer in Hrandom. destruct Hrandom as (Hin & Hhost & Hcount & _).
    assert (Hnew : In o (stdset.emplace String.ltb o (attempted r)))
      by now apply In_emplace_self.
    assert (Hroom : room_id r = room_id r0) by apply Hsame.
    destruct (m.defined o) eqn:Hdef.
    + apply (Hsome _ _ Htry'). unfold fresh_origin. simpl.
      rewrite <- Hroom. repeat split; auto.
      intros Hold. apply Hincl in Hold. apply (attempted_count r o Hs) in Hold.
      congruence.
    + apply Hnone. split; [exact Htry'|]. simpl. split; [exact Hdef|].
      split; [lia|]. right. apply undefined_empty in Hdef. subst o.
      rewrite <- Hroom. now split.
  - apply Hnone. split; [|split; [reflexivity|split; [simpl; lia|]]].
    + unfold trying, bump. simpl. repeat split; auto; try apply Hsame; lia.
    + left. simpl. now apply random_unviable with (n := rand E (tick w)).
Qed.

Lemma loop_dichotomy r0 w0 bound :
  forall remote r w,
    trying r0 w0 (r, w) -> fresh_origin r0 r -> remote = origin r ->
    wp (start_loop E bound remote) (r, w) (loop_result r0 w0).
Proof.
  induction bound as [|bound IH]; intros remote r w Htry Hfresh Hremote.
  - apply wp_start_loop_O; [|now intros _].
    intros Hundef. destruct Hfresh as (Hdef & _). congruence.
  - apply wp_start_loop_S.
    { intros Hundef. destruct Hfresh as (Hdef & _). congruence. }
    intros _. apply wp_bind, wp_start_opts. cbv zeta.
    pose proof Htry as (Hsame & Hfin & Hs & Hp & He & Hst & Hincl & Htick & Hlog).
    simpl in *. rewrite Hfin. simpl.
    assert (Hstarted : Z.eqb (started r) 0 = false).
    { apply Z.eqb_neq. rewrite Hst. apply stamped_started. }
    rewrite Hstarted.
    destruct (issue E (S (tick w)) remote).
    + cbv iota. apply wp_bind. apply (select_dichotomy r0 w0).
      * repeat split; auto; try apply Hsame. simpl. lia.
      * intros r' w' Htry' Hfresh'. wp_steps. now apply IH.
      * intros s' Hfail. now split.
    + cbv iota. apply wp_ret. unfold loop_result, issued_to_origin. simpl.
      destruct Hfresh as (Hdef & Hin & Hhost & Hold & Hnew). subst remote.
      repeat split; auto; try apply Hsame.
      * exists (tick w). split; [lia|reflexivity].
      * now rewrite Hlog.
Qed.


Lemma wp_conj {A : Type} (c : M A) s (Q1 Q2 : outcome A -> st -> Prop) :
  wp c s Q1 -> wp c s Q2 -> wp c s (fun o s' => Q1 o s' /\ Q2 o s').
Proof. unfold wp. auto. Qed.

Lemma loop_then_dichotomy r0 w0 remote r w :
  trying r0 w0 (r, w) -> fresh_origin r0 r -> remote = origin r ->
  wp (returned <- start_loop E (S (List.length (origins E (room_id r)))) remote ;;
      start_after_loop E returned)
     (r, w) (start_caught E (start_result r0 w0)).
Proof.
  intros Htry Hfresh Hremote. apply wp_bind.
  pose proof Htry as (_ & Hfin & Hs & _). simpl in Hfin, Hs.
  eapply wp_mono.
  - apply wp_conj.
    + now apply (loop_dichotomy r0 w0).
    + apply start_loop_returns; [exact Hfin|exact Hs|].
      unfold unattempted. pose proof (filter_length_le
        (fun o => negb (stdset.count String.ltb o (attempted r)))
        (origins E (room_id r))). lia.
  - intros o [r' w'] [H1 (Ho & _)]. destruct Ho as [-> | [-> | ->]]; cbv iota.
    + unfold start_after_loop. apply wp_ret. exact H1.
    + destruct H1.
    + apply handler_given_up. apply H1.
Qed.

Lemma start_dichotomy r w :
  finished r = 0%Z -> origin r = "" -> sorted_attempted r ->
  wp (start E) (r, w) (start_result r w).
Proof.
  intros Hfin Horigin Hs. apply wp_start. unfold start_body.
  assert (Hselect : forall r1 w1,
            trying r w (r1, w1) ->
            wp (select_random_origin E) (r1, w1)
               (fun o s' =>
                  match o with
                  | Ret _ =>
                      wp (r0 <- this_request ;; ret (origin r0)) s'
                         (fun o0 s'0 =>
                            match o0 with
                            | Ret a0 =>
                                wp (r0 <- this_request ;;
                                    returned <- start_loop E
                                      (S (List.length (origins E (room_id r0)))) a0 ;;
                                    start_after_loop E returned)
                                   s'0 (start_caught E (start_result r w))
                            | Throw e =>
                                start_caught E (start_result r w) (Throw e) s'0
                            | Abort => start_caught E (start_result r w) Abort s'0
                            | Diverge => start_caught E (start_result r w) Diverge s'0
                            end)
                  | Throw e => start_caught E (start_result r w) (Throw e) s'
                  | Abort => start_caught E (start_result r w) Abort s'
                  | Diverge => start_caught E (start_result r w) Diverge s'
                  end)).
  { intros r1 w1 Htry. apply (select_dichotomy r w); [exact Htry| |].
    - intros r' w' Htry' Hfresh. wp_steps. now apply loop_then_dichotomy.
    - intros [r' w'] Hfail. now apply handler_given_up. }
  wp_steps.
  - apply Hselect. unfold trying, stamped, bump. rewrite Heqb. simpl.
    repeat split; auto. apply incl_refl.
  - simpl in *. rewrite Horigin in *. discriminate.
  - apply Hselect. unfold trying, stamped. rewrite Heqb. simpl.
    repeat split; auto. apply incl_refl.
  - rewrite Horigin in *. discriminate.
  - rewrite Hfin in Hassert. discriminate.
Qed.


(** X13.  With a clock that reads times after the epoch, [start] on a
    request that is not finished and has no origin returns, and does one
    of two things.  It returns true, and then the request was issued
    once, to its origin, which is a server of the room other than this
    one that had not been attempted before; the request is in flight to
    it, not finished, its promise untouched.  Or it returns false, and
    then nothing was issued, no origin was left to select, the request
    is finished and a promise that was pending has [m::NOT_FOUND] as its
    exception. *)
Theorem start_spec (r : request) (w : world) :
  finished r = 0%Z -> origin r = "" -> sorted_attempted r ->
  (fst (start E (r, w)) = Ret true /\ issued_to_origin r w (snd (start E (r, w)))) \/
  (fst (start E (r, w)) = Ret false /\ given_up r w (snd (start E (r, w)))).
Proof.
  intros Hfin Horigin Hs.
  pose proof (start_dichotomy r w Hfin Horigin Hs) as H. unfold wp in H.
  destruct (start E (r, w)) as [[[|]|e| |] s']; simpl in *; try contradiction.
  - now left.
  - now right.
Qed.

(** ** What [retry] and [handle] come to *)

(** The request as [retry] hands it to [start]. *)
Definition retried (r : request) : request :=
  set_origin "" (set_eptr None (set_transport None r)).

Definition retry_result (r : request) (w : world) (s' : st) : Prop :=
  issued_to_origin (retried r) w s' \/ given_up (retried r) w s'.

Lemma retry_dichotomy r w :
  finished r = 0%Z -> started r <> 0%Z -> last r <> 0%Z -> sorted_attempted r ->
  wp (retry E) (r, w) (fun o s' => o = Ret tt /\ retry_result r w s').
Proof.
  intros Hfin Hst Hlast Hs. unfold retry. apply wp_try_catch.
  apply wp_bind, wp_this_request. cbv beta iota. cbn [fst].
  apply wp_bind, wp_assert; [intros _|intros H; rewrite Hfin in H; discriminate].
  apply wp_bind, wp_assert.
  2:{ intros H. apply Z.eqb_neq in Hst, Hlast. rewrite Hst, Hlast in H. discriminate. }
  intros _. unfold server_cancel.
  apply wp_bind, wp_modify. cbv beta iota. cbn [fst snd].
  apply wp_bind, wp_modify. cbv beta iota. cbn [fst snd].
  apply wp_bind, wp_modify. cbv beta iota. cbn [fst snd].
  apply wp_bind. eapply wp_mono.
  - apply (start_dichotomy (retried r) w); auto.
  - intros [[|]|e| |] s' H; simpl in H; try contradiction; apply wp_ret;
      (split; [reflexivity|]); [now left|now right].
Qed.

(** A response that passes [check_response], and one that does not or
    is an exception of the transport. *)
Definition good_response (r : request) (response : outcome m.event) : Prop :=
  exists ev, response = Ret ev /\ check_response E r ev = Ret tt.

Definition bad_response (r : request) (response : outcome m.event) : Prop :=
  (exists e, response = Throw e) \/
  (exists ev e, response = Ret ev /\ check_response E r ev = Throw e).

(** The request once [finish] has delivered the value. *)
Definition delivered (r : request) (w : world) : st :=
  (match promise r with
   | promise_pending => set_promise promise_value (set_finished (time E (tick w)) r)
   | _ => set_finished (time E (tick w)) r
   end, bump w).

Lemma handle_good r w response :
  good_response r response -> eptr r = None ->
  handle E response (r, w) = (Ret true, delivered r w).
Proof.
  intros (ev & -> & Hcheck) Heptr.
  unfold handle, bind, try_catch, this_request, lift, ret. simpl.
  rewrite Hcheck. simpl. rewrite Heptr, finish_eq. cbv zeta.
  unfold delivered. rewrite Heptr.
  assert (Hpos : Z.eqb (time E (tick w)) 0 = false)
    by (apply Z.eqb_neq; pose proof (clock_pos (tick w)); lia).
  destruct (promise r); simpl; now rewrite Hpos.
Qed.

Lemma handle_bad r w response :
  bad_response r response ->
  finished r = 0%Z -> started r <> 0%Z -> last r <> 0%Z -> sorted_attempted r ->
  wp (handle E response) (r, w)
     (fun o s' =>
        (o = Ret false /\ issued_to_origin (retried r) w s') \/
        (o = Ret true /\ given_up (retried r) w s')).
Proof.
  intros Hbad Hfin Hst Hlast Hs. unfold handle.
  assert (Htail : forall e,
            wp (modify (set_eptr (Some e))) (r, w)
               (fun o s' =>
                  match o with
                  | Ret _ =>
                      wp (r <- this_request ;;
                          match eptr r with
                          | None => finish E
                          | Some _ => retry E
                          end ;;
                          r <- this_request ;;
                          ret (negb (Z.eqb (finished r) 0)))
                         s'
                         (fun o s' =>
                            (o = Ret false /\ issued_to_origin (retried r) w s') \/
                            (o = Ret true /\ given_up (retried r) w s'))
                  | _ => False
                  end)).
  { intros e. apply wp_modify. cbv beta iota. cbn [fst snd].
    apply wp_bind, wp_this_request. cbv beta iota. cbn [fst eptr set_eptr].
    apply wp_bind. eapply wp_mono.
    - apply (retry_dichotomy (set_eptr (Some e) r) w); auto.
    - intros o [r' w'] [-> Hres]. cbv iota.
      apply wp_bind, wp_this_request. cbv beta iota. cbn [fst].
      apply wp_ret. destruct Hres as [Hissued|Hgiven].
      + left. split; [|exact Hissued].
        destruct Hissued as (_ & Hfin' & _). simpl in Hfin'. now rewrite Hfin'.
      + right. split; [|exact Hgiven].
        destruct Hgiven as (_ & _ & _ & _ & _ & (t & _ & Hfin') & _).
        simpl in Hfin'. rewrite Hfin'.
        pose proof (clock_pos t).
        destruct (Z.eqb_spec (time E t) 0); [lia|reflexivity]. }
  apply wp_bind, wp_try_catch, wp_bind, wp_this_request.
  cbv beta iota. cbn [fst]. apply wp_bind, wp_lift.
  destruct Hbad as [(e & ->)|(ev & e & -> & Hcheck)]; cbv iota.
  - exact (Htail e).
  - apply wp_lift. rewrite Hcheck. exact (Htail e).
Qed.


(** X14.  With a clock that reads times after the epoch, for a request
    in flight: [handle] on a response that passes [check_response]
    finishes the request, delivers the value to a pending promise and
    returns true, and issues nothing.  On an exception of the transport
    or a response that fails a check the error is dropped and the
    request retried: [handle] returns false with the request in flight
    to a server of the room that had not been attempted, or returns
    true with the request finished and [m::NOT_FOUND], not the error,
    as the exception of a pending promise. *)
Theorem handle_spec (r : request) (w : world) (response : outcome m.event) :
  finished r = 0%Z -> started r <> 0%Z -> last r <> 0%Z ->
  sorted_attempted r -> eptr r = None ->
  (good_response r response ->
   handle E response (r, w) = (Ret true, delivered r w)) /\
  (bad_response r response ->
   (fst (handle E response (r, w)) = Ret false /\
    issued_to_origin (retried r) w (snd (handle E response (r, w)))) \/
   (fst (handle E response (r, w)) = Ret true /\
    given_up (retried r) w (snd (handle E response (r, w))))).
Proof.
  intros Hfin Hst Hlast Hs Heptr. split.
  - intros Hgood. now apply handle_good.
  - intros Hbad. exact (handle_bad r w response Hbad Hfin Hst Hlast Hs).
Qed.


(** ** The requests of the set *)

(** What the worker relies on in a request of the set: a request that
    was never started is not finished and has no origin, and a request
    that was started and is not finished was issued. *)
Definition wf (r : request) : Prop :=
  sorted_attempted r /\
  (started r = 0%Z -> finished r = 0%Z /\ origin r = "") /\
  (started r <> 0%Z -> finished r = 0%Z -> last r <> 0%Z).

Lemma same_request_trans r1 r2 r3 :
  same_request r1 r2 -> same_request r2 r3 -> same_request r1 r3.
Proof. unfold same_request. intros (H1 & H2 & H3) (H4 & H5 & H6). repeat split; congruence. Qed.

Lemma start_result_wf r1 w s' :
  issued_to_origin r1 w s' \/ given_up r1 w s' ->
  same_request r1 (fst s') /\ wf (fst s') /\ started (fst s') <> 0%Z /\
  (finished (fst s') = 0%Z -> last (fst s') <> 0%Z).
Proof.
  intros [H|H].
  - destruct H as (Hsame & Hfin & Hs & _ & _ & Hst & _ & _ & _ & (t & _ & Hlast) & _).
    assert (Hstarted : started (fst s') <> 0%Z)
      by (rewrite Hst; apply stamped_started).
    assert (Hl : last (fst s') <> 0%Z)
      by (rewrite Hlast; pose proof (clock_pos t); lia).
    split; [exact Hsame|]. split; [|split; [exact Hstarted|intros _; exact Hl]].
    split; [exact Hs|]. split; [intros H0; contradiction|intros _ _; exact Hl].
  - destruct H as (Hsame & Hs & _ & Hst & _ & (t & _ & Hfin) & _).
    assert (Hstarted : started (fst s') <> 0%Z)
      by (rewrite Hst; apply stamped_started).
    assert (Hf : finished (fst s') <> 0%Z)
      by (rewrite Hfin; pose proof (clock_pos t); lia).
    split; [exact Hsame|]. split; [|split; [exact Hstarted|intros H0; contradiction]].
    split; [exact Hs|]. split; [intros H0; contradiction|intros _ H0; contradiction].
Qed.

Variable timeout : Z.

(** What the first loop of [request_cleanup] makes of a request [r]:
    a request that was started and is finished or has not timed out is
    left as it is. *)
Definition cleaned (now : Z) (r r1 : request) : Prop :=
  same_request r r1 /\ wf r1 /\
  (finished r1 = 0%Z -> started r1 <> 0%Z /\ last r1 <> 0%Z) /\
  (started r <> 0%Z ->
   finished r <> 0%Z \/ (now <= int64 (last r + timeout))%Z -> r1 = r).

Lemma same_request_refl r : same_request r r.
Proof. repeat split. Qed.

Lemma cleanup_request_cleaned now r w :
  wf r ->
  wp (cleanup_request E timeout now) (r, w)
     (fun o s' => o = Ret tt /\ cleaned now r (fst s')).
Proof.
  intros (Hs & Hnew & Hrun). unfold cleanup_request.
  apply wp_bind, wp_this_request. cbv beta iota. cbn [fst].
  destruct (Z.eqb_spec (started r) 0) as [Hst|Hst].
  - destruct (Hnew Hst) as [Hfin Horigin].
    apply wp_bind. eapply wp_mono; [now apply (start_dichotomy r w)|].
    intros [[|]|e| |] s' H; simpl in H; try contradiction; apply wp_ret;
      (split; [reflexivity|]).
    + destruct (start_result_wf r w s' (or_introl H)) as (H1 & H2 & H3 & H4).
      split; [exact H1|]. split; [exact H2|]. split; [auto|].
      intros Hc. contradiction.
    + destruct (start_result_wf r w s' (or_intror H)) as (H1 & H2 & H3 & H4).
      split; [exact H1|]. split; [exact H2|]. split; [auto|].
      intros Hc. contradiction.
  - destruct (Z.eqb_spec (finished r) 0) as [Hfin|Hfin].
    + pose proof (Hrun Hst Hfin) as Hlast.
      apply wp_bind, wp_lift. unfold timedout. rewrite Hfin.
      apply Z.eqb_neq in Hst, Hlast. rewrite Hst, Hlast. simpl.
      apply Z.eqb_neq in Hst, Hlast.
      destruct (Z.ltb_spec (int64 (last r + timeout)) now) as [Hout|Hin].
      * eapply wp_mono; [now apply (retry_dichotomy r w)|].
        intros o s' [-> Hres]. split; [reflexivity|].
        destruct (start_result_wf (retried r) w s' Hres) as (H1 & H2 & H3 & H4).
        split; [exact H1|]. split; [exact H2|]. split; [auto|].
        intros _ [H|H]; [contradiction|lia].
      * apply wp_ret. split; [reflexivity|]. simpl.
        split; [apply same_request_refl|]. split; [now repeat split|]. now split.
    + apply wp_ret. split; [reflexivity|]. simpl.
      split; [apply same_request_refl|]. split; [now repeat split|].
      split; [intros H; contradiction|reflexivity].
Qed.

Lemma cleanup_loop_cleaned now (requests : list request) :
  forall w,
    Forall wf requests ->
    exists requests1 w2,
      cleanup_loop E timeout now requests w = (Ret tt, (requests1, w2)) /\
      Forall2 (cleaned now) requests requests1.
Proof.
  induction requests as [|r rest IH]; intros w Hwf.
  - exists [], w. split; [reflexivity|constructor].
  - inversion Hwf as [|? ? Hr Hrest]; subst.
    pose proof (cleanup_request_cleaned now r w Hr) as H. unfold wp in H.
    cbn [cleanup_loop].
    destruct (cleanup_request E timeout now (r, w)) as [o [r' w']].
    simpl in H. destruct H as [-> Hcleaned].
    destruct (IH w' Hrest) as (rest1 & w2 & -> & Hall).
    exists (r' :: rest1), w2. split; [reflexivity|now constructor].
Qed.

Lemma erase_finished_filter (requests : list request) :
  erase_finished requests =
  (filter (fun r => Z.eqb (finished r) 0) requests,
   List.length requests
   - List.length (filter (fun r => Z.eqb (finished r) 0) requests)).
Proof.
  induction requests as [|r rest IH]; [reflexivity|].
  cbn [erase_finished filter]. rewrite IH.
  pose proof (filter_length_le (fun r => Z.eqb (finished r) 0) rest) as Hle.
  destruct (Z.eqb (finished r) 0); cbn [negb]; f_equal; cbn [List.length]; lia.
Qed.


Lemma sorted_requests_filter (f : request -> bool) (requests : list request) :
  sorted_requests requests -> sorted_requests (filter f requests).
Proof.
  unfold sorted_requests, stdset_spec.sorted.
  induction requests as [|r rest IH]; simpl; intros Hs; [constructor|].
  inversion Hs as [|? ? Hrest Hr]; subst.
  destruct (f r); [|now apply IH].
  constructor; [now apply IH|].
  rewrite Forall_forall in Hr |- *. intros x Hx. apply Hr.
  now apply filter_In in Hx.
Qed.

Lemma Forall2_In_r {A B : Type} (R : A -> B -> Prop) (l : list A) (l1 : list B) y :
  Forall2 R l l1 -> In y l1 -> exists x, In x l /\ R x y.
Proof.
  induction 1 as [|x y0 l l1 Hxy Hrest IH]; simpl; [intros []|].
  intros [<-|Hin].
  - exists x. split; [now left|exact Hxy].
  - destruct (IH Hin) as (x' & Hx' & Hr). exists x'. split; [now right|exact Hr].
Qed.

Lemma Forall2_In_l {A B : Type} (R : A -> B -> Prop) (l : list A) (l1 : list B) x :
  Forall2 R l l1 -> In x l -> exists y, In y l1 /\ R x y.
Proof.
  induction 1 as [|x0 y l l1 Hxy Hrest IH]; simpl; [intros []|].
  intros [<-|Hin].
  - exists y. split; [now left|exact Hxy].
  - destruct (IH Hin) as (y' & Hy' & Hr). exists y'. split; [now right|exact Hr].
Qed.

Lemma sorted_requests_same (requests requests1 : list request) :
  Forall2 (fun r r1 => event_id r1 = event_id r) requests requests1 ->
  sorted_requests requests -> sorted_requests requests1.
Proof.
  unfold sorted_requests, stdset_spec.sorted.
  induction 1 as [|r r1 rest rest1 Hid Hrest IH]; intros Hs; [constructor|].
  inversion Hs as [|? ? Hsrest Hr]; subst.
  constructor; [now apply IH|].
  rewrite Forall_forall in Hr |- *. intros y Hy.
  destruct (Forall2_In_r _ _ _ _ Hrest Hy) as (x & Hx & Hxy).
  rewrite Hid, Hxy. now apply Hr.
Qed.

Lemma request_cleanup_kept (requests : list request) (w : world) :
  sorted_requests requests -> Forall wf requests ->
  exists n requests' w',
    request_cleanup E timeout requests w = (Ret n, (requests', w')) /\
    sorted_requests requests' /\ Forall wf requests'.
Proof.
  intros Hs Hwf. unfold request_cleanup. cbv zeta.
  destruct (cleanup_loop_cleaned (time E (tick w)) requests
              (mk_world (S (tick w)) (issued w)) Hwf)
    as (requests1 & w2 & -> & Hall).
  rewrite erase_finished_filter. eexists. eexists. eexists.
  split; [reflexivity|]. split.
  - apply sorted_requests_filter. apply (sorted_requests_same requests); [|exact Hs].
    eapply Forall2_impl; [|exact Hall]. intros r r1 (Hsame & _). apply Hsame.
  - apply Forall_forall. intros r' Hr'. apply filter_In in Hr'.
    destruct Hr' as [Hin _].
    destruct (Forall2_In_r _ _ _ _ Hall Hin) as (r & _ & _ & Hwf' & _).
    exact Hwf'.
Qed.

(** X15.  With a clock that reads times after the epoch, on a set whose
    requests are as the worker relies on them, [request_cleanup] passes
    every assertion and returns the number of requests it erased.  The
    requests it leaves are requests of the set that were not finished;
    each of them is started, issued and not finished, and they are in
    the order of their event ids.  A request that was started, is not
    finished and has not timed out is left as it is; the time it times
    out at is [last + timeout] as a signed 64-bit integer holds it. *)
Theorem request_cleanup_spec (requests : list request) (w : world) :
  sorted_requests requests -> Forall wf requests ->
  exists n requests' w',
    request_cleanup E timeout requests w = (Ret n, (requests', w')) /\
    n + List.length requests' = List.length requests /\
    sorted_requests requests' /\
    Forall (fun r' => finished r' = 0%Z /\ started r' <> 0%Z /\ last r' <> 0%Z /\
                      wf r') requests' /\
    (forall r', In r' requests' ->
       exists r, In r requests /\ same_request r r' /\ finished r = 0%Z) /\
    (forall r, In r requests -> started r <> 0%Z -> finished r = 0%Z ->
               (time E (tick w) <= int64 (last r + timeout))%Z -> In r requests').
Proof.
  intros Hs Hwf. unfold request_cleanup. cbv zeta.
  destruct (cleanup_loop_cleaned (time E (tick w)) requests
              (mk_world (S (tick w)) (issued w)) Hwf)
    as (requests1 & w2 & -> & Hall).
  rewrite erase_finished_filter.
  exists (List.length requests1
          - List.length (filter (fun r => Z.eqb (finished r) 0) requests1)),
         (filter (fun r => Z.eqb (finished r) 0) requests1), w2.
  split; [reflexivity|].
  pose proof (filter_length_le (fun r => Z.eqb (finished r) 0) requests1) as Hle.
  pose proof (Forall2_length Hall) as Hlen.
  split; [lia|]. split; [|split; [|split]].
  - apply sorted_requests_filter. apply (sorted_requests_same requests); [|exact Hs].
    eapply Forall2_impl; [|exact Hall]. intros r r1 (Hsame & _). apply Hsame.
  - apply Forall_forall. intros r' Hr'. apply filter_In in Hr'.
    destruct Hr' as [Hin Hfin]. apply Z.eqb_eq in Hfin.
    destruct (Forall2_In_r _ _ _ _ Hall Hin) as (r & _ & _ & Hwf' & Hrun & _).
    destruct (Hrun Hfin) as [Hst Hlast].
    split; [exact Hfin|]. split; [exact Hst|]. split; [exact Hlast|exact Hwf'].
  - intros r' Hr'. apply filter_In in Hr'.
    destruct Hr' as [Hin Hfin]. apply Z.eqb_eq in Hfin.
    destruct (Forall2_In_r _ _ _ _ Hall Hin) as (r & Hr & Hsame & _ & _ & Hkept).
    exists r. split; [exact Hr|]. split; [exact Hsame|].
    destruct (Z.eq_dec (finished r) 0) as [Hf|Hf]; [exact Hf|].
    assert (Hst : started r <> 0%Z).
    { intros Hst. rewrite Forall_forall in Hwf.
      destruct (Hwf r Hr) as (_ & Hnew & _). destruct (Hnew Hst). contradiction. }
    rewrite (Hkept Hst (or_introl Hf)) in Hfin. contradiction.
  - intros r Hr Hst Hfin Hnow.
    destruct (Forall2_In_l _ _ _ _ Hall Hr) as (r1 & Hr1 & _ & _ & _ & Hkept).
    rewrite (Hkept Hst (or_intror Hnow)) in Hr1.
    apply filter_In. split; [exact Hr1|]. now apply Z.eqb_eq.
Qed.


(** ** The iterator of [request_handle] *)

Lemma element_In event_id_ (requests : list request) r :
  element event_id_ requests = Some r -> In r requests /\ event_id r = event_id_.
Proof.
  induction requests as [|y rest IH]; simpl; [discriminate|].
  destruct (String.eqb_spec (event_id y) event_id_) as [Heq|Hne].
  - intros [= <-]. split; [now left|exact Heq].
  - intros H. destruct (IH H) as [Hin Hid]. split; [now right|exact Hid].
Qed.




Lemma assign_same_ids event_id_ r' (requests : list request) :
  event_id r' = event_id_ ->
  Forall2 (fun r r1 => event_id r1 = event_id r) requests
          (assign event_id_ r' requests).
Proof.
  intros Hid. induction requests as [|y rest IH]; simpl; [constructor|].
  destruct (String.eqb_spec (event_id y) event_id_) as [Heq|Hne].
  - constructor; [congruence|]. clear. induction rest; now constructor.
  - now constructor.
Qed.

Lemma sorted_requests_assign event_id_ r' (requests : list request) :
  event_id r' = event_id_ -> sorted_requests requests ->
  sorted_requests (assign event_id_ r' requests).
Proof.
  intros Hid. apply sorted_requests_same. now apply assign_same_ids.
Qed.

Lemma erase_In event_id_ (requests : list request) x :
  In x (erase event_id_ requests) -> In x requests.
Proof.
  induction requests as [|y rest IH]; simpl; [tauto|].
  destruct (String.eqb (event_id y) event_id_); [now right|].
  intros [<-|H]; [now left|right; now apply IH].
Qed.

Lemma sorted_requests_erase event_id_ (requests : list request) :
  sorted_requests requests -> sorted_requests (erase event_id_ requests).
Proof.
  unfold sorted_requests, stdset_spec.sorted.
  induction requests as [|y rest IH]; simpl; intros Hs; [constructor|].
  inversion Hs as [|? ? Hrest Hy]; subst.
  destruct (String.eqb (event_id y) event_id_); [exact Hrest|].
  constructor; [now apply IH|].
  rewrite Forall_forall in Hy |- *. intros x Hx. apply Hy.
  now apply erase_In in Hx.
Qed.

Lemma erase_assign event_id_ r' (requests : list request) :
  event_id r' = event_id_ ->
  erase event_id_ (assign event_id_ r' requests) = erase event_id_ requests.
Proof.
  intros Hid. induction requests as [|y rest IH]; simpl; [reflexivity|].
  destruct (String.eqb (event_id y) event_id_) eqn:Hy; simpl.
  - now rewrite Hid, String.eqb_refl.
  - now rewrite Hy, IH.
Qed.

Lemma assign_In event_id_ r' (requests : list request) x :
  In x (assign event_id_ r' requests) -> x = r' \/ In x requests.
Proof.
  induction requests as [|y rest IH]; simpl; [tauto|].
  destruct (String.eqb (event_id y) event_id_).
  - intros [<-|H]; [now left|right; now right].
  - intros [<-|H]; [right; now left|].
    destruct (IH H) as [->|Hin]; [now left|right; now right].
Qed.




(** ** The states the unit reaches *)

Definition handled_wf (r : request) (o : outcome bool) (s' : st) : Prop :=
  match o with
  | Ret handled => same_request r (fst s') /\ (handled = false -> wf (fst s'))
  | _ => True
  end.

Lemma retry_wf r w :
  wf r -> finished r = 0%Z ->
  wp (retry E) (r, w)
     (fun o s' =>
        match o with
        | Ret _ => same_request r (fst s') /\ wf (fst s')
        | _ => True
        end).
Proof.
  intros (Hs & Hnew & Hrun) Hfin.
  destruct (Z.eq_dec (started r) 0) as [Hst|Hst].
  - unfold retry. apply wp_try_catch.
    apply wp_bind, wp_this_request. cbv beta iota. cbn [fst].
    apply wp_bind, wp_assert; [intros _|intros _; exact I].
    apply wp_bind, wp_assert; [|intros _; exact I].
    rewrite Hst. discriminate.
  - eapply wp_mono; [apply (retry_dichotomy r w); auto|].
    intros o s' [-> Hres].
    destruct (start_result_wf (retried r) w s' Hres) as (H1 & H2 & _).
    split; [exact H1|exact H2].
Qed.

Lemma handle_tail_wf r r1 w :
  same_request r r1 -> wf r1 -> finished r1 = 0%Z ->
  wp (r <- this_request ;;
      match eptr r with
      | None => finish E
      | Some _ => retry E
      end ;;
      r <- this_request ;;
      ret (negb (Z.eqb (finished r) 0)))
     (r1, w) (handled_wf r).
Proof.
  intros Hsame Hwf Hfin.
  apply wp_bind, wp_this_request. cbv beta iota. cbn [fst].
  apply wp_bind. destruct (eptr r1) eqn:Heptr.
  - eapply wp_mono; [now apply retry_wf|].
    intros [[]|e'| |] [r' w'] H'; cbv iota; try exact I.
    apply wp_bind, wp_this_request. cbv beta iota. cbn [fst].
    apply wp_ret. destruct H' as [H1 H2]. simpl in *.
    split; [now apply (same_request_trans r r1 r')|intros _; exact H2].
  - apply wp_finish. cbv zeta. rewrite Heptr.
    apply wp_bind, wp_this_request. cbv beta iota. cbn [fst].
    apply wp_ret. simpl. split.
    + destruct (promise r1); exact Hsame.
    + assert (Hpos : Z.eqb (time E (tick w)) 0 = false)
        by (apply Z.eqb_neq; pose proof (clock_pos (tick w)); lia).
      destruct (promise r1); simpl; rewrite Hpos; discriminate.
Qed.

Lemma handle_wf r w response :
  wf r -> finished r = 0%Z ->
  wp (handle E response) (r, w) (handled_wf r).
Proof.
  intros Hwf Hfin. unfold handle.
  assert (Hcaught : forall e,
            wp (modify (set_eptr (Some e))) (r, w)
               (fun o s' =>
                  match o with
                  | Ret _ =>
                      wp (r <- this_request ;;
                          match eptr r with
                          | None => finish E
                          | Some _ => retry E
                          end ;;
                          r <- this_request ;;
                          ret (negb (Z.eqb (finished r) 0)))
                         s' (handled_wf r)
                  | Throw _ => True
                  | Abort => True
                  | Diverge => True
                  end)).
  { intros e. apply wp_modify. cbv beta iota. cbn [fst snd].
    apply handle_tail_wf; [repeat split|exact Hwf|exact Hfin]. }
  apply wp_bind, wp_try_catch, wp_bind, wp_this_request.
  cbv beta iota. cbn [fst]. apply wp_bind, wp_lift.
  destruct response as [ev|e| |]; cbv iota; [|exact (Hcaught e)|exact I|exact I].
  apply wp_lift.
  destruct (check_response E r ev) as [[]|e| |]; cbv iota;
    [|exact (Hcaught e)|exact I|exact I].
  apply handle_tail_wf; [apply same_request_refl|exact Hwf|exact Hfin].
Qed.

(** The requests are in the order of their event ids and each is as the
    worker relies on it. *)
Definition unit_inv (requests : list request) : Prop :=
  sorted_requests requests /\ Forall wf requests.

Lemma Forall_erase (P : request -> Prop) event_id_ (requests : list request) :
  Forall P requests -> Forall P (erase event_id_ requests).
Proof.
  rewrite !Forall_forall. intros H x Hx. apply H. now apply erase_In in Hx.
Qed.

Lemma request_handle_it_inv event_id_ response requests w :
  unit_inv requests ->
  match request_handle_it E event_id_ response requests w with
  | (Ret _, (requests', _)) => unit_inv requests'
  | _ => True
  end.
Proof.
  intros [Hs Hwf]. unfold request_handle_it.
  destruct (element event_id_ requests) as [r|] eqn:Hel; [|exact I].
  destruct (element_In _ _ _ Hel) as [Hin Hid].
  destruct (Z.eqb_spec (finished r) 0) as [Hfin|Hfin]; cbn [negb].
  - assert (Hr : wf r) by (rewrite Forall_forall in Hwf; now apply Hwf).
    pose proof (handle_wf r w response Hr Hfin) as H. unfold wp in H.
    destruct (handle E response (r, w)) as [[handled|e| |] [r1 w1]];
      simpl in H; try exact I.
    destruct H as [Hsame Hwf1].
    assert (Hid1 : event_id r1 = event_id_) by (destruct Hsame; congruence).
    destruct handled; cbn [negb].
    + rewrite erase_assign by exact Hid1.
      split; [now apply sorted_requests_erase|now apply Forall_erase].
    + split; [now apply sorted_requests_assign|].
      apply Forall_forall. intros x Hx. apply assign_In in Hx.
      destruct Hx as [->|Hx]; [now apply Hwf1|].
      rewrite Forall_forall in Hwf. now apply Hwf.
  - split; [now apply sorted_requests_erase|now apply Forall_erase].
Qed.


Lemma submit_inv event_id_ room_id_ bufsz_ requests w :
  unit_inv requests ->
  match submit E event_id_ room_id_ bufsz_ requests w with
  | (Ret _, (requests', _)) => unit_inv requests'
  | _ => True
  end.
Proof.
  intros [Hs Hwf]. rewrite submit_located.
  destruct (negb (m.defined room_id_ && m.defined event_id_)); [exact I|].
  pose proof (located_spec event_id_ requests Hs) as Hloc.
  destruct (located event_id_ requests) as [found|].
  - destruct (String.eqb (room_id found) room_id_); [now split|exact I].
  - cbv zeta.
    rewrite (element_emplace_absent event_id_
               (new_request room_id_ event_id_ bufsz_) requests eq_refl Hloc).
    set (request1 := set_promise promise_pending (new_request room_id_ event_id_ bufsz_)).
    pose proof (start_dichotomy request1 w eq_refl eq_refl (stdset_spec.sorted_nil _))
      as H.
    unfold wp in H. destruct (start E (request1, w)) as [o [request2 w']].
    simpl in H. destruct o as [returned|e| |]; try contradiction.
    assert (Hres : issued_to_origin request1 w (request2, w') \/
                   given_up request1 w (request2, w'))
      by (destruct returned; [now left|now right]).
    destruct (start_result_wf request1 w _ Hres) as (Hsame & Hwf2 & _).
    simpl in Hsame, Hwf2.
    assert (Hid : event_id request2 = event_id_) by apply Hsame.
    rewrite (assign_emplace_absent event_id_
               (new_request room_id_ event_id_ bufsz_) request2 requests
               eq_refl Hid Hloc).
    split.
    + now apply (stdset_spec.emplace_sorted event_id).
    + apply Forall_forall. intros x Hx. apply stdset_spec.emplace_In in Hx.
      destruct Hx as [->|Hx]; [exact Hwf2|].
      rewrite Forall_forall in Hwf. now apply Hwf.
Qed.

Lemma request_cleanup_inv requests w :
  unit_inv requests ->
  match request_cleanup E timeout requests w with
  | (Ret _, (requests', _)) => unit_inv requests'
  | _ => True
  end.
Proof.
  intros [Hs Hwf].
  destruct (request_cleanup_kept requests w Hs Hwf)
    as (n & requests' & w' & -> & Hs' & Hall).
  now split.
Qed.

(** The calls that work on the set. *)
Inductive unit_op : Type :=
| Submit (event_id_ room_id_ : string) (bufsz_ : N)
| Handle_it (event_id_ : string) (response : outcome m.event)
| Cleanup.

(** A call that returned, and the set and the world it left. *)
Definition unit_step (op : unit_op) (s : list request * world)
    : option (list request * world) :=
  match op with
  | Submit event_id_ room_id_ bufsz_ =>
      match submit E event_id_ room_id_ bufsz_ (fst s) (snd s) with
      | (Ret _, s') => Some s'
      | _ => None
      end
  | Handle_it event_id_ response =>
      match request_handle_it E event_id_ response (fst s) (snd s) with
      | (Ret _, s') => Some s'
      | _ => None
      end
  | Cleanup =>
      match request_cleanup E timeout (fst s) (snd s) with
      | (Ret _, s') => Some s'
      | _ => None
      end
  end.

Fixpoint unit_run (ops : list unit_op) (s : list request * world)
    : option (list request * world) :=
  match ops with
  | [] => Some s
  | op :: rest =>
      match unit_step op s with
      | Some s' => unit_run rest s'
      | None => None
      end
  end.

Lemma unit_step_inv op s s' :
  unit_inv (fst s) -> unit_step op s = Some s' -> unit_inv (fst s').
Proof.
  intros Hinv. destruct op as [event_id_ room_id_ bufsz_|event_id_ response|]; simpl.
  - pose proof (submit_inv event_id_ room_id_ bufsz_ (fst s) (snd s) Hinv) as H.
    destruct (submit E event_id_ room_id_ bufsz_ (fst s) (snd s))
      as [[f|e| |] [requests' w']]; try discriminate.
    now intros [= <-].
  - pose proof (request_handle_it_inv event_id_ response (fst s) (snd s) Hinv) as H.
    destruct (request_handle_it E event_id_ response (fst s) (snd s))
      as [[u|e| |] [requests' w']]; try discriminate.
    now intros [= <-].
  - pose proof (request_cleanup_inv (fst s) (snd s) Hinv) as H.
    destruct (request_cleanup E timeout (fst s) (snd s))
      as [[n|e| |] [requests' w']]; try discriminate.
    now intros [= <-].
Qed.

Lemma unit_run_inv ops :
  forall s s', unit_inv (fst s) -> unit_run ops s = Some s' -> unit_inv (fst s').
Proof.
  induction ops as [|op rest IH]; simpl; intros s s' Hinv Hrun.
  - now injection Hrun as <-.
  - destruct (unit_step op s) as [s1|] eqn:Hstep; [|discriminate].
    apply (IH s1 s'); [|exact Hrun]. now apply (unit_step_inv op s).
Qed.

(** X17.  With a clock that reads times after the epoch, in every state
    the unit reaches from the empty set by submissions, responses handled
    and clean-ups that returned: the set holds at most one request for
    an event id, in the order of the ids; a request that was never
    started is not finished and has no origin, and one that was started
    and is not finished was issued; so the next [request_cleanup] passes
    each of its assertions, those of [timedout], [retry] and [start]
    among them, and returns. *)
Theorem unit_invariant (ops : list unit_op) (w : world)
    (requests : list request) (w' : world) :
  unit_run ops ([], w) = Some (requests, w') ->
  sorted_requests requests /\ NoDup (map event_id requests) /\
  Forall wf requests /\
  exists n requests'' w'',
    request_cleanup E timeout requests w' = (Ret n, (requests'', w'')).
Proof.
  intros Hrun.
  assert (Hinit : unit_inv (fst (@nil request, w)))
    by (split; [apply stdset_spec.sorted_nil|constructor]).
  destruct (unit_run_inv ops _ _ Hinit Hrun) as [Hs Hwf]. simpl in Hs, Hwf.
  split; [exact Hs|]. split; [now apply stdset_spec.sorted_NoDup|].
  split; [exact Hwf|].
  destruct (request_cleanup_kept requests w' Hs Hwf)
    as (n & requests'' & w'' & Heq & _).
  now exists n, requests'', w''.
Qed.


End Start.


Section Sets.
Variable E : env.

(** ** Existence and count *)

Lemma count_key_count event_id_ probe (requests : list request) :
  event_id probe = event_id_ ->
  count_key event_id_ requests = stdset.count request_less probe requests.
Proof.
  intros Hid. induction requests as [|r rest IH]; simpl; [reflexivity|].
  unfold key_less_request, request_less_key, request_less. rewrite Hid, IH.
  reflexivity.
Qed.

Lemma exists_iff event_id_ (requests : list request) :
  sorted_requests requests ->
  (exists_ event_id_ requests = true <->
   exists r, In r requests /\ event_id r = event_id_).
Proof.
  intros Hs. unfold exists_.
  rewrite (count_key_count event_id_ (new_request "" event_id_ 0) requests eq_refl).
  exact (stdset_spec.count_true event_id (new_request "" event_id_ 0) requests Hs).
Qed.

Lemma exists_same event_id_ (requests requests' : list request) :
  sorted_requests requests -> sorted_requests requests' ->
  ((exists r, In r requests' /\ event_id r = event_id_) <->
   (exists r, In r requests /\ event_id r = event_id_)) ->
  exists_ event_id_ requests' = exists_ event_id_ requests.
Proof.
  intros Hs Hs' Hiff.
  pose proof (exists_iff event_id_ requests Hs) as H.
  pose proof (exists_iff event_id_ requests' Hs') as H'.
  destruct (exists_ event_id_ requests), (exists_ event_id_ requests');
    try reflexivity.
  - assert (Ht : false = true) by (apply H', Hiff, H; reflexivity). discriminate.
  - assert (Ht : false = true) by (apply H, Hiff, H'; reflexivity). discriminate.
Qed.

(** X18.  On a set in the order of the event ids, [submit] returns or
    fails one of its assertions.  When it returns the future of a new
    request, [exists] was false for the event id and is true after, and
    [count] is one more; when it returns an empty future, [exists] was
    true and the set is as it was; a failed assertion leaves the set as
    it was.  For every other event id [exists] answers after the call
    what it answered before. *)
Theorem exists_submit (event_id_ room_id_ : string) (bufsz_ : N)
    (requests : list request) (w : world) :
  sorted_requests requests ->
  match submit E event_id_ room_id_ bufsz_ requests w with
  | (Ret future_invalid, (requests', _)) =>
      requests' = requests /\ exists_ event_id_ requests = true
  | (Ret (future_of promised), (requests', _)) =>
      promised = event_id_ /\
      exists_ event_id_ requests = false /\
      exists_ event_id_ requests' = true /\
      count requests' = S (count requests) /\
      forall other, other <> event_id_ ->
                    exists_ other requests' = exists_ other requests
  | (Abort, (requests', _)) => requests' = requests
  | _ => False
  end.
Proof.
  intros Hs.
  destruct (m.defined room_id_) eqn:Hroom;
    [destruct (m.defined event_id_) eqn:Hevent|].
  - pose proof (located_spec event_id_ requests Hs) as Hloc.
    destruct (located event_id_ requests) as [found|] eqn:Hl.
    + destruct Hloc as [Hin Hid].
      destruct (submit_present E event_id_ room_id_ bufsz_ requests w Hroom Hevent Hs)
        as (f & _ & _ & ->); [now exists found|].
      destruct (String.eqb (room_id f) room_id_); [|reflexivity].
      split; [reflexivity|]. apply (exists_iff _ _ Hs). now exists found.
    + destruct (submit_absent E event_id_ room_id_ bufsz_ requests w
                  Hroom Hevent Hs Hloc)
        as (request2 & w' & -> & Hid & _).
      assert (Hs' : sorted_requests (stdset.emplace request_less request2 requests))
        by now apply (stdset_spec.emplace_sorted event_id).
      assert (Hperm : Permutation (stdset.emplace request_less request2 requests)
                                  (request2 :: requests)).
      { apply (stdset_spec.emplace_absent event_id). intros y Hy. rewrite Hid.
        now apply Hloc. }
      split; [reflexivity|]. split; [|split; [|split]].
      * destruct (exists_ event_id_ requests) eqn:Hex; [|reflexivity].
        apply (exists_iff _ _ Hs) in Hex. destruct Hex as (r & Hr & Hrid).
        now destruct (Hloc r Hr).
      * apply (exists_iff _ _ Hs'). exists request2.
        split; [|exact Hid]. apply (Permutation_in _ (Permutation_sym Hperm)).
        now left.
      * unfold count. now rewrite (Permutation_length Hperm).
      * intros other Hother. apply exists_same; auto. split.
        -- intros (r & Hr & Hrid). apply (Permutation_in _ Hperm) in Hr.
           destruct Hr as [<-|Hr]; [congruence|now exists r].
        -- intros (r & Hr & Hrid). exists r. split; [|exact Hrid].
           apply (Permutation_in _ (Permutation_sym Hperm)). now right.
  - rewrite submit_located, Hroom, Hevent. reflexivity.
  - rewrite submit_located, Hroom. reflexivity.
Qed.

End Sets.


Section Attempted.
Variable E : env.
Variables (room_id_ event_id_ : string) (bufsz_ : N).

(** ** The origins a request has attempted *)

(** The request is the one for the event in the room; the origins it
    has attempted are servers of the room other than this one; and its
    origin, when it has one, is among them. *)
Definition attempting (s : st) : Prop :=
  event_id (fst s) = event_id_ /\ room_id (fst s) = room_id_ /\
  bufsz (fst s) = bufsz_ /\ sorted_attempted (fst s) /\
  (forall o, In o (attempted (fst s)) ->
             In o (origins E room_id_) /\ my_host E o = false) /\
  (origin (fst s) = "" \/ In (origin (fst s)) (attempted (fst s))).

Lemma attempting_same r w r' w' :
  event_id r' = event_id r -> room_id r' = room_id r -> bufsz r' = bufsz r ->
  attempted r' = attempted r -> origin r' = origin r ->
  attempting (r, w) -> attempting (r', w').
Proof.
  unfold attempting, sorted_attempted. simpl.
  intros -> -> -> -> ->. auto.
Qed.

Lemma attempting_select r w :
  attempting (r, w) ->
  wp (select_random_origin E) (r, w)
     (fun o s' => attempting s' /\ match o with Ret _ => True | _ => True end).
Proof.
  intros (Hid & Hroom & Hbuf & Hs & Hin & Horigin). simpl in *.
  apply wp_select_random_origin. cbv zeta.
  destruct (random _ _ _) as [o|] eqn:Hrandom.
  - apply random_proffer in Hrandom. rewrite Hroom in Hrandom.
    destruct Hrandom as (Ho & Hhost & _).
    assert (Hnew : attempting
              (set_origin o
                 (set_attempted (stdset.emplace String.ltb o (attempted r))
                    (set_origin "" r)), bump w)).
    { unfold attempting. simpl. repeat split; auto.
      - now apply (stdset_spec.emplace_sorted (fun x : string => x)).
      - apply stdset_spec.emplace_In in H. destruct H as [->|H]; [exact Ho|].
        now apply Hin.
      - apply stdset_spec.emplace_In in H. destruct H as [->|H]; [exact Hhost|].
        now apply Hin.
      - right. now apply In_emplace_self. }
    destruct (m.defined o); split; auto.
  - split; [|exact I]. unfold attempting. simpl. repeat split; auto; now apply Hin.
Qed.

Lemma attempting_issue remote r w :
  attempting (r, w) -> True ->
  wp (start_opts E remote) (r, w) (fun _ s' => attempting s').
Proof.
  intros H _. apply wp_start_opts. cbv zeta.
  destruct (Z.eqb (finished r) 0); [|exact H].
  destruct (Z.eqb (started r) 0), (issue E _ remote);
    revert H; apply attempting_same; reflexivity.
Qed.

Lemma attempting_finish r w :
  attempting (r, w) -> wp (finish E) (r, w) (fun o s' => o = Ret tt /\ attempting s').
Proof.
  intros H. apply wp_finish. cbv zeta. split; [reflexivity|].
  revert H. apply attempting_same;
    destruct (promise r); try destruct (eptr r); reflexivity.
Qed.

Lemma attempting_start r w :
  attempting (r, w) -> wp (start E) (r, w) (fun _ s' => attempting s').
Proof.
  intros H. apply (start_safe E attempting attempting (fun _ _ => True)).
  - intros r1 w1 H1 _ _. revert H1. now apply attempting_same.
  - apply attempting_select.
  - apply attempting_issue.
  - intros e r1 w1. now apply attempting_same.
  - intros r1 w1 H1 _. now apply attempting_finish.
  - auto.
  - exact H.
  - auto.
Qed.

Lemma attempting_retry r w :
  attempting (r, w) -> wp (retry E) (r, w) (fun _ s' => attempting s').
Proof.
  intros H. unfold retry. wp_steps; auto.
  assert (Hcleared : attempting
            (set_origin "" (set_eptr None (set_transport None r)), w)).
  { destruct H as (H1 & H2 & H3 & H4 & H5 & _). unfold attempting. simpl.
    repeat split; auto; now apply H5. }
  eapply wp_mono; [now apply attempting_start|].
  intros [b|e| |] [r' w'] H'; cbv iota; auto.
  wp_steps. eapply wp_mono; [apply attempting_finish|].
  - revert H'. now apply attempting_same.
  - now intros o s' [_ Hs].
Qed.

Lemma attempting_handle_tail r w :
  attempting (r, w) ->
  wp (r <- this_request ;;
      match eptr r with
      | None => finish E
      | Some _ => retry E
      end ;;
      r <- this_request ;;
      ret (negb (Z.eqb (finished r) 0)))
     (r, w) (fun _ s' => attempting s').
Proof.
  intros H. apply wp_bind, wp_this_request. cbv beta iota. cbn [fst].
  apply wp_bind. destruct (eptr r).
  - eapply wp_mono; [now apply attempting_retry|].
    intros [[]|e'| |] [r' w'] H'; cbv iota; auto.
  - eapply wp_mono; [now apply attempting_finish|].
    intros o [r' w'] [-> H']. exact H'.
Qed.

Lemma attempting_handle response r w :
  attempting (r, w) -> wp (handle E response) (r, w) (fun _ s' => attempting s').
Proof.
  intros H. unfold handle.
  assert (Hcaught : forall e,
            wp (modify (set_eptr (Some e))) (r, w)
               (fun o s' =>
                  match o with
                  | Ret _ =>
                      wp (r <- this_request ;;
                          match eptr r with
                          | None => finish E
                          | Some _ => retry E
                          end ;;
                          r <- this_request ;;
                          ret (negb (Z.eqb (finished r) 0)))
                         s' (fun _ s'0 => attempting s'0)
                  | _ => attempting s'
                  end)).
  { intros e. apply wp_modify. cbv beta iota. cbn [fst snd].
    apply attempting_handle_tail. revert H. now apply attempting_same. }
  apply wp_bind, wp_try_catch, wp_bind, wp_this_request.
  cbv beta iota. cbn [fst]. apply wp_bind, wp_lift.
  destruct response as [ev|e| |]; cbv iota; [|exact (Hcaught e)|exact H|exact H].
  apply wp_lift.
  destruct (check_response E r ev) as [[]|e| |]; cbv iota;
    [|exact (Hcaught e)|exact H|exact H].
  now apply attempting_handle_tail.
Qed.

Lemma attempting_act a s : attempting s -> attempting (snd (act E a s)).
Proof.
  destruct s as [r w]. intros H.
  change (wp (act E a) (r, w) (fun _ s' => attempting s')).
  destruct a as [| |response|]; simpl.
  - apply wp_bind. eapply wp_mono; [now apply attempting_start|].
    intros [b|e| |] s' H'; auto.
  - now apply attempting_retry.
  - apply wp_bind. eapply wp_mono; [now apply attempting_handle|].
    intros [b|e| |] s' H'; auto.
  - eapply wp_mono; [now apply attempting_finish|]. now intros o s' [_ H'].
Qed.

Lemma attempting_run actions :
  forall s, attempting s -> attempting (run_actions E actions s).
Proof.
  induction actions as [|a rest IH]; simpl; intros s H; [exact H|].
  pose proof (attempting_act a s H) as H'.
  destruct (act E a s) as [[u|e| |] s']; simpl in H'; auto.
Qed.

(** X19.  Whatever the unit does with a request, from its construction
    on, through starts, retries, responses handled and completions: it
    stays the request for its event in its room; the origins it has
    attempted are servers of the room other than this one, no one of
    them twice, so no more of them than the room has; and its origin,
    when it has one, is one of the origins attempted. *)
Theorem attempted_spec (actions : list action) (w : world) :
  let r := fst (run_actions E actions (new_request room_id_ event_id_ bufsz_, w)) in
  event_id r = event_id_ /\ room_id r = room_id_ /\ bufsz r = bufsz_ /\
  NoDup (attempted r) /\
  (forall o, In o (attempted r) -> In o (origins E room_id_) /\ my_host E o = false) /\
  List.length (attempted r) <= List.length (origins E room_id_) /\
  (origin r = "" \/ In (origin r) (attempted r)).
Proof.
  cbv zeta.
  assert (Hnew : attempting (new_request room_id_ event_id_ bufsz_, w)).
  { unfold attempting. simpl. repeat split; auto; try contradiction.
    apply stdset_spec.sorted_nil. }
  destruct (attempting_run actions _ Hnew) as (Hid & Hroom & Hbuf & Hs & Hin & Horigin).
  assert (Hnd : NoDup (attempted
            (fst (run_actions E actions (new_request room_id_ event_id_ bufsz_, w)))))
    by (apply (stdset_spec.sorted_NoDup (fun x : string => x)) in Hs;
        now rewrite map_id in Hs).
  repeat split; auto; try (now apply Hin).
  apply NoDup_incl_length; [exact Hnd|]. intros o Ho. now apply Hin.
Qed.

End Attempted.

(** ** The unit at work *)

(** A new request with a future waiting on it, and the same request once
    [start] has issued it, in the room of [env0]. *)
Definition awaited : request :=
  set_promise promise_pending (new_request "!room:me.org" "$event" 8192).

Definition flying : st := snd (start env0 (awaited, w0)).

Example flying_to_s2 :
  fst (start env0 (awaited, w0)) = Ret true /\
  origin (fst flying) = "s2.org" /\ attempted (fst flying) = ["s2.org"] /\
  transport (fst flying) = Some "s2.org" /\
  (started (fst flying), last (fst flying), finished (fst flying)) = (1000, 1002, 0)%Z.
Proof. vm_compute. repeat split. Qed.

Lemma flying_sorted : sorted_attempted (fst flying).
Proof.
  unfold sorted_attempted, stdset_spec.sorted.
  change (attempted (fst flying)) with ["s2.org"]. repeat constructor.
Qed.

Lemma flying_wf : wf (fst flying).
Proof.
  split; [exact flying_sorted|]. split.
  - intros H. vm_compute in H. discriminate.
  - intros _ _. vm_compute. discriminate.
Qed.

(** X13 at the new request. *)
Lemma start_spec_witness :
  (fst (start env0 (awaited, w0)) = Ret true /\
   issued_to_origin env0 awaited w0 (snd (start env0 (awaited, w0)))) \/
  (fst (start env0 (awaited, w0)) = Ret false /\
   given_up env0 awaited w0 (snd (start env0 (awaited, w0)))).
Proof.
  apply (start_spec env0 env0_pos awaited w0).
  - reflexivity.
  - reflexivity.
  - apply stdset_spec.sorted_nil.
Defined.

(** X14 at the request in flight, when the transport reports an error. *)
Lemma handle_spec_witness :
  (good_response env0 (fst flying) (Throw http_error) ->
   handle env0 (Throw http_error) (fst flying, snd flying)
   = (Ret true, delivered env0 (fst flying) (snd flying))) /\
  (bad_response env0 (fst flying) (Throw http_error) ->
   (fst (handle env0 (Throw http_error) (fst flying, snd flying)) = Ret false /\
    issued_to_origin env0 (retried (fst flying)) (snd flying)
      (snd (handle env0 (Throw http_error) (fst flying, snd flying)))) \/
   (fst (handle env0 (Throw http_error) (fst flying, snd flying)) = Ret true /\
    given_up env0 (retried (fst flying)) (snd flying)
      (snd (handle env0 (Throw http_error) (fst flying, snd flying))))).
Proof.
  apply (handle_spec env0 env0_pos (fst flying) (snd flying) (Throw http_error)).
  - reflexivity.
  - vm_compute. discriminate.
  - vm_compute. discriminate.
  - exact flying_sorted.
  - reflexivity.
Defined.

(** X15 at the set of that one request, with the time-out of 5
    seconds. *)
Lemma request_cleanup_spec_witness :
  exists n requests' w',
    request_cleanup env0 5 [fst flying] (snd flying) = (Ret n, (requests', w')) /\
    n + List.length requests' = List.length [fst flying] /\
    sorted_requests requests' /\
    Forall (fun r' => finished r' = 0%Z /\ started r' <> 0%Z /\ last r' <> 0%Z /\
                      wf r') requests' /\
    (forall r', In r' requests' ->
       exists r, In r [fst flying] /\ same_request r r' /\ finished r = 0%Z) /\
    (forall r, In r [fst flying] -> started r <> 0%Z -> finished r = 0%Z ->
               (time env0 (tick (snd flying)) <= int64 (last r + 5))%Z ->
               In r requests').
Proof.
  apply (request_cleanup_spec env0 env0_pos 5 [fst flying] (snd flying)).
  - repeat constructor.
  - constructor; [exact flying_wf|constructor].
Defined.

(** With the greatest time-out a signed 64-bit integer holds the sum
    wraps around to a time long past, and the request that was just
    issued has timed out; with 5 seconds it has not. *)
Example timedout_wraps :
  timedout (2 ^ 63 - 1) (fst flying) (time env0 (tick (snd flying))) = Ret true /\
  timedout 5 (fst flying) (time env0 (tick (snd flying))) = Ret false.
Proof. split; reflexivity. Qed.


(** Two submissions, an error of the transport for the first request
    and a clean-up, with a time-out of 60 seconds. *)
Definition busy_ops : list unit_op :=
  [Submit "$a" "!room:me.org" 8192; Submit "$b" "!room:me.org" 8192;
   Handle_it "$a" (Throw http_error); Cleanup].

Definition busy : list request * world :=
  match unit_run env0 60 busy_ops ([], w0) with
  | Some s => s
  | None => ([], w0)
  end.

Example busy_set :
  unit_run env0 60 busy_ops ([], w0) = Some busy /\
  map event_id (fst busy) = ["$b"] /\
  map origin (fst busy) = ["s2.org"] /\
  map finished (fst busy) = [0%Z].
Proof. vm_compute. repeat split. Qed.

(** X17 at the state those calls reach. *)
Lemma unit_invariant_witness :
  sorted_requests (fst busy) /\ NoDup (map event_id (fst busy)) /\
  Forall wf (fst busy) /\
  exists n requests'' w'',
    request_cleanup env0 60 (fst busy) (snd busy) = (Ret n, (requests'', w'')).
Proof.
  apply (unit_invariant env0 env0_pos 60 busy_ops w0 (fst busy) (snd busy)).
  vm_compute. reflexivity.
Defined.

(** X18 at the first submission to the empty set. *)
Lemma exists_submit_witness :
  match submit env0 "$event" "!room:me.org" 8192 [] w0 with
  | (Ret future_invalid, (requests', _)) =>
      requests' = [] /\ exists_ "$event" [] = true
  | (Ret (future_of promised), (requests', _)) =>
      promised = "$event" /\
      exists_ "$event" [] = false /\
      exists_ "$event" requests' = true /\
      count requests' = S (count []) /\
      forall other, other <> "$event" ->
                    exists_ other requests' = exists_ other []
  | (Abort, (requests', _)) => requests' = []
  | _ => False
  end.
Proof.
  apply (exists_submit env0 "$event" "!room:me.org" 8192 [] w0).
  apply stdset_spec.sorted_nil.
Defined.


End fetch_requests_spec.
